(** * OAuth 1.0a client for Deno: a shallow embedding of [src/oauth.js]
      and [src/encoding/uri.js], with the properties of its signing
      pipeline and of its token state.

    JavaScript strings are sequences of UTF-16 code units; a code unit is
    a number below 65536, carried here as an [N].  Built-ins of the
    platform ([encodeURIComponent], [String.prototype.replace],
    [Array.prototype.sort], [URLSearchParams], [TextEncoder]) follow
    ECMA-262 and the WHATWG URL and Encoding standards.

    A method of the class is a function of the client it is called on and
    returns, next to its result or the exception it throws, the client as
    the call leaves it.  The calls are sequential: an [await] is a point
    where the result of the awaited operation is taken. *)

From Stdlib Require Import List NArith ZArith Lia Bool String Ascii.
From Stdlib Require Strings.Byte.
From Stdlib Require Import Permutation Sorted.
Import ListNotations.

#[local] Open Scope N_scope.

(* ================================================================== *)
(** ** Strings, values and exceptions *)

Definition jsstring := list N.

(** A string literal of the source: its characters are all ASCII. *)
Definition lit (s : string) : jsstring :=
  map N_of_ascii (list_ascii_of_string s).

(** Every element of a string is a code unit. *)
Definition code_units (s : jsstring) : bool :=
  forallb (fun c => c <? 0x10000) s.

Definition in_range (lo hi c : N) : bool := (lo <=? c) && (c <=? hi).

Definition mem_lit (c : N) (s : string) : bool := existsb (N.eqb c) (lit s).

(** The exceptions the program can raise: the two built-in ones and the
    repository's [OAuthError] (src/oauth/error.js), with its message. *)
Inductive exn : Type :=
| URIError
| TypeError
| OAuthError (message : string).

Inductive result (A : Type) : Type :=
| Ok (a : A)
| Throw (e : exn).
Arguments Ok {A} a.
Arguments Throw {A} e.

Definition bind {A B} (r : result A) (k : A -> result B) : result B :=
  match r with
  | Ok a => k a
  | Throw e => Throw e
  end.

Notation "x <- r ;; k" := (bind r (fun x => k))
  (at level 61, r at next level, right associativity).
Notation "' pat <- r ;; k" := (bind r (fun x => match x with pat => k end))
  (at level 61, pat pattern, r at next level, right associativity).

(** [array.map(f)] with a callback that may throw: the first exception,
    in index order, ends the call. *)
Fixpoint mapM {A B} (f : A -> result B) (l : list A) : result (list B) :=
  match l with
  | [] => Ok []
  | a :: l' => b <- f a ;; bs <- mapM f l' ;; Ok (b :: bs)
  end.

(** [array.join(sep)] on an array of strings. *)
Fixpoint join (sep : jsstring) (l : list jsstring) : jsstring :=
  match l with
  | [] => []
  | [s] => s
  | s :: l' => s ++ sep ++ join sep l'
  end.

Fixpoint str_eqb (a b : jsstring) : bool :=
  match a, b with
  | [], [] => true
  | x :: a', y :: b' => (x =? y) && str_eqb a' b'
  | _, _ => false
  end.

(** [a < b] on strings (ECMA-262, IsLessThan): a proper prefix is
    smaller, otherwise the first differing code unit decides. *)
Fixpoint str_ltb (a b : jsstring) : bool :=
  match a, b with
  | _, [] => false
  | [], _ :: _ => true
  | x :: a', y :: b' =>
      if x <? y then true else if y <? x then false else str_ltb a' b'
  end.

(** The JavaScript values that flow through the client: a parameter key
    or value, a credential, a token.  [VNumber] is an integer-valued
    Number (the timestamp). *)
Inductive value : Type :=
| VUndefined
| VNull
| VString (s : jsstring)
| VNumber (z : Z).

(* ================================================================== *)
(** ** [encodeURIComponent] (ECMA-262, Encode) *)

Definition is_alnum (c : N) : bool :=
  in_range 65 90 c || in_range 97 122 c || in_range 48 57 c.

(** The set [encodeURIComponent] never escapes: the ASCII word
    characters and [-.!~*'()].  It is the header comment of
    [encodeURIComponentRFC2396] in src/encoding/uri.js. *)
Definition uriUnescaped (c : N) : bool :=
  is_alnum c || mem_lit c "_-.!~*'()".

Definition is_leading_surrogate (c : N) : bool := in_range 0xD800 0xDBFF c.
Definition is_trailing_surrogate (c : N) : bool := in_range 0xDC00 0xDFFF c.

Definition UTF16SurrogatePairToCodePoint (lead trail : N) : N :=
  (lead - 0xD800) * 0x400 + (trail - 0xDC00) + 0x10000.

(** The UTF-8 transformation of a code point; the three payload bits of
    the first octet of a four-octet form are masked, as the other
    payloads are. *)
Definition utf8_octets (cp : N) : list N :=
  if cp <? 0x80 then [cp]
  else if cp <? 0x800 then [0xC0 + cp / 64; 0x80 + cp mod 64]
  else if cp <? 0x10000 then
    [0xE0 + cp / 4096; 0x80 + (cp / 64) mod 64; 0x80 + cp mod 64]
  else
    [0xF0 + (cp / 262144) mod 8; 0x80 + (cp / 4096) mod 64;
     0x80 + (cp / 64) mod 64; 0x80 + cp mod 64].

(** One hexadecimal digit, upper or lower case. *)
Definition hex_digit (upper : bool) (d : N) : N :=
  if d <? 10 then 48 + d else (if upper then 55 else 87) + d.

(** ["%" + StringPad(hex, 2, "0")] with [hex] in upper case. *)
Definition escape_octet (b : N) : jsstring :=
  [37; hex_digit true (b / 16); hex_digit true (b mod 16)].

Definition escape_octets (bs : list N) : jsstring :=
  flat_map escape_octet bs.

(** The loop of Encode.  A code unit of [unescaped] is copied; otherwise
    the code point at the position is read, an unpaired surrogate throws
    [URIError], and the octets of the code point are escaped. *)
Fixpoint Encode (unescaped : N -> bool) (s : jsstring) : result jsstring :=
  match s with
  | [] => Ok []
  | c :: rest =>
      if unescaped c then r <- Encode unescaped rest ;; Ok (c :: r)
      else if is_trailing_surrogate c then Throw URIError
      else if is_leading_surrogate c then
        match rest with
        | [] => Throw URIError
        | d :: rest' =>
            if is_trailing_surrogate d then
              r <- Encode unescaped rest' ;;
              Ok (escape_octets
                    (utf8_octets (UTF16SurrogatePairToCodePoint c d)) ++ r)
            else Throw URIError
        end
      else r <- Encode unescaped rest ;; Ok (escape_octets (utf8_octets c) ++ r)
  end.

(** [Number.prototype.toString(radix)] on an integer-valued Number:
    lower-case digits, no padding, a minus sign when negative.  With
    radix 10 this is also ToString on such a Number, for magnitudes below
    10^21; every time value is far below that. *)
Fixpoint to_radix (radix : N) (fuel : nat) (n : N) : jsstring :=
  match fuel with
  | O => []
  | S fuel' =>
      if n <? radix then [hex_digit false n]
      else to_radix radix fuel' (n / radix) ++ [hex_digit false (n mod radix)]
  end.

Definition NumberToString (radix : N) (z : Z) : jsstring :=
  (if (z <? 0)%Z then lit "-" else []) ++
  to_radix radix (S (N.size_nat (Z.abs_N z))) (Z.abs_N z).

Definition ToString (v : value) : jsstring :=
  match v with
  | VUndefined => lit "undefined"
  | VNull => lit "null"
  | VString s => s
  | VNumber z => NumberToString 10 z
  end.

(** [encodeURIComponent(v)] converts its argument with ToString first. *)
Definition encodeURIComponent (uriComponent : value) : result jsstring :=
  Encode uriUnescaped (ToString uriComponent).

(* ================================================================== *)
(** ** src/encoding/uri.js *)

Definition encodeURIComponentRFC2396 := encodeURIComponent.

(** [string.replace(/[...]/g, f)] for a character class: every code unit
    of the class is replaced by what the callback returns for it. *)
Definition replace_class (cls : N -> bool) (f : N -> jsstring)
    (s : jsstring) : jsstring :=
  flat_map (fun c => if cls c then f c else [c]) s.

(** The class [[!'()*]]. *)
Definition sub_delims (c : N) : bool := mem_lit c "!'()*".

(** [char.charCodeAt()]: the code unit at index 0, as a Number. *)
Definition charCodeAt0 (char : N) : Z := Z.of_N char.

Definition encodeURIComponentRFC3986 (uriComponent : value)
    : result jsstring :=
  r <- encodeURIComponentRFC2396 uriComponent ;;
  Ok (replace_class sub_delims
        (fun char => lit "%" ++ NumberToString 16 (charCodeAt0 char)) r).

(** The set named in the header comment of [encodeURIComponentRFC3986]:
    [A-Z a-z 0-9 - _ . ~]. *)
Definition unreserved (c : N) : bool := is_alnum c || mem_lit c "-_.~".


(* ================================================================== *)
(** ** [decodeURIComponent] (ECMA-262, Decode with no preserved escapes)

    The percent-decoding against which the encoder is checked. *)

Definition hex_value (c : N) : option N :=
  if in_range 48 57 c then Some (c - 48)
  else if in_range 65 70 c then Some (c - 55)
  else if in_range 97 102 c then Some (c - 87)
  else None.

(** ParseHexOctet on a string that must start with an escape. *)
Definition parse_escape (s : jsstring) : result (N * jsstring) :=
  match s with
  | 37 :: h :: l :: rest =>
      match hex_value h, hex_value l with
      | Some a, Some b => Ok (16 * a + b, rest)
      | _, _ => Throw URIError
      end
  | _ => Throw URIError
  end.

(** The [n] continuation escapes that follow a leading octet. *)
Fixpoint parse_escapes (n : nat) (s : jsstring)
    : result (list N * jsstring) :=
  match n with
  | O => Ok ([], s)
  | S n' =>
      '(b, s1) <- parse_escape s ;;
      '(bs, s2) <- parse_escapes n' s1 ;;
      Ok (b :: bs, s2)
  end.

(** The number of leading 1 bits of an octet. *)
Definition leading_ones (b : N) : nat :=
  if b <? 0x80 then 0
  else if b <? 0xC0 then 1
  else if b <? 0xE0 then 2
  else if b <? 0xF0 then 3
  else if b <? 0xF8 then 4
  else 5.

Definition is_continuation (b : N) : bool := in_range 0x80 0xBF b.

(** The code point of a well-formed UTF-8 sequence of two to four
    octets: no overlong form, no surrogate, nothing above U+10FFFF. *)
Definition utf8_code_point (octets : list N) : option N :=
  match octets with
  | [b0; b1] =>
      let cp := (b0 mod 32) * 64 + b1 mod 64 in
      if is_continuation b1 && (0x80 <=? cp) then Some cp else None
  | [b0; b1; b2] =>
      let cp := (b0 mod 16) * 4096 + (b1 mod 64) * 64 + b2 mod 64 in
      if is_continuation b1 && is_continuation b2 && (0x800 <=? cp)
         && negb (in_range 0xD800 0xDFFF cp)
      then Some cp else None
  | [b0; b1; b2; b3] =>
      let cp := (b0 mod 8) * 262144 + (b1 mod 64) * 4096
                + (b2 mod 64) * 64 + b3 mod 64 in
      if is_continuation b1 && is_continuation b2 && is_continuation b3
         && in_range 0x10000 0x10FFFF cp
      then Some cp else None
  | _ => None
  end.

Definition UTF16EncodeCodePoint (cp : N) : jsstring :=
  if cp <=? 0xFFFF then [cp]
  else [(cp - 0x10000) / 1024 + 0xD800; (cp - 0x10000) mod 1024 + 0xDC00].

(** The loop of Decode; every iteration consumes at least one code unit,
    so [length s] iterations are enough. *)
Fixpoint Decode (fuel : nat) (s : jsstring) : result jsstring :=
  match s with
  | [] => Ok []
  | c :: rest =>
      match fuel with
      | O => Throw URIError
      | S fuel' =>
          if negb (c =? 37) then r <- Decode fuel' rest ;; Ok (c :: r)
          else
            '(b, s1) <- parse_escape s ;;
            match leading_ones b with
            | O => r <- Decode fuel' s1 ;; Ok (b :: r)
            | S O => Throw URIError
            | S (S (S (S (S _)))) => Throw URIError
            | S n' =>
                '(bs, s2) <- parse_escapes n' s1 ;;
                match utf8_code_point (b :: bs) with
                | None => Throw URIError
                | Some cp =>
                    r <- Decode fuel' s2 ;; Ok (UTF16EncodeCodePoint cp ++ r)
                end
            end
      end
  end.

Definition decodeURIComponent (encoded : jsstring) : result jsstring :=
  Decode (List.length encoded) encoded.

(* ================================================================== *)
(** ** UTF-8 encoding and decoding of the platform (WHATWG Encoding) *)

(** [TextEncoder.prototype.encode]: the UTF-8 octets of the string, an
    unpaired surrogate becoming U+FFFD. *)
Fixpoint utf8_encode (s : jsstring) : list N :=
  match s with
  | [] => []
  | c :: rest =>
      if is_leading_surrogate c then
        match rest with
        | [] => [0xEF; 0xBF; 0xBD]
        | d :: rest' =>
            if is_trailing_surrogate d then
              utf8_octets (UTF16SurrogatePairToCodePoint c d)
              ++ utf8_encode rest'
            else [0xEF; 0xBF; 0xBD] ++ utf8_encode rest
        end
      else if is_trailing_surrogate c then [0xEF; 0xBF; 0xBD] ++ utf8_encode rest
      else utf8_octets c ++ utf8_encode rest
  end.

(** The state of the UTF-8 decoder: the code point being assembled, the
    number of continuation octets still needed, and the bounds of the
    next octet. *)
Record utf8_state : Type := {
  code_point : N;
  bytes_needed : nat;
  lower_boundary : N;
  upper_boundary : N
}.

Definition utf8_initial : utf8_state :=
  {| code_point := 0; bytes_needed := 0;
     lower_boundary := 0x80; upper_boundary := 0xBF |}.

(** An octet read with no sequence in progress. *)
Definition utf8_lead (b : N) : list N * utf8_state :=
  if b <=? 0x7F then ([b], utf8_initial)
  else if in_range 0xC2 0xDF b then
    ([], {| code_point := b mod 32; bytes_needed := 1;
            lower_boundary := 0x80; upper_boundary := 0xBF |})
  else if in_range 0xE0 0xEF b then
    ([], {| code_point := b mod 16; bytes_needed := 2;
            lower_boundary := if b =? 0xE0 then 0xA0 else 0x80;
            upper_boundary := if b =? 0xED then 0x9F else 0xBF |})
  else if in_range 0xF0 0xF4 b then
    ([], {| code_point := b mod 8; bytes_needed := 3;
            lower_boundary := if b =? 0xF0 then 0x90 else 0x80;
            upper_boundary := if b =? 0xF4 then 0x8F else 0xBF |})
  else ([0xFFFD], utf8_initial).

(** One octet through the decoder: the code points it emits and the next
    state.  An octet outside the bounds ends the sequence with U+FFFD and
    is read again with no sequence in progress. *)
Definition utf8_step (st : utf8_state) (b : N) : list N * utf8_state :=
  match bytes_needed st with
  | O => utf8_lead b
  | S n =>
      if negb (in_range (lower_boundary st) (upper_boundary st) b) then
        let '(out, st') := utf8_lead b in (0xFFFD :: out, st')
      else
        let cp := code_point st * 64 + b mod 64 in
        match n with
        | O => ([cp], utf8_initial)
        | S _ =>
            ([], {| code_point := cp; bytes_needed := n;
                    lower_boundary := 0x80; upper_boundary := 0xBF |})
        end
  end.

Fixpoint utf8_decode_from (st : utf8_state) (bs : list N) : list N :=
  match bs with
  | [] => match bytes_needed st with O => [] | S _ => [0xFFFD] end
  | b :: rest =>
      let '(out, st') := utf8_step st b in out ++ utf8_decode_from st' rest
  end.

(** "UTF-8 decode without BOM", as a string of code units. *)
Definition utf8_decode_without_BOM (bs : list N) : jsstring :=
  flat_map UTF16EncodeCodePoint (utf8_decode_from utf8_initial bs).

(** [TextDecoder.prototype.decode] with the default options: a leading
    byte order mark is dropped. *)
Definition TextDecoder_decode (bs : list N) : jsstring :=
  match bs with
  | b0 :: b1 :: b2 :: rest =>
      if (b0 =? 0xEF) && (b1 =? 0xBB) && (b2 =? 0xBF)
      then utf8_decode_without_BOM rest
      else utf8_decode_without_BOM bs
  | _ => utf8_decode_without_BOM bs
  end.

(* ================================================================== *)
(** ** src/encoding/uint8array.js and src/encoding/hex.js *)

Definition parseUint8Array (string : jsstring) : list N := utf8_encode string.

Definition stringifyUint8Array (buffer : list N) : jsstring :=
  TextDecoder_decode buffer.

(** Modelled from the spec: [encode] of deps/std/encoding/hex.ts, the
    hex codec the spec treats as a trusted primitive; it is not under
    src/.  Two lower-case digits per octet, as octets. *)
Definition encodeHex (uint8array : list N) : list N :=
  flat_map (fun b => [hex_digit false (b / 16); hex_digit false (b mod 16)])
           uint8array.

Definition stringifyHex (uint8array : list N) : jsstring :=
  stringifyUint8Array (encodeHex uint8array).

(** Modelled from the spec: [encode] of deps/std/encoding/base64.ts, the
    base64 codec the spec treats as a trusted primitive; it is not under
    src/.  RFC 4648 base64 with padding. *)
Definition base64_char (n : N) : N :=
  if n <? 26 then 65 + n
  else if n <? 52 then 71 + n
  else if n <? 62 then n - 4
  else if n =? 62 then 43
  else 47.

Fixpoint encodeBase64 (data : list N) : jsstring :=
  match data with
  | [] => []
  | [a] => [base64_char (a / 4); base64_char ((a mod 4) * 16); 61; 61]
  | [a; b] =>
      [base64_char (a / 4); base64_char ((a mod 4) * 16 + b / 16);
       base64_char ((b mod 16) * 4); 61]
  | a :: b :: c :: rest =>
      [base64_char (a / 4); base64_char ((a mod 4) * 16 + b / 16);
       base64_char ((b mod 16) * 4 + c / 64); base64_char (c mod 64)]
      ++ encodeBase64 rest
  end.

(* ================================================================== *)
(** ** [URLSearchParams] (WHATWG URL, application/x-www-form-urlencoded) *)

Fixpoint split_on (sep : N) (bs : list N) : list (list N) :=
  match bs with
  | [] => [[]]
  | b :: rest =>
      if b =? sep then [] :: split_on sep rest
      else
        match split_on sep rest with
        | [] => [[b]]
        | x :: xs => (b :: x) :: xs
        end
  end.

(** The name and the value of one sequence: split at the first [=]. *)
Fixpoint split_name_value (bs : list N) : list N * list N :=
  match bs with
  | [] => ([], [])
  | b :: rest =>
      if b =? 61 then ([], rest)
      else let '(name, v) := split_name_value rest in (b :: name, v)
  end.

Definition plus_to_space (bs : list N) : list N :=
  map (fun b => if b =? 43 then 32 else b) bs.

(** "Percent-decode" of a byte sequence: an escape that is not two hex
    digits long is left as it is. *)
Fixpoint percent_decode (bs : list N) : list N :=
  match bs with
  | [] => []
  | b :: rest =>
      if b =? 37 then
        match rest with
        | h :: l :: rest' =>
            match hex_value h, hex_value l with
            | Some x, Some y => (16 * x + y) :: percent_decode rest'
            | _, _ => b :: percent_decode rest
            end
        | _ => b :: percent_decode rest
        end
      else b :: percent_decode rest
  end.

Definition urlencoded_parse (input : list N) : list (jsstring * jsstring) :=
  flat_map
    (fun bytes =>
       match bytes with
       | [] => []
       | _ =>
           let '(name, v) := split_name_value bytes in
           [(utf8_decode_without_BOM (percent_decode (plus_to_space name)),
             utf8_decode_without_BOM (percent_decode (plus_to_space v)))]
       end)
    (split_on 38 input).

(** [new URLSearchParams(init)] on a string: a leading [?] is dropped
    and the rest is parsed. *)
Definition URLSearchParams (init : jsstring) : list (jsstring * jsstring) :=
  urlencoded_parse
    (utf8_encode (match init with 63 :: rest => rest | _ => init end)).

(** [params.get(name)]: the value of the first pair with that name, or
    [null]. *)
Fixpoint URLSearchParams_get (params : list (jsstring * jsstring))
    (name : jsstring) : value :=
  match params with
  | [] => VNull
  | (n, v) :: rest =>
      if str_eqb n name then VString v else URLSearchParams_get rest name
  end.

(** ToBoolean on a value. *)
Definition truthy (v : value) : bool :=
  match v with
  | VUndefined | VNull => false
  | VString s => match s with [] => false | _ => true end
  | VNumber z => negb (z =? 0)%Z
  end.

(* ================================================================== *)
(** ** [Array.prototype.sort]

    The sort is stable, and an element moves ahead of another only when
    the comparator returns a positive number for the pair in their
    current order.  For the comparator of [#getSignature], a total order
    on the encoded pairs, every sorting algorithm returns the same
    array; see [sort_unique]. *)

Fixpoint sort_insert {A} (comparefn : A -> A -> Z) (x : A) (sorted : list A)
    : list A :=
  match sorted with
  | [] => [x]
  | y :: rest =>
      if (0 <? comparefn x y)%Z then y :: sort_insert comparefn x rest
      else x :: sorted
  end.

Definition sort {A} (comparefn : A -> A -> Z) (l : list A) : list A :=
  fold_right (sort_insert comparefn) [] l.

(* ================================================================== *)
(** ** src/oauth.js: module-level helpers *)

Definition param : Type := value * value.

Definition encodePercent := encodeURIComponentRFC3986.

Definition dquote : N := 34.

Definition default {A} (d : A) (o : option A) : A :=
  match o with
  | Some a => a
  | None => d
  end.

Definition buildQuery (params : list param) : result jsstring :=
  l <- mapM (fun '(key, value) =>
               k <- encodePercent key ;;
               v <- encodePercent value ;;
               Ok (k ++ lit "=" ++ v)) params ;;
  Ok (join (lit "&") l).

Definition buildURL (requestURL : jsstring) (params : list param)
    (isPost : bool) : result jsstring :=
  if isPost || (List.length params =? 0)%nat then Ok requestURL
  else q <- buildQuery params ;; Ok (requestURL ++ lit "?" ++ q).

(** The body of a request: omitted, an already serialised string, or a
    list of pairs to be form-encoded. *)
Inductive body_value : Type :=
| BodyUndefined
| BodyString (s : jsstring)
| BodyParams (l : list param).

(** ToBoolean on a body value: an array is truthy even when empty, the
    empty string is not. *)
Definition body_truthy (b : body_value) : bool :=
  match b with
  | BodyUndefined => false
  | BodyString s => truthy (VString s)
  | BodyParams _ => true
  end.

(** The strings a string iterator yields: one per code point. *)
Fixpoint code_point_strings (s : jsstring) : list jsstring :=
  match s with
  | [] => []
  | c :: rest =>
      if is_leading_surrogate c then
        match rest with
        | [] => [[c]]
        | d :: rest' =>
            if is_trailing_surrogate d then [c; d] :: code_point_strings rest'
            else [c] :: code_point_strings rest
        end
      else [c] :: code_point_strings rest
  end.

(** [[...bodyParams]] followed by the destructuring [[key, value]] of
    each element: an array gives its pairs; a string gives one element
    per code point, whose second component is [undefined]; [undefined]
    is not iterable. *)
Definition spread (bodyParams : body_value) : result (list param) :=
  match bodyParams with
  | BodyUndefined => Throw TypeError
  | BodyString s =>
      Ok (map (fun cp => (VString cp, VUndefined)) (code_point_strings s))
  | BodyParams l => Ok l
  end.

Definition form_urlencoded : jsstring := lit "application/x-www-form-urlencoded".

(** The client: its private fields.  [#signatureMethod] and [#version]
    are never assigned after their initialisers and are constants. *)
Record OAuth : Type := {
  consumerKey : value;
  consumerSecret : value;
  token : value;
  tokenSecret : value
}.

Definition OAuth_type : jsstring := lit "OAuth".
Definition signatureMethod : jsstring := lit "HMAC-SHA1".
Definition version : jsstring := lit "1.0".

(** [new OAuth(consumerKey, consumerSecret)]. *)
Definition new_OAuth (consumerKey consumerSecret : value) : OAuth :=
  {| consumerKey := consumerKey; consumerSecret := consumerSecret;
     token := VString []; tokenSecret := VString [] |}.

(** [setToken(token = '', tokenSecret = '')]: a default applies to an
    argument that is [undefined], and to no other. *)
Definition setToken (token' tokenSecret' : value) (this : OAuth) : OAuth :=
  {| consumerKey := consumerKey this;
     consumerSecret := consumerSecret this;
     token := match token' with VUndefined => VString [] | v => v end;
     tokenSecret :=
       match tokenSecret' with VUndefined => VString [] | v => v end |}.

(** What the platform supplies to one call: the 16 octets that
    [crypto.getRandomValues] writes and the value of [Date.now()]. *)
Record env : Type := {
  random_values : list Byte.byte;
  date_now : Z
}.

Definition getNonce (e : env) : jsstring :=
  let uint8array := map Byte.to_N (random_values e) in
  stringifyHex uint8array.

(** [Math.floor(Date.now() / 1000)]; the division is exact on every time
    value, so the floor is the integer quotient. *)
Definition getTimestamp (e : env) : Z := (date_now e / 1000)%Z.

(** The comparator of [#getSignature]. *)
Definition compare_params (a b : jsstring * jsstring) : Z :=
  let '(aKey, aValue) := a in
  let '(bKey, bValue) := b in
  if str_ltb aKey bKey then (-1)%Z
  else if str_ltb bKey aKey then 1%Z
  else if str_ltb aValue bValue then (-1)%Z
  else if str_ltb bValue aValue then 1%Z
  else 0%Z.

(** [paramsString] of [#getSignature]. *)
Definition paramsString (params oAuthParams bodyParams : list param)
    : result jsstring :=
  encoded <- mapM (fun '(key, value) =>
                     k <- encodePercent key ;;
                     v <- encodePercent value ;;
                     Ok (k, v)) (params ++ oAuthParams ++ bodyParams) ;;
  Ok (join (lit "&")
        (map (fun '(key, value) => key ++ lit "=" ++ value)
             (sort compare_params encoded))).

(** [keyString] of [#getSignature]. *)
Definition keyString (consumerSecret tokenSecret : value) : result jsstring :=
  c <- encodePercent consumerSecret ;;
  t <- encodePercent tokenSecret ;;
  Ok (c ++ lit "&" ++ t).

(** The options object of a call; a field that is omitted is [None]
    (for the body, [BodyUndefined]) and takes the default of the
    function that destructures it. *)
Record options : Type := {
  method : option jsstring;
  params : option (list param);
  oAuthParams : option (list param);
  contentType : option jsstring;
  bodyValue : body_value;
  callbackURL : option jsstring
}.

Definition no_options : options :=
  {| method := None; params := None; oAuthParams := None;
     contentType := None; bodyValue := BodyUndefined; callbackURL := None |}.

(** The arguments given to [new Request(url, init)].  The constructor
    itself belongs to the HTTP transport and is not modelled. *)
Record Request : Type := {
  url : jsstring;
  request_method : jsstring;
  headers : list (string * jsstring);
  body : body_value
}.

(** A response: its [ok] flag and the text its body resolves to. *)
Record Response : Type := {
  ok : bool;
  text : jsstring
}.

Section Client.

(** Capabilities of the platform that are taken as given:
    [String.prototype.toUpperCase], the HMAC-SHA1 of
    [crypto.subtle] ([hmacSHA1 data key], src/hash/hmac_sha1.js) and
    [JSON.stringify]. *)
Variable toUpperCase : jsstring -> jsstring.
Variable hmacSHA1 : list N -> list N -> list N.
Variable JSON_stringify : body_value -> jsstring.

Definition buildBody (bodyValue : body_value) (contentType : jsstring)
    : result body_value :=
  if str_eqb (lit "application/json") contentType then
    match bodyValue with
    | BodyUndefined => Ok BodyUndefined
    | _ => Ok (BodyString (JSON_stringify bodyValue))
    end
  else if str_eqb form_urlencoded contentType then
    match bodyValue with
    | BodyParams l => q <- buildQuery l ;; Ok (BodyString q)
    | _ => Throw TypeError
    end
  else Ok bodyValue.

(** [baseString] of [#getSignature]. *)
Definition baseString (method requestURL paramsString : jsstring)
    : result jsstring :=
  let m := toUpperCase method in
  u <- encodePercent (VString requestURL) ;;
  p <- encodePercent (VString paramsString) ;;
  Ok (m ++ lit "&" ++ u ++ lit "&" ++ p).

Definition getSignature (this : OAuth) (method requestURL : jsstring)
    (params oAuthParams : list param) (bodyParams : body_value)
    : result jsstring :=
  bp <- spread bodyParams ;;
  paramsString <- paramsString params oAuthParams bp ;;
  baseString <- baseString method requestURL paramsString ;;
  keyString <- keyString (consumerSecret this) (tokenSecret this) ;;
  let data := parseUint8Array baseString in
  let key := parseUint8Array keyString in
  let signatureBuffer := hmacSHA1 data key in
  Ok (encodeBase64 signatureBuffer).

Definition getCredentials (this : OAuth) (method requestURL : jsstring)
    (params oAuthParams : list param) (bodyParams : body_value)
    : result jsstring :=
  signature <- getSignature this method requestURL params oAuthParams
                 bodyParams ;;
  l <- mapM (fun '(key, value) =>
               k <- encodePercent key ;;
               v <- encodePercent value ;;
               Ok (k ++ lit "=" ++ [dquote] ++ v ++ [dquote]))
         (oAuthParams ++ [(VString (lit "oauth_signature"), VString signature)]) ;;
  Ok (join (lit ", ") l).

Definition getAuthHeaderValue (this : OAuth) (method requestURL : jsstring)
    (params oAuthParams : list param) (bodyParams : body_value)
    : result jsstring :=
  credentials <- getCredentials this method requestURL params oAuthParams
                   bodyParams ;;
  Ok (OAuth_type ++ lit " " ++ credentials).

Definition makeRequest (this : OAuth) (requestURL : jsstring)
    (o : options) : result Request :=
  let method := default (lit "GET") (method o) in
  let params := default [] (params o) in
  let oAuthParams := default [] (oAuthParams o) in
  let contentType := default form_urlencoded (contentType o) in
  let bodyValue := bodyValue o in
  let isPost := str_eqb (lit "POST") method && body_truthy bodyValue in
  url <- buildURL requestURL params isPost ;;
  let bodyParams :=
    if isPost && str_eqb form_urlencoded contentType then bodyValue
    else BodyParams [] in
  authorization <- getAuthHeaderValue this method requestURL params
                     oAuthParams bodyParams ;;
  body <- (if isPost then buildBody bodyValue contentType
           else Ok BodyUndefined) ;;
  Ok {| url := url;
        request_method := method;
        headers := ("Authorization"%string, authorization)
                   :: (if isPost then [("Content-Type"%string, contentType)]
                       else []);
        body := body |}.

Definition makeRequestForRequestToken (requestTokenURL : jsstring)
    (o : options) (e : env) (this : OAuth) : result Request * OAuth :=
  let method := default (lit "POST") (method o) in
  let params := default [] (params o) in
  let callbackURL := default (lit "oob") (callbackURL o) in
  let this := setToken VUndefined VUndefined this in
  let oAuthParams :=
    [ (VString (lit "oauth_callback"), VString callbackURL);
      (VString (lit "oauth_consumer_key"), consumerKey this);
      (VString (lit "oauth_nonce"), VString (getNonce e));
      (VString (lit "oauth_signature_method"), VString signatureMethod);
      (VString (lit "oauth_timestamp"), VNumber (getTimestamp e));
      (VString (lit "oauth_version"), VString version) ] in
  (makeRequest this requestTokenURL
     {| method := Some method; params := Some params;
        oAuthParams := Some oAuthParams; contentType := None;
        bodyValue := BodyUndefined; callbackURL := None |},
   this).

Definition getRequestTokenParamsFrom (response : Response) (this : OAuth)
    : result (list (jsstring * jsstring)) * OAuth :=
  if negb (ok response) then
    (Throw (OAuthError "Failed to get request token"), this)
  else
    let text := text response in
    let params := URLSearchParams text in
    if negb (truthy (URLSearchParams_get params
                       (lit "oauth_callback_confirmed"))) then
      (Throw (OAuthError "Unconfirmed callback"), this)
    else
      (Ok params,
       setToken (URLSearchParams_get params (lit "oauth_token"))
                (URLSearchParams_get params (lit "oauth_token_secret"))
                this).

(** [generateAuthURL(authURL, { params = [] } = {})]; it reads the token
    and assigns nothing. *)
Definition generateAuthURL (authURL : jsstring) (o : options) (this : OAuth)
    : result jsstring :=
  let params := default [] (params o) in
  l <- mapM (fun '(key, value) =>
               k <- encodePercent key ;;
               v <- encodePercent value ;;
               Ok (k ++ lit "=" ++ v))
         ((VString (lit "oauth_token"), token this) :: params) ;;
  let query := join (lit "&") l in
  Ok (authURL ++ lit "?" ++ query).

Definition makeRequestForAccessToken (accessTokenURL : jsstring)
    (verifier : value) (o : options) (e : env) (this : OAuth)
    : result Request * OAuth :=
  let method := default (lit "POST") (method o) in
  let oAuthParams :=
    [ (VString (lit "oauth_consumer_key"), consumerKey this);
      (VString (lit "oauth_nonce"), VString (getNonce e));
      (VString (lit "oauth_signature_method"), VString signatureMethod);
      (VString (lit "oauth_timestamp"), VNumber (getTimestamp e));
      (VString (lit "oauth_token"), token this);
      (VString (lit "oauth_verifier"), verifier);
      (VString (lit "oauth_version"), VString version) ] in
  (makeRequest this accessTokenURL
     {| method := Some method; params := None;
        oAuthParams := Some oAuthParams; contentType := None;
        bodyValue := BodyUndefined; callbackURL := None |},
   this).

Definition getAccessTokenParamsFrom (response : Response) (this : OAuth)
    : result (list (jsstring * jsstring)) * OAuth :=
  if negb (ok response) then
    (Throw (OAuthError "Failed to get access token"), this)
  else
    let text := text response in
    let params := URLSearchParams text in
    (Ok params,
     setToken (URLSearchParams_get params (lit "oauth_token"))
              (URLSearchParams_get params (lit "oauth_token_secret"))
              this).

Definition makeRequestForResource (resourceURL : jsstring)
    (o : options) (e : env) (this : OAuth) : result Request * OAuth :=
  let method := default (lit "GET") (method o) in
  let params := default [] (params o) in
  let contentType := default form_urlencoded (contentType o) in
  let bodyValue := bodyValue o in
  let oAuthParams :=
    [ (VString (lit "oauth_consumer_key"), consumerKey this);
      (VString (lit "oauth_nonce"), VString (getNonce e));
      (VString (lit "oauth_signature_method"), VString signatureMethod);
      (VString (lit "oauth_timestamp"), VNumber (getTimestamp e));
      (VString (lit "oauth_token"), token this);
      (VString (lit "oauth_version"), VString version) ] in
  (makeRequest this resourceURL
     {| method := Some method; params := Some params;
        oAuthParams := Some oAuthParams; contentType := Some contentType;
        bodyValue := bodyValue; callbackURL := None |},
   this).

End Client.

(* ================================================================== *)
(** ** src/oauth.js: the second definition of the class

    The file holds the class twice.  The definitions above follow the
    first one.  The second one differs in three functions: [buildBody]
    takes a flag in place of the content type and has no JSON case,
    [#makeRequest] computes that flag, and [makeRequestForRequestToken]
    also takes a content type and a body value.  ([#getSignature] is named
    [#generateSignature] there, with the same body.) *)

Module Revised.

Definition buildBody (bodyValue : body_value) (isBodyTypeParams : bool)
    : result body_value :=
  if isBodyTypeParams then
    match bodyValue with
    | BodyParams l => q <- buildQuery l ;; Ok (BodyString q)
    | _ => Throw TypeError
    end
  else Ok bodyValue.

Section Client.

Variable toUpperCase : jsstring -> jsstring.
Variable hmacSHA1 : list N -> list N -> list N.

Definition makeRequest (this : OAuth) (requestURL : jsstring)
    (o : options) : result Request :=
  let method := default (lit "GET") (method o) in
  let params := default [] (params o) in
  let oAuthParams := default [] (oAuthParams o) in
  let contentType := default form_urlencoded (contentType o) in
  let bodyValue := bodyValue o in
  let isBodyTypeParams := str_eqb form_urlencoded contentType in
  let isPost := str_eqb (lit "POST") method && body_truthy bodyValue in
  url <- buildURL requestURL params isPost ;;
  let bodyParams :=
    if isPost && isBodyTypeParams then bodyValue else BodyParams [] in
  authorization <- getAuthHeaderValue toUpperCase hmacSHA1 this method
                     requestURL params oAuthParams bodyParams ;;
  body <- (if isPost then buildBody bodyValue isBodyTypeParams
           else Ok BodyUndefined) ;;
  Ok {| url := url;
        request_method := method;
        headers := ("Authorization"%string, authorization)
                   :: (if isPost then [("Content-Type"%string, contentType)]
                       else []);
        body := body |}.

Definition makeRequestForRequestToken (requestTokenURL : jsstring)
    (o : options) (e : env) (this : OAuth) : result Request * OAuth :=
  let method := default (lit "POST") (method o) in
  let params := default [] (params o) in
  let contentType := default form_urlencoded (contentType o) in
  let bodyValue := bodyValue o in
  let callbackURL := default (lit "oob") (callbackURL o) in
  let this := setToken VUndefined VUndefined this in
  let oAuthParams :=
    [ (VString (lit "oauth_callback"), VString callbackURL);
      (VString (lit "oauth_consumer_key"), consumerKey this);
      (VString (lit "oauth_nonce"), VString (getNonce e));
      (VString (lit "oauth_signature_method"), VString signatureMethod);
      (VString (lit "oauth_timestamp"), VNumber (getTimestamp e));
      (VString (lit "oauth_version"), VString version) ] in
  (makeRequest this requestTokenURL
     {| method := Some method; params := Some params;
        oAuthParams := Some oAuthParams; contentType := Some contentType;
        bodyValue := bodyValue; callbackURL := None |},
   this).

Definition makeRequestForAccessToken (accessTokenURL : jsstring)
    (verifier : value) (o : options) (e : env) (this : OAuth)
    : result Request * OAuth :=
  let method := default (lit "POST") (method o) in
  let oAuthParams :=
    [ (VString (lit "oauth_consumer_key"), consumerKey this);
      (VString (lit "oauth_nonce"), VString (getNonce e));
      (VString (lit "oauth_signature_method"), VString signatureMethod);
      (VString (lit "oauth_timestamp"), VNumber (getTimestamp e));
      (VString (lit "oauth_token"), token this);
      (VString (lit "oauth_verifier"), verifier);
      (VString (lit "oauth_version"), VString version) ] in
  (makeRequest this accessTokenURL
     {| method := Some method; params := None;
        oAuthParams := Some oAuthParams; contentType := None;
        bodyValue := BodyUndefined; callbackURL := None |},
   this).

End Client.

End Revised.

(** Sample capabilities on which the definitions can be run: upper-casing
    of the ASCII letters, a keyed digest that is only a stand-in for
    HMAC-SHA1, and a serialiser that is only a stand-in for JSON. *)
Definition ascii_toUpperCase (s : jsstring) : jsstring :=
  map (fun c => if in_range 97 122 c then c - 32 else c) s.

Definition sample_hmac (data key : list N) : list N :=
  map (fun b => b mod 256) (firstn 20 (key ++ data)).

Definition sample_JSON_stringify (b : body_value) : jsstring :=
  match b with
  | BodyString s => [dquote] ++ s ++ [dquote]
  | _ => lit "[]"
  end.

Definition sample_client : OAuth :=
  new_OAuth (VString (lit "key")) (VString (lit "SECRET")).

Definition sample_env : env :=
  {| random_values :=
       [Byte.x00; Byte.x01; Byte.x02; Byte.x03; Byte.x04; Byte.x05; Byte.x06;
        Byte.x07; Byte.x08; Byte.x09; Byte.x0a; Byte.x0b; Byte.x0c; Byte.x0d;
        Byte.x0e; Byte.xff];
     date_now := 1700000000123 |}.


(** The request of appendix A.5 of OAuth Core 1.0a. *)
Definition photos_params : list param :=
  [ (VString (lit "file"), VString (lit "vacation.jpg"));
    (VString (lit "size"), VString (lit "original")) ].

Definition photos_oAuthParams : list param :=
  [ (VString (lit "oauth_consumer_key"), VString (lit "dpf43f3p2l4k3l03"));
    (VString (lit "oauth_nonce"), VString (lit "kllo9940pd9333jh"));
    (VString (lit "oauth_signature_method"), VString (lit "HMAC-SHA1"));
    (VString (lit "oauth_timestamp"), VNumber 1191242096);
    (VString (lit "oauth_token"), VString (lit "nnch734d00sl2jdk"));
    (VString (lit "oauth_version"), VString (lit "1.0")) ].

(* ================================================================== *)
(** ** Notions the properties are stated with *)

(** The code points of a string, read as CodePointAt does; an unpaired
    surrogate has none. *)
Fixpoint to_code_points (s : jsstring) : result (list N) :=
  match s with
  | [] => Ok []
  | c :: rest =>
      if is_trailing_surrogate c then Throw URIError
      else if is_leading_surrogate c then
        match rest with
        | [] => Throw URIError
        | d :: rest' =>
            if is_trailing_surrogate d then
              r <- to_code_points rest' ;;
              Ok (UTF16SurrogatePairToCodePoint c d :: r)
            else Throw URIError
        end
      else r <- to_code_points rest ;; Ok (c :: r)
  end.

(** [String.prototype.isWellFormed]: no unpaired surrogate. *)
Definition isWellFormed (s : jsstring) : bool :=
  match to_code_points s with
  | Ok _ => true
  | Throw _ => false
  end.

Definition value_wf (v : value) : bool := isWellFormed (ToString v).

Definition params_wf (l : list param) : bool :=
  forallb (fun '(k, v) => value_wf k && value_wf v) l.

(** The percent-encoding as the specification words it, code point by
    code point: an unreserved character stands for itself, each of
    [!'()*] becomes [%] and the two lower-case hex digits of its code,
    and any other code point becomes the upper-case escapes of its UTF-8
    octets. *)
Definition spec_escape (cp : N) : jsstring :=
  if unreserved cp then [cp]
  else if sub_delims cp then
    [37; hex_digit false (cp / 16); hex_digit false (cp mod 16)]
  else escape_octets (utf8_octets cp).

Definition spec_encode (s : jsstring) : result jsstring :=
  cps <- to_code_points s ;; Ok (flat_map spec_escape cps).

Definition is_hex_digit (c : N) : bool :=
  in_range 48 57 c || in_range 65 70 c || in_range 97 102 c.

Definition ampersand : N := 38.

(** A code unit the encoder can emit: unreserved, or [%]. *)
Definition plain (c : N) : bool := unreserved c || (c =? 37).

Definition ascii_only (s : jsstring) : bool := forallb (fun c => c <? 128) s.

(** A Unicode scalar value: a code point that is not a surrogate. *)
Definition scalar (cp : N) : Prop :=
  cp < 0x110000 /\ in_range 0xD800 0xDFFF cp = false.

(** The percent-encoding of one pair. *)
Definition encode_pair (p : param) : result (jsstring * jsstring) :=
  let '(key, value) := p in
  k <- encodePercent key ;; v <- encodePercent value ;; Ok (k, v).

(** The order of the comparator of [#getSignature]. *)
Definition params_le (a b : jsstring * jsstring) : Prop :=
  (compare_params a b <= 0)%Z.

(** The [Authorization] header value for a list of encoded pairs. *)
Definition header_of_pairs (pairs : list (jsstring * jsstring)) : jsstring :=
  lit "OAuth " ++
  join (lit ", ")
    (map (fun '(k, v) => k ++ lit "=" ++ [dquote] ++ v ++ [dquote]) pairs).

Fixpoint lookup_header (name : string) (h : list (string * jsstring))
    : option jsstring :=
  match h with
  | [] => None
  | (n, v) :: rest =>
      if String.eqb n name then Some v else lookup_header name rest
  end.

(** A call of a public method of the client, with its arguments and what
    the platform supplies to it. *)
Inductive call : Type :=
| SetToken (token tokenSecret : value)
| MakeRequestForRequestToken (requestTokenURL : jsstring) (o : options)
    (e : env)
| GetRequestTokenParamsFrom (response : Response)
| GenerateAuthURL (authURL : jsstring) (o : options)
| MakeRequestForAccessToken (accessTokenURL : jsstring) (verifier : value)
    (o : options) (e : env)
| GetAccessTokenParamsFrom (response : Response)
| MakeRequestForResource (resourceURL : jsstring) (o : options) (e : env).

(** The client as a call leaves it, whether the call returns or throws. *)
Definition after (toUpperCase : jsstring -> jsstring)
    (hmacSHA1 : list N -> list N -> list N)
    (JSON_stringify : body_value -> jsstring) (c : call) (this : OAuth)
    : OAuth :=
  match c with
  | SetToken t s => setToken t s this
  | MakeRequestForRequestToken u o e =>
      snd (makeRequestForRequestToken toUpperCase hmacSHA1 JSON_stringify
             u o e this)
  | GetRequestTokenParamsFrom r => snd (getRequestTokenParamsFrom r this)
  | GenerateAuthURL _ _ => this
  | MakeRequestForAccessToken u v o e =>
      snd (makeRequestForAccessToken toUpperCase hmacSHA1 JSON_stringify
             u v o e this)
  | GetAccessTokenParamsFrom r => snd (getAccessTokenParamsFrom r this)
  | MakeRequestForResource u o e =>
      snd (makeRequestForResource toUpperCase hmacSHA1 JSON_stringify
             u o e this)
  end.

(** The client after a sequence of calls, the first call first. *)
Definition after_all (toUpperCase : jsstring -> jsstring)
    (hmacSHA1 : list N -> list N -> list N)
    (JSON_stringify : body_value -> jsstring) (calls : list call)
    (this : OAuth) : OAuth :=
  fold_left (fun st c => after toUpperCase hmacSHA1 JSON_stringify c st)
            calls this.

(** The strings of a pair of values, as ToString gives them. *)
Definition pair_strings (p : param) : jsstring * jsstring :=
  let '(k, v) := p in (ToString k, ToString v).

Definition params_code_units (l : list param) : bool :=
  forallb (fun '(k, v) => code_units (ToString k) && code_units (ToString v)) l.

(** A code unit of an [Authorization] header value or of a query string:
    unreserved, [%], or one of the separators the source writes. *)
Definition header_unit (c : N) : bool := plain c || mem_lit c "=, " || (c =? dquote).

Definition query_unit (c : N) : bool := plain c || mem_lit c "=&".

Definition is_lower_hex (c : N) : bool := in_range 48 57 c || in_range 97 102 c.

(** The pair that [#getCredentials] appends to the OAuth parameters. *)
Definition signature_pair (signature : jsstring) : param :=
  (VString (lit "oauth_signature"), VString signature).

(** What the URL-encoded parser makes of a name and a value already split
    at [&] and [=]. *)
Definition decode_pair (p : jsstring * jsstring) : jsstring * jsstring :=
  let '(k, v) := p in
  (utf8_decode_without_BOM (percent_decode (plus_to_space k)),
   utf8_decode_without_BOM (percent_decode (plus_to_space v))).

(** A pair of percent-encoded strings. *)
Definition plain_pair (p : jsstring * jsstring) : Prop :=
  forallb plain (fst p) = true /\ forallb plain (snd p) = true.

(** A pair as [buildQuery] writes it. *)
Definition render_pair (p : jsstring * jsstring) : jsstring :=
  let '(k, v) := p in k ++ lit "=" ++ v.

(** A pair with ToString applied to both sides. *)
Definition as_strings (p : param) : param :=
  let '(k, v) := pair_strings p in (VString k, VString v).

(** A pair as [#getCredentials] writes it. *)
Definition render_credential (p : jsstring * jsstring) : jsstring :=
  let '(k, v) := p in k ++ lit "=" ++ [dquote] ++ v ++ [dquote].

(** The options with another body value. *)
Definition with_body (o : options) (b : body_value) : options :=
  {| method := method o; params := params o; oAuthParams := oAuthParams o;
     contentType := contentType o; bodyValue := b;
     callbackURL := callbackURL o |}.

(** A POST with a form body, as in the README. *)
Definition form_post : options :=
  {| method := Some (lit "POST"); params := None; oAuthParams := None;
     contentType := None;
     bodyValue := BodyParams [(VString (lit "key foo"), VString (lit "a&b"))];
     callbackURL := None |}.



(* ================================================================== *)
(** ** Proof automation *)

(** Comparisons on code units, turned into arithmetic facts. *)
Ltac cmp_step :=
  match goal with
  | |- context [?a <? ?b] => destruct (N.ltb_spec a b)
  | |- context [?a <=? ?b] => destruct (N.leb_spec a b)
  | |- context [?a =? ?b] => destruct (N.eqb_spec a b)
  | H : context [?a <? ?b] |- _ => destruct (N.ltb_spec a b)
  | H : context [?a <=? ?b] |- _ => destruct (N.leb_spec a b)
  | H : context [?a =? ?b] |- _ => destruct (N.eqb_spec a b)
  end.

Ltac cmp_cases :=
  unfold is_alnum, is_leading_surrogate, is_trailing_surrogate,
    is_continuation, is_hex_digit in *;
  unfold in_range in *;
  repeat (cmp_step; cbn [orb andb negb] in *; cbv iota in *);
  try discriminate; try reflexivity; try lia.

(** Euclidean division by a constant, for [lia]. *)
Ltac Zify.zify_post_hook ::= Z.to_euclidean_division_equations.

(* ================================================================== *)
(** * Properties *)

(** ** Sample runs *)

Example encode_sample :
  encodeURIComponentRFC3986 (VString (lit "a b*c/~'"))
  = Ok (lit "a%20b%2ac%2F~%27").
Proof. reflexivity. Qed.

Example encode_astral :
  encodeURIComponentRFC3986 (VString [0xD83D; 0xDE00; 0xE9])
  = Ok (lit "%F0%9F%98%80%C3%A9").
Proof. reflexivity. Qed.

Example encode_null : encodeURIComponentRFC3986 VNull = Ok (lit "null").
Proof. reflexivity. Qed.

Example decode_sample :
  decodeURIComponent (lit "a%20b%2ac%2F~%27") = Ok (lit "a b*c/~'").
Proof. reflexivity. Qed.

Example decode_overlong : decodeURIComponent (lit "%C0%80") = Throw URIError.
Proof. reflexivity. Qed.

Example decode_surrogate : decodeURIComponent (lit "%ED%A0%80") = Throw URIError.
Proof. reflexivity. Qed.

Example URLSearchParams_sample :
  URLSearchParams (lit "?oauth_token=T&oauth_token_secret=S%2b+x&&a")
  = [(lit "oauth_token", lit "T"); (lit "oauth_token_secret", lit "S+ x");
     (lit "a", [])].
Proof. reflexivity. Qed.

Example URLSearchParams_malformed :
  URLSearchParams (lit "a=%E2%82%AC%ff=%4")
  = [(lit "a", [0x20AC; 0xFFFD] ++ lit "=%4")].
Proof. reflexivity. Qed.

Example encodeBase64_sample :
  encodeBase64 (lit "foobarfo") = lit "Zm9vYmFyZm8=".
Proof. reflexivity. Qed.

Example getNonce_sample :
  getNonce sample_env = lit "000102030405060708090a0b0c0d0eff".
Proof. reflexivity. Qed.

Example getTimestamp_sample : getTimestamp sample_env = 1700000000%Z.
Proof. reflexivity. Qed.

Example paramsString_sample :
  paramsString [(VString (lit "b"), VString (lit "2"));
                (VString (lit "a"), VString (lit "x y"))]
               [(VString (lit "a"), VString (lit "1"))] []
  = Ok (lit "a=1&a=x%20y&b=2").
Proof. reflexivity. Qed.

(** Appendix A.5.1 of OAuth Core 1.0a: the base string and the key. *)
Example photos_baseString :
  (ps <- paramsString photos_params photos_oAuthParams [] ;;
   baseString ascii_toUpperCase (lit "GET")
     (lit "http://photos.example.net/photos") ps)
  = Ok (lit "GET&http%3A%2F%2Fphotos.example.net%2Fphotos&file%3Dvacation.jpg%26oauth_consumer_key%3Ddpf43f3p2l4k3l03%26oauth_nonce%3Dkllo9940pd9333jh%26oauth_signature_method%3DHMAC-SHA1%26oauth_timestamp%3D1191242096%26oauth_token%3Dnnch734d00sl2jdk%26oauth_version%3D1.0%26size%3Doriginal").
Proof. vm_compute. reflexivity. Qed.

Example photos_keyString :
  keyString (VString (lit "kd94hf93k423kf44"))
            (VString (lit "pfkkd#hi9_sl-3r=4s00"))
  = Ok (lit "kd94hf93k423kf44&pfkkd%23hi9_sl-3r%3D4s00").
Proof. reflexivity. Qed.

Example baseString_sample :
  baseString ascii_toUpperCase (lit "get") (lit "http://example.com/r")
    (lit "a=1&b=2")
  = Ok (lit "GET&http%3A%2F%2Fexample.com%2Fr&a%3D1%26b%3D2").
Proof. reflexivity. Qed.


(** ** The error monad *)

Lemma bind_Ok_inv {A B} (r : result A) (k : A -> result B) (b : B) :
  bind r k = Ok b -> exists a, r = Ok a /\ k a = Ok b.
Proof. destruct r as [a|e]; simpl; [eauto | discriminate]. Qed.

Lemma bind_Throw_inv {A B} (r : result A) (k : A -> result B) (e : exn) :
  bind r k = Throw e -> r = Throw e \/ exists a, r = Ok a /\ k a = Throw e.
Proof. destruct r as [a|e']; simpl; [eauto | intros [= ->]; auto]. Qed.

(** Induction on a string that is read one or two code units at a time. *)
Lemma list_ind_pairs {A} (P : list A -> Prop) :
  P [] ->
  (forall c s, P s -> (forall d s', s = d :: s' -> P s') -> P (c :: s)) ->
  forall s, P s.
Proof.
  intros Hnil Hcons s.
  assert (H : P s /\ (forall d s', s = d :: s' -> P s')).
  { induction s as [|a s [IH1 IH2]].
    - split; [exact Hnil | discriminate].
    - split; [apply Hcons; assumption | intros d s' [= _ <-]; exact IH1]. }
  exact (proj1 H).
Qed.

(** ** Character classes *)

Lemma sub_delims_eq c :
  sub_delims c = (c =? 33) || (c =? 39) || (c =? 40) || (c =? 41) || (c =? 42).
Proof.
  unfold sub_delims, mem_lit. simpl.
  repeat rewrite orb_false_r. repeat rewrite orb_assoc. reflexivity.
Qed.

Lemma unreserved_eq c :
  unreserved c =
  is_alnum c || ((c =? 45) || (c =? 95) || (c =? 46) || (c =? 126)).
Proof.
  unfold unreserved, mem_lit. simpl.
  repeat rewrite orb_false_r. repeat rewrite orb_assoc. reflexivity.
Qed.

Lemma uriUnescaped_eq c :
  uriUnescaped c = unreserved c || sub_delims c.
Proof.
  rewrite unreserved_eq, sub_delims_eq. unfold uriUnescaped, mem_lit. simpl.
  destruct (is_alnum c); simpl; [reflexivity|].
  destruct (c =? 95), (c =? 45), (c =? 46), (c =? 33), (c =? 126), (c =? 42),
    (c =? 39), (c =? 40), (c =? 41); reflexivity.
Qed.

Lemma sub_delims_cases c :
  sub_delims c = true -> c = 33 \/ c = 39 \/ c = 40 \/ c = 41 \/ c = 42.
Proof. rewrite sub_delims_eq. intros H. cmp_cases. Qed.

Lemma sub_delims_not_unreserved c : sub_delims c = true -> unreserved c = false.
Proof.
  intros H. destruct (sub_delims_cases c H) as [->|[->|[->|[->| ->]]]];
    reflexivity.
Qed.

Lemma unreserved_bound c : unreserved c = true -> 45 <= c <= 126 /\ c <> 47.
Proof. rewrite unreserved_eq. intros H. cmp_cases. Qed.

Lemma uriUnescaped_bound c : uriUnescaped c = true -> 33 <= c <= 126.
Proof.
  rewrite uriUnescaped_eq. intros H. apply orb_true_iff in H as [H|H].
  - apply unreserved_bound in H. lia.
  - apply sub_delims_cases in H. lia.
Qed.

(** ** The encoder, code point by code point *)

Lemma hex_digit_upper_not_sub_delims d : sub_delims (hex_digit true d) = false.
Proof. rewrite sub_delims_eq. unfold hex_digit. cmp_cases. Qed.

Lemma replace_class_app cls f s1 s2 :
  replace_class cls f (s1 ++ s2) = replace_class cls f s1 ++ replace_class cls f s2.
Proof. unfold replace_class. apply flat_map_app. Qed.

Lemma replace_escape_octets f bs :
  replace_class sub_delims f (escape_octets bs) = escape_octets bs.
Proof.
  induction bs as [|b bs IH]; [reflexivity|].
  change (escape_octets (b :: bs)) with (escape_octet b ++ escape_octets bs).
  rewrite replace_class_app, IH. f_equal.
  unfold escape_octet, replace_class. cbn [flat_map].
  rewrite !hex_digit_upper_not_sub_delims. reflexivity.
Qed.

Lemma sub_delims_escape c :
  sub_delims c = true ->
  lit "%" ++ NumberToString 16 (charCodeAt0 c) = spec_escape c.
Proof.
  intros H. destruct (sub_delims_cases c H) as [->|[->|[->|[->| ->]]]];
    reflexivity.
Qed.

Lemma spec_escape_unescaped c :
  uriUnescaped c = true ->
  (if sub_delims c then lit "%" ++ NumberToString 16 (charCodeAt0 c) else [c])
  = spec_escape c.
Proof.
  intros U. destruct (sub_delims c) eqn:S.
  - apply sub_delims_escape; assumption.
  - rewrite uriUnescaped_eq, S, orb_false_r in U.
    unfold spec_escape. rewrite U. reflexivity.
Qed.

Lemma spec_escape_escaped cp :
  uriUnescaped cp = false -> spec_escape cp = escape_octets (utf8_octets cp).
Proof.
  rewrite uriUnescaped_eq. intros U. apply orb_false_iff in U as [U S].
  unfold spec_escape. rewrite U, S. reflexivity.
Qed.

Lemma surrogate_pair_bound c d :
  is_leading_surrogate c = true -> is_trailing_surrogate d = true ->
  0x10000 <= UTF16SurrogatePairToCodePoint c d < 0x110000.
Proof. unfold UTF16SurrogatePairToCodePoint. intros Hc Hd. cmp_cases. Qed.

Lemma uriUnescaped_not_surrogate c :
  uriUnescaped c = true ->
  is_leading_surrogate c = false /\ is_trailing_surrogate c = false.
Proof. intros U. apply uriUnescaped_bound in U. split; cmp_cases. Qed.

Lemma uriUnescaped_pair c d :
  is_leading_surrogate c = true -> is_trailing_surrogate d = true ->
  uriUnescaped (UTF16SurrogatePairToCodePoint c d) = false.
Proof.
  intros Hc Hd. pose proof (surrogate_pair_bound c d Hc Hd) as B.
  destruct (uriUnescaped _) eqn:U; [|reflexivity].
  apply uriUnescaped_bound in U. lia.
Qed.

Lemma encodeURIComponentRFC3986_spec s :
  encodeURIComponentRFC3986 (VString s) = spec_encode s.
Proof.
  unfold encodeURIComponentRFC3986, encodeURIComponentRFC2396,
    encodeURIComponent, spec_encode, ToString.
  set (f := fun char : N => lit "%" ++ NumberToString 16 (charCodeAt0 char)).
  induction s as [|c s IH1 IH2] using list_ind_pairs; [reflexivity|].
  simpl Encode. simpl to_code_points.
  destruct (uriUnescaped c) eqn:U.
  - destruct (uriUnescaped_not_surrogate c U) as [-> ->].
    destruct (Encode uriUnescaped s) as [r|e], (to_code_points s) as [cps|e'];
      cbn [bind] in IH1 |- *; try discriminate IH1; [|assumption].
    injection IH1 as IH1. f_equal.
    change (c :: r) with ([c] ++ r). rewrite replace_class_app, IH1.
    cbn [flat_map]. f_equal.
    unfold replace_class. cbn [flat_map]. rewrite app_nil_r.
    subst f. apply spec_escape_unescaped; assumption.
  - destruct (is_trailing_surrogate c); [reflexivity|].
    destruct (is_leading_surrogate c) eqn:L.
    + destruct s as [|d s']; [reflexivity|].
      destruct (is_trailing_surrogate d) eqn:T; [|reflexivity].
      specialize (IH2 d s' eq_refl).
      destruct (Encode uriUnescaped s') as [r|e], (to_code_points s') as [cps|e'];
        cbn [bind] in IH2 |- *; try discriminate IH2; [|assumption].
      injection IH2 as IH2. f_equal.
      rewrite replace_class_app, replace_escape_octets, IH2. cbn [flat_map].
      rewrite spec_escape_escaped by (apply uriUnescaped_pair; assumption).
      reflexivity.
    + destruct (Encode uriUnescaped s) as [r|e], (to_code_points s) as [cps|e'];
        cbn [bind] in IH1 |- *; try discriminate IH1; [|assumption].
      injection IH1 as IH1. f_equal.
      rewrite replace_class_app, replace_escape_octets, IH1. cbn [flat_map].
      rewrite spec_escape_escaped by assumption. reflexivity.
Qed.

Lemma encodePercent_spec v : encodePercent v = spec_encode (ToString v).
Proof. exact (encodeURIComponentRFC3986_spec (ToString v)). Qed.

(** ** Which code units the encoder emits *)

Lemma hex_digit_plain up d : d < 16 -> plain (hex_digit up d) = true.
Proof.
  intros H. unfold plain. rewrite unreserved_eq. unfold hex_digit.
  destruct up; cmp_cases.
Qed.

Lemma hex_digit_is_hex up d : d < 16 -> is_hex_digit (hex_digit up d) = true.
Proof. intros H. unfold hex_digit. destruct up; cmp_cases. Qed.

Lemma utf8_octets_bound cp : Forall (fun b => b < 256) (utf8_octets cp).
Proof.
  unfold utf8_octets.
  repeat (cmp_step; cbv iota);
    repeat (apply Forall_cons; [lia|]); apply Forall_nil.
Qed.

Lemma escape_octets_plain bs :
  Forall (fun b => b < 256) bs -> forallb plain (escape_octets bs) = true.
Proof.
  induction 1 as [|b bs Hb _ IH]; [reflexivity|].
  change (escape_octets (b :: bs)) with (escape_octet b ++ escape_octets bs).
  rewrite forallb_app, IH, andb_true_r. unfold escape_octet. cbn [forallb].
  rewrite !hex_digit_plain by lia. reflexivity.
Qed.

Lemma spec_escape_plain cp : forallb plain (spec_escape cp) = true.
Proof.
  unfold spec_escape. destruct (unreserved cp) eqn:U.
  - cbn [forallb]. unfold plain. rewrite U. reflexivity.
  - destruct (sub_delims cp) eqn:S.
    + destruct (sub_delims_cases cp S) as [->|[->|[->|[->| ->]]]]; reflexivity.
    + apply escape_octets_plain, utf8_octets_bound.
Qed.

Lemma forallb_flat_map {A B} (p : B -> bool) (f : A -> list B) l :
  (forall a, In a l -> forallb p (f a) = true) ->
  forallb p (flat_map f l) = true.
Proof.
  induction l as [|a l IH]; intros H; [reflexivity|].
  cbn [flat_map]. rewrite forallb_app, H by (left; reflexivity).
  apply IH. intros b Hb. apply H. right. exact Hb.
Qed.

Lemma spec_encode_plain s r : spec_encode s = Ok r -> forallb plain r = true.
Proof.
  unfold spec_encode. intros H. apply bind_Ok_inv in H as (cps & _ & [= <-]).
  apply forallb_flat_map. intros cp _. apply spec_escape_plain.
Qed.

Lemma encodePercent_plain v r : encodePercent v = Ok r -> forallb plain r = true.
Proof. rewrite encodePercent_spec. apply spec_encode_plain. Qed.

Lemma plain_not_In c r : plain c = false -> forallb plain r = true -> ~ In c r.
Proof.
  intros Hc Hr Hin. rewrite forallb_forall in Hr. rewrite (Hr c Hin) in Hc.
  discriminate.
Qed.

Lemma plain_count_occ c r :
  plain c = false -> forallb plain r = true -> count_occ N.eq_dec r c = 0%nat.
Proof. intros Hc Hr. apply count_occ_not_In. eapply plain_not_In; eassumption. Qed.

(** ** When the encoder throws *)

Lemma to_code_points_Throw s e : to_code_points s = Throw e -> e = URIError.
Proof.
  induction s as [|c s IH1 IH2] using list_ind_pairs; [discriminate|].
  simpl. destruct (is_trailing_surrogate c); [intros [= <-]; reflexivity|].
  destruct (is_leading_surrogate c).
  - destruct s as [|d s']; [intros [= <-]; reflexivity|].
    destruct (is_trailing_surrogate d); [|intros [= <-]; reflexivity].
    specialize (IH2 d s' eq_refl).
    destruct (to_code_points s'); [discriminate|]. intros [= <-]. auto.
  - destruct (to_code_points s); [discriminate|]. intros [= <-]. auto.
Qed.

Lemma spec_encode_Throw s e :
  spec_encode s = Throw e -> e = URIError /\ isWellFormed s = false.
Proof.
  unfold spec_encode, isWellFormed. destruct (to_code_points s) eqn:E.
  - discriminate.
  - intros [= <-]. split; [eapply to_code_points_Throw; eassumption|reflexivity].
Qed.

Lemma spec_encode_total s :
  isWellFormed s = true -> exists r, spec_encode s = Ok r.
Proof.
  unfold spec_encode, isWellFormed. destruct (to_code_points s); [|discriminate].
  intros _. eexists. reflexivity.
Qed.

Lemma encodePercent_Throw v e :
  encodePercent v = Throw e -> e = URIError /\ value_wf v = false.
Proof. rewrite encodePercent_spec. apply spec_encode_Throw. Qed.

Lemma encodePercent_total v :
  value_wf v = true -> exists r, encodePercent v = Ok r.
Proof. rewrite encodePercent_spec. apply spec_encode_total. Qed.

Lemma encodePercent_Ok_wf v r : encodePercent v = Ok r -> value_wf v = true.
Proof.
  rewrite encodePercent_spec. unfold spec_encode, value_wf, isWellFormed.
  destruct (to_code_points _); [reflexivity|discriminate].
Qed.

(** ** Decoding what the encoder wrote *)

Lemma to_code_points_scalar s cps :
  code_units s = true -> to_code_points s = Ok cps ->
  Forall scalar cps /\ flat_map UTF16EncodeCodePoint cps = s.
Proof.
  revert cps. induction s as [|c s IH1 IH2] using list_ind_pairs; intros cps R.
  - intros [= <-]. split; [constructor|reflexivity].
  - simpl in R. apply andb_true_iff in R as [Rc Rs]. simpl.
    destruct (is_trailing_surrogate c) eqn:T; [discriminate|].
    destruct (is_leading_surrogate c) eqn:L.
    + destruct s as [|d s']; [discriminate|].
      destruct (is_trailing_surrogate d) eqn:T'; [|discriminate].
      intros H. apply bind_Ok_inv in H as (r & Hr & [= <-]).
      simpl in Rs. apply andb_true_iff in Rs as [Rd Rs].
      destruct (IH2 d s' eq_refl r Rs Hr) as [F E]. split.
      * constructor; [|exact F].
        pose proof (surrogate_pair_bound c d L T') as B.
        split; [lia|]. cmp_cases.
      * cbn [flat_map]. rewrite E.
        pose proof (surrogate_pair_bound c d L T') as B.
        unfold UTF16EncodeCodePoint.
        destruct (N.leb_spec (UTF16SurrogatePairToCodePoint c d) 0xFFFF); [lia|].
        unfold UTF16SurrogatePairToCodePoint in *. cbn [app]. f_equal.
        -- clear - L T'. cmp_cases.
        -- f_equal. clear - L T'. cmp_cases.
    + intros H. apply bind_Ok_inv in H as (r & Hr & [= <-]).
      destruct (IH1 r Rs Hr) as [F E]. split.
      * constructor; [|exact F]. split; clear - Rc T L; cmp_cases.
      * cbn [flat_map]. rewrite E. unfold UTF16EncodeCodePoint.
        clear - Rc. cmp_cases.
Qed.

Lemma hex_value_digit up d : d < 16 -> hex_value (hex_digit up d) = Some d.
Proof.
  intros H. unfold hex_value, hex_digit.
  destruct up; cmp_cases; f_equal; lia.
Qed.

Lemma parse_escape_octet b rest :
  b < 256 -> parse_escape (escape_octet b ++ rest) = Ok (b, rest).
Proof.
  intros H. unfold escape_octet. cbn [app parse_escape].
  rewrite !hex_value_digit by lia. f_equal. f_equal. lia.
Qed.

Lemma parse_escapes_octets bs rest :
  Forall (fun b => b < 256) bs ->
  parse_escapes (List.length bs) (escape_octets bs ++ rest) = Ok (bs, rest).
Proof.
  induction 1 as [|b bs Hb _ IH]; [reflexivity|].
  change (escape_octets (b :: bs)) with (escape_octet b ++ escape_octets bs).
  rewrite <- app_assoc. cbn [List.length parse_escapes].
  rewrite parse_escape_octet by exact Hb. cbn [bind]. rewrite IH. reflexivity.
Qed.

Lemma Decode_escape_eq fuel t :
  Decode (S fuel) (37 :: t) =
  '(b, s1) <- parse_escape (37 :: t) ;;
  match leading_ones b with
  | O => r <- Decode fuel s1 ;; Ok (b :: r)
  | S O => Throw URIError
  | S (S (S (S (S _)))) => Throw URIError
  | S n' =>
      '(bs, s2) <- parse_escapes n' s1 ;;
      match utf8_code_point (b :: bs) with
      | None => Throw URIError
      | Some cp => r <- Decode fuel s2 ;; Ok (UTF16EncodeCodePoint cp ++ r)
      end
  end.
Proof. reflexivity. Qed.

Lemma Decode_plain_eq fuel c t :
  c <> 37 -> Decode (S fuel) (c :: t) = r <- Decode fuel t ;; Ok (c :: r).
Proof.
  intros H. cbn [Decode]. destruct (N.eqb_spec c 37); [contradiction|].
  reflexivity.
Qed.

Lemma Decode_ascii_escape fuel b rest :
  b < 0x80 ->
  Decode (S fuel) (escape_octet b ++ rest) = r <- Decode fuel rest ;; Ok (b :: r).
Proof.
  intros H. change (escape_octet b ++ rest) with (37 :: tl (escape_octet b ++ rest)).
  rewrite Decode_escape_eq.
  change (37 :: tl (escape_octet b ++ rest)) with (escape_octet b ++ rest).
  rewrite parse_escape_octet by lia. cbn [bind].
  unfold leading_ones. destruct (N.ltb_spec b 0x80); [reflexivity|lia].
Qed.

Lemma Decode_multi_escape fuel b bs rest cp :
  Forall (fun x => x < 256) (b :: bs) ->
  leading_ones b = S (List.length bs) ->
  (1 <= List.length bs <= 3)%nat ->
  utf8_code_point (b :: bs) = Some cp ->
  Decode (S fuel) (escape_octets (b :: bs) ++ rest) =
  r <- Decode fuel rest ;; Ok (UTF16EncodeCodePoint cp ++ r).
Proof.
  intros F L B U. inversion F as [|? ? Fb Fbs]; subst.
  change (escape_octets (b :: bs)) with (escape_octet b ++ escape_octets bs).
  rewrite <- app_assoc.
  change (escape_octet b ++ escape_octets bs ++ rest)
    with (37 :: tl (escape_octet b ++ escape_octets bs ++ rest)).
  rewrite Decode_escape_eq.
  change (37 :: tl (escape_octet b ++ escape_octets bs ++ rest))
    with (escape_octet b ++ escape_octets bs ++ rest).
  rewrite parse_escape_octet by exact Fb. cbn [bind]. rewrite L.
  pose proof (parse_escapes_octets bs rest Fbs) as P.
  destruct bs as [|b1 [|b2 [|b3 [|b4 bs]]]]; cbn [List.length] in *; try lia;
    rewrite P; cbn [bind]; rewrite U; reflexivity.
Qed.

Lemma utf8_octets_multi cp :
  scalar cp -> 0x80 <= cp ->
  exists b bs,
    utf8_octets cp = b :: bs /\
    leading_ones b = S (List.length bs) /\
    (1 <= List.length bs <= 3)%nat /\
    utf8_code_point (b :: bs) = Some cp.
Proof.
  intros [Hmax Hsur] Hmin. unfold utf8_octets.
  destruct (N.ltb_spec cp 0x80); [lia|].
  destruct (N.ltb_spec cp 0x800); [|destruct (N.ltb_spec cp 0x10000)].
  - eexists _, _. split; [reflexivity|]. split; [|split; [simpl; lia|]].
    + unfold leading_ones. cbn [List.length].
      repeat (cmp_step; cbv iota); try reflexivity; lia.
    + unfold utf8_code_point.
      replace ((0xC0 + cp / 64) mod 32 * 64 + (0x80 + cp mod 64) mod 64)
        with cp by lia.
      unfold is_continuation, in_range.
      repeat (cmp_step; cbn [andb negb]; cbv iota); try reflexivity; lia.
  - eexists _, _. split; [reflexivity|]. split; [|split; [simpl; lia|]].
    + unfold leading_ones. cbn [List.length].
      repeat (cmp_step; cbv iota); try reflexivity; lia.
    + unfold utf8_code_point.
      replace ((0xE0 + cp / 4096) mod 16 * 4096
               + (0x80 + (cp / 64) mod 64) mod 64 * 64
               + (0x80 + cp mod 64) mod 64)
        with cp by lia.
      rewrite Hsur. unfold is_continuation, in_range.
      repeat (cmp_step; cbn [andb negb]; cbv iota); try reflexivity; lia.
  - eexists _, _. split; [reflexivity|]. split; [|split; [simpl; lia|]].
    + unfold leading_ones. cbn [List.length].
      repeat (cmp_step; cbv iota); try reflexivity; lia.
    + unfold utf8_code_point.
      replace ((0xF0 + (cp / 262144) mod 8) mod 8 * 262144
               + (0x80 + (cp / 4096) mod 64) mod 64 * 4096
               + (0x80 + (cp / 64) mod 64) mod 64 * 64
               + (0x80 + cp mod 64) mod 64)
        with cp by lia.
      unfold is_continuation, in_range.
      repeat (cmp_step; cbn [andb negb]; cbv iota); try reflexivity; lia.
Qed.

Lemma Decode_spec_escape fuel cp rest :
  scalar cp ->
  Decode (S fuel) (spec_escape cp ++ rest) =
  r <- Decode fuel rest ;; Ok (UTF16EncodeCodePoint cp ++ r).
Proof.
  intros Hs. unfold spec_escape. destruct (unreserved cp) eqn:U.
  - apply unreserved_bound in U. cbn [app].
    rewrite Decode_plain_eq by lia. unfold UTF16EncodeCodePoint.
    destruct (N.leb_spec cp 0xFFFF); [reflexivity|lia].
  - destruct (sub_delims cp) eqn:S.
    + destruct (sub_delims_cases cp S) as [->|[->|[->|[->| ->]]]]; reflexivity.
    + destruct (N.ltb_spec cp 0x80) as [Hlt|Hge].
      * unfold utf8_octets. destruct (N.ltb_spec cp 0x80); [|lia].
        unfold escape_octets. cbn [flat_map]. rewrite app_nil_r.
        rewrite Decode_ascii_escape by assumption.
        unfold UTF16EncodeCodePoint.
        destruct (N.leb_spec cp 0xFFFF); [reflexivity|lia].
      * destruct (utf8_octets_multi cp Hs Hge) as (b & bs & E & L & B & C).
        pose proof (utf8_octets_bound cp) as F. rewrite E in F |- *.
        apply Decode_multi_escape; assumption.
Qed.

Lemma spec_escape_nonempty cp : spec_escape cp <> [].
Proof.
  unfold spec_escape. destruct (unreserved cp); [discriminate|].
  destruct (sub_delims cp); [discriminate|].
  unfold utf8_octets. repeat (cmp_step; cbv iota); discriminate.
Qed.

Lemma Decode_flat_map cps :
  Forall scalar cps ->
  forall fuel,
    (List.length (flat_map spec_escape cps) <= fuel)%nat ->
    Decode fuel (flat_map spec_escape cps)
    = Ok (flat_map UTF16EncodeCodePoint cps).
Proof.
  induction 1 as [|cp cps Hcp _ IH]; intros fuel Hfuel.
  - destruct fuel; reflexivity.
  - cbn [flat_map] in *. rewrite length_app in Hfuel.
    pose proof (spec_escape_nonempty cp) as Hne.
    destruct fuel as [|fuel].
    { destruct (spec_escape cp); [contradiction|simpl in Hfuel; lia]. }
    rewrite Decode_spec_escape by exact Hcp.
    rewrite IH; [reflexivity|].
    destruct (spec_escape cp); [contradiction|simpl in Hfuel; lia].
Qed.

Lemma decode_encode_wf s :
  code_units s = true -> isWellFormed s = true ->
  exists e, encodeURIComponentRFC3986 (VString s) = Ok e
            /\ decodeURIComponent e = Ok s.
Proof.
  intros R W. rewrite encodeURIComponentRFC3986_spec.
  unfold spec_encode, isWellFormed in *.
  destruct (to_code_points s) as [cps|] eqn:E; [|discriminate].
  destruct (to_code_points_scalar s cps R E) as [F Hs].
  eexists. split; [reflexivity|]. unfold decodeURIComponent.
  rewrite Decode_flat_map by (exact F || apply Nat.le_refl). rewrite Hs.
  reflexivity.
Qed.

Lemma spec_escape_hex cp :
  unreserved cp = false ->
  hd_error (spec_escape cp) = Some 37
  /\ forallb (fun c => (c =? 37) || is_hex_digit c) (spec_escape cp) = true.
Proof.
  intros U. unfold spec_escape. rewrite U. destruct (sub_delims cp) eqn:S.
  - destruct (sub_delims_cases cp S) as [->|[->|[->|[->| ->]]]];
      split; reflexivity.
  - pose proof (utf8_octets_bound cp) as F. split.
    + unfold utf8_octets. repeat (cmp_step; cbv iota); reflexivity.
    + induction F as [|b bs Hb _ IH]; [reflexivity|].
      change (escape_octets (b :: bs)) with (escape_octet b ++ escape_octets bs).
      rewrite forallb_app, IH, andb_true_r. unfold escape_octet.
      cbn [forallb]. rewrite !hex_digit_is_hex by lia.
      rewrite !orb_true_r. reflexivity.
Qed.

(** C4: the encoder of src/encoding/uri.js is the code-point-wise
    encoding [spec_encode]: an unreserved character (A-Z a-z 0-9 - _ . ~)
    stands for itself, every other code point is replaced by escapes made
    of [%] and hex digits, and ! ' ( ) * become %21 %27 %28 %29 %2a with
    lower-case digits, although [encodeURIComponent] leaves these five as
    they are.  Every code unit of an output is unreserved or [%]. *)
Theorem C4_unreserved_kept_others_escaped :
  (forall s, encodeURIComponentRFC3986 (VString s) = spec_encode s)
  /\ (forall cp, unreserved cp = true -> spec_escape cp = [cp])
  /\ (forall cp, unreserved cp = false ->
        hd_error (spec_escape cp) = Some 37
        /\ forallb (fun c => (c =? 37) || is_hex_digit c) (spec_escape cp)
           = true)
  /\ (forall s r,
        encodeURIComponentRFC3986 (VString s) = Ok r ->
        forallb (fun c => unreserved c || (c =? 37)) r = true)
  /\ map spec_escape (lit "!'()*")
     = [lit "%21"; lit "%27"; lit "%28"; lit "%29"; lit "%2a"]
  /\ encodeURIComponentRFC3986 (VString (lit "!'()*"))
     = Ok (lit "%21%27%28%29%2a")
  /\ encodeURIComponent (VString (lit "!'()*")) = Ok (lit "!'()*").
Proof.
  split; [exact encodeURIComponentRFC3986_spec|].
  split; [intros cp U; unfold spec_escape; rewrite U; reflexivity|].
  split; [exact spec_escape_hex|].
  split; [|repeat split; reflexivity].
  intros s r H. rewrite encodeURIComponentRFC3986_spec in H.
  exact (spec_encode_plain s r H).
Qed.

Lemma C4_witness :
  spec_escape 126 = [126]
  /\ hd_error (spec_escape 0x20AC) = Some 37
  /\ forallb (fun c => unreserved c || (c =? 37)) (lit "a%20b%2ac%2F~%27") = true.
Proof.
  destruct C4_unreserved_kept_others_escaped as (_ & Hkeep & Hesc & Hout & _).
  split; [apply Hkeep; reflexivity|].
  split; [apply Hesc; reflexivity|].
  apply (Hout (lit "a b*c/~'")); reflexivity.
Defined.

(** C5, as stated, fails: the string made of the single unpaired
    surrogate U+D800 is a string, and encoding it throws [URIError], so
    there is nothing to decode. *)
Lemma C5_counterexample :
  code_units [0xD800] = true
  /\ encodeURIComponentRFC3986 (VString [0xD800]) = Throw URIError
  /\ ~ (forall s, code_units s = true ->
          exists e, encodeURIComponentRFC3986 (VString s) = Ok e
                    /\ decodeURIComponent e = Ok s).
Proof.
  split; [reflexivity|]. split; [reflexivity|].
  intros H. destruct (H [0xD800] eq_refl) as (e & He & _). discriminate He.
Qed.

(** C5, amended: on every string without an unpaired surrogate the
    encoder returns, and percent-decoding its output gives the string
    back; on a string with an unpaired surrogate it throws [URIError]. *)
Theorem C5_decode_encode_well_formed (s : jsstring) :
  code_units s = true ->
  (isWellFormed s = true ->
     exists e, encodeURIComponentRFC3986 (VString s) = Ok e
               /\ decodeURIComponent e = Ok s)
  /\ (isWellFormed s = false ->
        encodeURIComponentRFC3986 (VString s) = Throw URIError).
Proof.
  intros R. split; [apply decode_encode_wf; exact R|].
  intros W. rewrite encodeURIComponentRFC3986_spec.
  destruct (spec_encode s) as [r|e] eqn:E.
  - unfold spec_encode, isWellFormed in *.
    destruct (to_code_points s); discriminate.
  - apply spec_encode_Throw in E as [-> _]. reflexivity.
Qed.

Lemma C5_witness :
  exists e, encodeURIComponentRFC3986 (VString [0x61; 0x20; 0xD83D; 0xDE00; 0x2A])
            = Ok e
            /\ decodeURIComponent e = Ok [0x61; 0x20; 0xD83D; 0xDE00; 0x2A].
Proof.
  apply (C5_decode_encode_well_formed [0x61; 0x20; 0xD83D; 0xDE00; 0x2A]);
    reflexivity.
Defined.

(** ** The comparator of [#getSignature] is a total order *)

Lemma str_ltb_irrefl a : str_ltb a a = false.
Proof.
  induction a as [|x a IH]; [reflexivity|]. simpl.
  destruct (N.ltb_spec x x); [lia|exact IH].
Qed.

Lemma str_ltb_trans a b c :
  str_ltb a b = true -> str_ltb b c = true -> str_ltb a c = true.
Proof.
  revert b c. induction a as [|x a IH]; intros [|y b] [|z c]; simpl;
    try discriminate; try reflexivity.
  destruct (N.ltb_spec x y), (N.ltb_spec y z), (N.ltb_spec x z);
    try reflexivity; try lia;
    destruct (N.ltb_spec y x), (N.ltb_spec z y), (N.ltb_spec z x);
    try discriminate; try lia.
  apply IH.
Qed.

Lemma str_ltb_connex a b : str_ltb a b = false -> str_ltb b a = false -> a = b.
Proof.
  revert b. induction a as [|x a IH]; intros [|y b]; simpl;
    try discriminate; try reflexivity.
  destruct (N.ltb_spec x y); [discriminate|].
  destruct (N.ltb_spec y x); [discriminate|].
  intros H1 H2. f_equal; [lia|apply IH; assumption].
Qed.

Lemma str_ltb_asym a b : str_ltb a b = true -> str_ltb b a = false.
Proof.
  intros H. destruct (str_ltb b a) eqn:E; [|reflexivity].
  rewrite <- (str_ltb_irrefl a). symmetry.
  eapply str_ltb_trans; eassumption.
Qed.

(** The comparator returns 0 on equal pairs only: duplicates compare
    equal, and nothing else does. *)
Lemma compare_params_eq_iff a b : compare_params a b = 0%Z <-> a = b.
Proof.
  destruct a as [ak av], b as [bk bv]. unfold compare_params. split.
  - destruct (str_ltb ak bk) eqn:E1; [discriminate|].
    destruct (str_ltb bk ak) eqn:E2; [discriminate|].
    destruct (str_ltb av bv) eqn:E3; [discriminate|].
    destruct (str_ltb bv av) eqn:E4; [discriminate|].
    intros _. f_equal; apply str_ltb_connex; assumption.
  - intros [= -> ->]. rewrite !str_ltb_irrefl. reflexivity.
Qed.

Lemma compare_params_antisym_sign a b :
  compare_params a b = (- compare_params b a)%Z.
Proof.
  destruct a as [ak av], b as [bk bv]. unfold compare_params.
  destruct (str_ltb ak bk) eqn:E1.
  - rewrite (str_ltb_asym _ _ E1). reflexivity.
  - destruct (str_ltb bk ak) eqn:E2; [reflexivity|].
    destruct (str_ltb av bv) eqn:E3.
    + rewrite (str_ltb_asym _ _ E3). reflexivity.
    + destruct (str_ltb bv av); reflexivity.
Qed.

Lemma params_le_total a b : params_le a b \/ params_le b a.
Proof.
  unfold params_le. rewrite (compare_params_antisym_sign b a). lia.
Qed.

Lemma params_le_antisym a b : params_le a b -> params_le b a -> a = b.
Proof.
  unfold params_le. rewrite (compare_params_antisym_sign b a). intros H1 H2.
  apply compare_params_eq_iff. lia.
Qed.

Lemma params_le_trans a b c : params_le a b -> params_le b c -> params_le a c.
Proof.
  destruct a as [ak av], b as [bk bv], c as [ck cv].
  unfold params_le, compare_params.
  destruct (str_ltb ak bk) eqn:Kab.
  - intros _. destruct (str_ltb bk ck) eqn:Kbc.
    + intros _. rewrite (str_ltb_trans _ _ _ Kab Kbc). lia.
    + destruct (str_ltb ck bk) eqn:Kcb; [lia|].
      rewrite (str_ltb_connex _ _ Kbc Kcb) in Kab. rewrite Kab. lia.
  - destruct (str_ltb bk ak) eqn:Kba; [lia|].
    rewrite (str_ltb_connex _ _ Kab Kba).
    destruct (str_ltb av bv) eqn:Vab.
    + intros _. destruct (str_ltb bk ck); [lia|].
      destruct (str_ltb ck bk); [lia|].
      destruct (str_ltb bv cv) eqn:Vbc.
      * rewrite (str_ltb_trans _ _ _ Vab Vbc). lia.
      * destruct (str_ltb cv bv) eqn:Vcb; [lia|].
        rewrite (str_ltb_connex _ _ Vbc Vcb) in Vab. rewrite Vab. lia.
    + destruct (str_ltb bv av) eqn:Vba; [lia|].
      rewrite (str_ltb_connex _ _ Vab Vba). intros _. exact (fun H => H).
Qed.

(** ** Sorting: the result is the one sorted arrangement of the input *)

Section SortUnique.

Context {A : Type} (comparefn : A -> A -> Z).

Let le (a b : A) : Prop := (comparefn a b <= 0)%Z.

Hypothesis le_total : forall a b, le a b \/ le b a.
Hypothesis le_antisym : forall a b, le a b -> le b a -> a = b.
Hypothesis le_trans : forall a b c, le a b -> le b c -> le a c.

Lemma sort_insert_perm x l : Permutation (sort_insert comparefn x l) (x :: l).
Proof.
  induction l as [|y l IH]; [reflexivity|]. simpl.
  destruct (0 <? comparefn x y)%Z; [|reflexivity].
  rewrite IH. apply perm_swap.
Qed.

Lemma sort_perm l : Permutation (sort comparefn l) l.
Proof.
  induction l as [|x l IH]; [reflexivity|]. simpl.
  rewrite sort_insert_perm. apply perm_skip. exact IH.
Qed.

Lemma sort_insert_sorted x l :
  StronglySorted le l -> StronglySorted le (sort_insert comparefn x l).
Proof.
  induction 1 as [|y l Hs IH Hy]; simpl.
  - constructor; constructor.
  - destruct (Z.ltb_spec 0 (comparefn x y)) as [Hgt|Hle].
    + constructor; [exact IH|].
      rewrite Forall_forall in *. intros z Hz.
      apply (Permutation_in _ (sort_insert_perm x l)) in Hz.
      destruct Hz as [<-|Hz]; [|apply Hy; exact Hz].
      destruct (le_total y x) as [H|H]; [exact H|unfold le in H; lia].
    + constructor; [constructor; assumption|].
      constructor; [exact Hle|].
      rewrite Forall_forall in *. intros z Hz.
      eapply le_trans; [exact Hle|apply Hy; exact Hz].
Qed.

Lemma sort_sorted l : StronglySorted le (sort comparefn l).
Proof.
  induction l as [|x l IH]; [constructor|]. simpl.
  apply sort_insert_sorted. exact IH.
Qed.

Lemma sorted_perm_eq l1 l2 :
  StronglySorted le l1 -> StronglySorted le l2 -> Permutation l1 l2 ->
  l1 = l2.
Proof.
  intros S1. revert l2. induction S1 as [|a l1 S1 IH Ha]; intros l2 S2 P.
  - apply Permutation_nil in P. symmetry. exact P.
  - destruct S2 as [|b l2 S2 Hb].
    + apply Permutation_sym, Permutation_nil in P. discriminate.
    + assert (a = b) as ->.
      { rewrite Forall_forall in Ha, Hb.
        assert (Hin1 : In a (b :: l2))
          by (apply (Permutation_in _ P); left; reflexivity).
        assert (Hin2 : In b (a :: l1))
          by (apply (Permutation_in _ (Permutation_sym P)); left; reflexivity).
        destruct Hin1 as [->|Hin1]; [reflexivity|].
        destruct Hin2 as [->|Hin2]; [reflexivity|].
        apply le_antisym; [apply Ha|apply Hb]; assumption. }
      f_equal. apply IH; [exact S2|].
      eapply Permutation_cons_inv. exact P.
Qed.

(** Whatever algorithm sorts with this comparator, it returns [sort]. *)
Lemma sort_unique l out :
  Permutation out l -> StronglySorted le out -> out = sort comparefn l.
Proof.
  intros P S. apply sorted_perm_eq; [exact S|apply sort_sorted|].
  rewrite P. symmetry. apply sort_perm.
Qed.

Lemma sort_Permutation l l' :
  Permutation l l' -> sort comparefn l = sort comparefn l'.
Proof.
  intros P. apply sort_unique; [|apply sort_sorted].
  rewrite sort_perm. exact P.
Qed.

End SortUnique.

(** ** [map] with a throwing callback *)

Lemma mapM_app {A B} (f : A -> result B) l1 l2 :
  mapM f (l1 ++ l2) = (r1 <- mapM f l1 ;; r2 <- mapM f l2 ;; Ok (r1 ++ r2)).
Proof.
  induction l1 as [|a l1 IH]; simpl.
  - destruct (mapM f l2); reflexivity.
  - destruct (f a); [|reflexivity]. simpl. rewrite IH.
    destruct (mapM f l1); [|reflexivity]. simpl.
    destruct (mapM f l2); reflexivity.
Qed.

Lemma mapM_Throw {A B} (f : A -> result B) l e :
  mapM f l = Throw e -> exists a, In a l /\ f a = Throw e.
Proof.
  induction l as [|a l IH]; [discriminate|]. simpl.
  destruct (f a) as [b|e'] eqn:E.
  - simpl. destruct (mapM f l); [discriminate|].
    intros [= <-]. destruct (IH eq_refl) as (x & Hx & Hf). eauto.
  - intros [= <-]. eauto.
Qed.

Lemma mapM_total {A B} (f : A -> result B) l :
  (forall a, In a l -> exists b, f a = Ok b) -> exists r, mapM f l = Ok r.
Proof.
  induction l as [|a l IH]; intros H; [eexists; reflexivity|].
  destruct (H a (or_introl eq_refl)) as [b Hb].
  destruct IH as [r Hr]; [intros x Hx; apply H; right; exact Hx|].
  exists (b :: r). simpl. rewrite Hb. simpl. rewrite Hr. reflexivity.
Qed.

Lemma mapM_Ok_In {A B} (f : A -> result B) l r :
  mapM f l = Ok r -> forall b, In b r -> exists a, In a l /\ f a = Ok b.
Proof.
  revert r. induction l as [|a l IH]; intros r.
  - intros [= <-] b [].
  - simpl. intros H. apply bind_Ok_inv in H as (b0 & Hb0 & H).
    apply bind_Ok_inv in H as (bs & Hbs & [= <-]).
    intros b [<-|Hb]; [eauto|].
    destruct (IH bs Hbs b Hb) as (x & Hx & Hf). eauto.
Qed.

Lemma mapM_Ok_all {A B} (f : A -> result B) l r :
  mapM f l = Ok r -> forall a, In a l -> exists b, f a = Ok b.
Proof.
  revert r. induction l as [|a l IH]; intros r H x []; subst;
    simpl in H; apply bind_Ok_inv in H as (b0 & Hb0 & H);
    apply bind_Ok_inv in H as (bs & Hbs & _); eauto.
Qed.

(** A callback that post-processes what another returns. *)
Lemma mapM_post {A B C} (f : A -> result B) (g : B -> C) l :
  mapM (fun a => b <- f a ;; Ok (g b)) l = (bs <- mapM f l ;; Ok (map g bs)).
Proof.
  induction l as [|a l IH]; [reflexivity|]. simpl.
  destruct (f a); [|reflexivity]. simpl. rewrite IH.
  destruct (mapM f l); reflexivity.
Qed.

Lemma mapM_ext {A B} (f g : A -> result B) l :
  (forall a, f a = g a) -> mapM f l = mapM g l.
Proof.
  intros H. induction l as [|a l IH]; [reflexivity|].
  simpl. rewrite H, IH. reflexivity.
Qed.

Lemma mapM_Permutation_Ok {A B} (f : A -> result B) l l' :
  Permutation l l' ->
  forall r, mapM f l = Ok r ->
  exists r', mapM f l' = Ok r' /\ Permutation r r'.
Proof.
  induction 1 as [|x l l' P IH|x y l|l l' l'' P1 IH1 P2 IH2]; intros r H.
  - exists r. split; [exact H|reflexivity].
  - simpl in H. apply bind_Ok_inv in H as (b & Hb & H).
    apply bind_Ok_inv in H as (bs & Hbs & [= <-]).
    destruct (IH bs Hbs) as (bs' & Hbs' & Pbs).
    exists (b :: bs'). simpl. rewrite Hb. simpl. rewrite Hbs'.
    split; [reflexivity|apply perm_skip; exact Pbs].
  - simpl in H. apply bind_Ok_inv in H as (b & Hb & H).
    apply bind_Ok_inv in H as (bs & H & [= <-]).
    apply bind_Ok_inv in H as (c & Hc & H).
    apply bind_Ok_inv in H as (cs & Hcs & [= <-]).
    exists (c :: b :: cs). simpl. rewrite Hc. simpl. rewrite Hb. simpl.
    rewrite Hcs. split; [reflexivity|apply perm_swap].
  - destruct (IH1 r H) as (r' & H' & P'). destruct (IH2 r' H') as (r'' & H'' & P'').
    exists r''. split; [exact H''|]. rewrite P'. exact P''.
Qed.

(** ** The canonical parameter string *)

Lemma encode_pair_Throw p e : encode_pair p = Throw e -> e = URIError.
Proof.
  destruct p as [k v]. unfold encode_pair. intros H.
  apply bind_Throw_inv in H as [H|(k' & _ & H)].
  - apply encodePercent_Throw in H. tauto.
  - apply bind_Throw_inv in H as [H|(v' & _ & H)]; [|discriminate].
    apply encodePercent_Throw in H. tauto.
Qed.

Lemma paramsString_eq params oAuthParams bodyParams :
  paramsString params oAuthParams bodyParams =
  (encoded <- mapM encode_pair (params ++ oAuthParams ++ bodyParams) ;;
   Ok (join (lit "&")
         (map (fun '(key, value) => key ++ lit "=" ++ value)
              (sort compare_params encoded)))).
Proof.
  reflexivity.
Qed.

Lemma mapM_encode_pair_Permutation l l' :
  Permutation l l' ->
  match mapM encode_pair l, mapM encode_pair l' with
  | Ok r, Ok r' => Permutation r r'
  | Throw e, Throw e' => e = e'
  | _, _ => False
  end.
Proof.
  intros P.
  destruct (mapM encode_pair l) as [r|e] eqn:E,
           (mapM encode_pair l') as [r'|e'] eqn:E'.
  - destruct (mapM_Permutation_Ok _ _ _ P r E) as (r2 & H2 & P2).
    rewrite E' in H2. injection H2 as <-. exact P2.
  - destruct (mapM_Permutation_Ok _ _ _ P r E) as (r2 & H2 & _).
    rewrite E' in H2. discriminate.
  - destruct (mapM_Permutation_Ok _ _ _ (Permutation_sym P) r' E')
      as (r2 & H2 & _).
    rewrite E in H2. discriminate.
  - apply mapM_Throw in E as (a & _ & Ha), E' as (a' & _ & Ha').
    apply encode_pair_Throw in Ha, Ha'. congruence.
Qed.



Lemma params_le_iff ak av bk bv :
  params_le (ak, av) (bk, bv) <->
  str_ltb ak bk = true \/ (ak = bk /\ str_ltb bv av = false).
Proof.
  unfold params_le, compare_params. split.
  - destruct (str_ltb ak bk) eqn:K1; [auto|].
    destruct (str_ltb bk ak) eqn:K2; [lia|].
    intros H. right. split; [apply str_ltb_connex; assumption|].
    destruct (str_ltb av bv) eqn:V1; [apply str_ltb_asym; assumption|].
    destruct (str_ltb bv av); [lia|reflexivity].
  - intros [->|[-> V]]; [lia|]. rewrite str_ltb_irrefl, V.
    destruct (str_ltb av bv); lia.
Qed.

(** The encoded pairs are joined in ascending order of the comparator. *)
Lemma paramsString_sorted encoded :
  StronglySorted params_le (sort compare_params encoded).
Proof.
  apply (sort_sorted compare_params params_le_total params_le_trans).
Qed.

(** ** The base string and the signing key *)

Lemma encodePercent_no_ampersand v r :
  encodePercent v = Ok r -> ~ In ampersand r.
Proof.
  intros H. apply (plain_not_In ampersand r); [reflexivity|].
  eapply encodePercent_plain. exact H.
Qed.

Lemma count_ampersand_sep a b :
  ~ In ampersand a -> ~ In ampersand b ->
  count_occ N.eq_dec (a ++ [ampersand] ++ b) ampersand = 1%nat.
Proof.
  intros Ha Hb. rewrite !count_occ_app.
  rewrite (proj1 (count_occ_not_In N.eq_dec a ampersand) Ha).
  rewrite (proj1 (count_occ_not_In N.eq_dec b ampersand) Hb).
  reflexivity.
Qed.

Lemma getSignature_Ok_inv toUpperCase hmacSHA1 this method requestURL
    params oAuthParams bodyParams signature :
  getSignature toUpperCase hmacSHA1 this method requestURL params oAuthParams
    bodyParams = Ok signature ->
  exists bp ps bs ks,
    spread bodyParams = Ok bp
    /\ paramsString params oAuthParams bp = Ok ps
    /\ baseString toUpperCase method requestURL ps = Ok bs
    /\ keyString (consumerSecret this) (tokenSecret this) = Ok ks
    /\ signature
       = encodeBase64 (hmacSHA1 (parseUint8Array bs) (parseUint8Array ks)).
Proof.
  unfold getSignature. intros H.
  apply bind_Ok_inv in H as (bp & Hbp & H).
  apply bind_Ok_inv in H as (ps & Hps & H).
  apply bind_Ok_inv in H as (bs & Hbs & H).
  apply bind_Ok_inv in H as (ks & Hks & [= <-]).
  exists bp, ps, bs, ks. repeat split; assumption.
Qed.

(** C1: the signature base string is the upper-cased method, [&], the
    percent-encoded URL, [&], and the percent-encoded canonical parameter
    string.  Neither encoded part contains [&], so the two separators are
    the only ampersands after the method; it is this string whose octets
    [#getSignature] signs. *)
Theorem C1_signature_base_string
    (toUpperCase : jsstring -> jsstring) (method requestURL ps : jsstring) :
  baseString toUpperCase method requestURL ps
  = (u <- encodePercent (VString requestURL) ;;
     p <- encodePercent (VString ps) ;;
     Ok (toUpperCase method ++ [ampersand] ++ u ++ [ampersand] ++ p))
  /\ (forall bs,
        baseString toUpperCase method requestURL ps = Ok bs ->
        exists u p,
          encodePercent (VString requestURL) = Ok u
          /\ encodePercent (VString ps) = Ok p
          /\ bs = toUpperCase method ++ [ampersand] ++ u ++ [ampersand] ++ p
          /\ ~ In ampersand u /\ ~ In ampersand p
          /\ count_occ N.eq_dec bs ampersand
             = (count_occ N.eq_dec (toUpperCase method) ampersand + 2)%nat)
  /\ (isWellFormed requestURL = true -> isWellFormed ps = true ->
      exists bs, baseString toUpperCase method requestURL ps = Ok bs)
  /\ (forall hmacSHA1 this params oAuthParams bodyParams signature,
        getSignature toUpperCase hmacSHA1 this method requestURL params
          oAuthParams bodyParams = Ok signature ->
        exists bp ps' bs ks,
          spread bodyParams = Ok bp
          /\ paramsString params oAuthParams bp = Ok ps'
          /\ baseString toUpperCase method requestURL ps' = Ok bs
          /\ keyString (consumerSecret this) (tokenSecret this) = Ok ks
          /\ signature
             = encodeBase64
                 (hmacSHA1 (parseUint8Array bs) (parseUint8Array ks))).
Proof.
  split; [reflexivity|]. split; [|split].
  - unfold baseString. intros bs H.
    apply bind_Ok_inv in H as (u & Hu & H).
    apply bind_Ok_inv in H as (p & Hp & [= <-]).
    exists u, p.
    pose proof (encodePercent_no_ampersand _ _ Hu) as Nu.
    pose proof (encodePercent_no_ampersand _ _ Hp) as Np.
    repeat split; try assumption.
    change (lit "&") with [ampersand].
    rewrite count_occ_app.
    rewrite count_occ_cons_eq by reflexivity.
    change (u ++ 38 :: p) with (u ++ [ampersand] ++ p).
    rewrite (count_ampersand_sep u p Nu Np). lia.
  - intros Wu Wp. unfold baseString.
    destruct (encodePercent_total (VString requestURL) Wu) as [u ->].
    destruct (encodePercent_total (VString ps) Wp) as [p ->].
    eexists. reflexivity.
  - intros hmacSHA1 this params oAuthParams bodyParams signature.
    apply getSignature_Ok_inv.
Qed.

Lemma C1_witness :
  exists bs,
    baseString ascii_toUpperCase (lit "get") (lit "http://example.com/r")
      (lit "a=1&b=2") = Ok bs
    /\ count_occ N.eq_dec bs ampersand = 2%nat.
Proof.
  destruct (C1_signature_base_string ascii_toUpperCase (lit "get")
              (lit "http://example.com/r") (lit "a=1&b=2"))
    as (_ & Hinv & Htotal & _).
  destruct (Htotal eq_refl eq_refl) as [bs Hbs].
  exists bs. split; [exact Hbs|].
  destruct (Hinv bs Hbs) as (u & p & _ & _ & _ & _ & _ & Hc). exact Hc.
Defined.

(** C3: the signing key is the percent-encoded consumer secret, [&], and
    the percent-encoded token secret; it holds exactly one ampersand,
    also when the token secret is empty, and for the consumer secret
    SECRET and the empty token secret it is SECRET&.  Its octets are the
    key [#getSignature] gives to HMAC-SHA1. *)
Theorem C3_signing_key (consumerSecret tokenSecret : value) :
  keyString consumerSecret tokenSecret
  = (c <- encodePercent consumerSecret ;;
     t <- encodePercent tokenSecret ;;
     Ok (c ++ [ampersand] ++ t))
  /\ (forall ks,
        keyString consumerSecret tokenSecret = Ok ks ->
        count_occ N.eq_dec ks ampersand = 1%nat)
  /\ (value_wf consumerSecret = true -> value_wf tokenSecret = true ->
      exists ks, keyString consumerSecret tokenSecret = Ok ks)
  /\ (value_wf consumerSecret = true ->
      exists c, encodePercent consumerSecret = Ok c
                /\ keyString consumerSecret (VString []) = Ok (c ++ [ampersand]))
  /\ keyString (VString (lit "SECRET")) (VString []) = Ok (lit "SECRET&").
Proof.
  split; [reflexivity|]. split; [|split; [|split; [|reflexivity]]].
  - unfold keyString. intros ks H.
    apply bind_Ok_inv in H as (c & Hc & H).
    apply bind_Ok_inv in H as (t & Ht & [= <-]).
    apply count_ampersand_sep; eapply encodePercent_no_ampersand; eassumption.
  - intros Wc Wt. unfold keyString.
    destruct (encodePercent_total _ Wc) as [c ->].
    destruct (encodePercent_total _ Wt) as [t ->].
    eexists. reflexivity.
  - intros Wc. unfold keyString.
    destruct (encodePercent_total _ Wc) as [c Hc]. exists c.
    rewrite Hc. split; reflexivity.
Qed.

Lemma C3_witness :
  exists ks,
    keyString (VString (lit "kd94hf93k423kf44")) (VString (lit "pfkkd#hi9_sl-3r=4s00"))
    = Ok ks
    /\ count_occ N.eq_dec ks ampersand = 1%nat.
Proof.
  destruct (C3_signing_key (VString (lit "kd94hf93k423kf44"))
              (VString (lit "pfkkd#hi9_sl-3r=4s00")))
    as (_ & Hcount & Htotal & _).
  destruct (Htotal eq_refl eq_refl) as [ks Hks].
  exists ks. split; [exact Hks|apply Hcount; exact Hks].
Defined.

(** ** The token-exchange responses *)

Lemma str_eqb_eq a b : str_eqb a b = true <-> a = b.
Proof.
  revert b. induction a as [|x a IH]; intros [|y b]; simpl;
    try (split; [discriminate|discriminate]); [split; reflexivity|].
  rewrite andb_true_iff, N.eqb_eq, IH. split.
  - intros [-> ->]. reflexivity.
  - intros [= -> ->]. split; reflexivity.
Qed.

Lemma str_eqb_refl a : str_eqb a a = true.
Proof. apply str_eqb_eq. reflexivity. Qed.

Lemma URLSearchParams_get_absent params name :
  (forall v, ~ In (name, v) params) -> URLSearchParams_get params name = VNull.
Proof.
  induction params as [|[n v] params IH]; intros H; [reflexivity|]. simpl.
  destruct (str_eqb n name) eqn:E.
  - apply str_eqb_eq in E as ->. exfalso. apply (H v). left. reflexivity.
  - apply IH. intros v' Hin. apply (H v'). right. exact Hin.
Qed.

Lemma URLSearchParams_get_present params name v :
  In (name, v) params -> exists v', URLSearchParams_get params name = VString v'.
Proof.
  induction params as [|[n w] params IH]; intros []; simpl.
  - injection H as -> ->. rewrite str_eqb_refl. eauto.
  - destruct (str_eqb n name); eauto.
Qed.

Lemma URLSearchParams_get_first l1 name v l2 :
  (forall w, ~ In (name, w) l1) ->
  URLSearchParams_get (l1 ++ (name, v) :: l2) name = VString v.
Proof.
  induction l1 as [|[n w] l1 IH]; intros H; simpl.
  - rewrite str_eqb_refl. reflexivity.
  - destruct (str_eqb n name) eqn:E.
    + apply str_eqb_eq in E as ->. exfalso. apply (H w). left. reflexivity.
    + apply IH. intros w' Hin. apply (H w'). right. exact Hin.
Qed.

Lemma URLSearchParams_get_defined params name :
  URLSearchParams_get params name <> VUndefined.
Proof.
  induction params as [|[n v] params IH]; simpl; [discriminate|].
  destruct (str_eqb n name); [discriminate|exact IH].
Qed.

Lemma setToken_defined t s this :
  t <> VUndefined -> s <> VUndefined ->
  setToken t s this
  = {| consumerKey := consumerKey this; consumerSecret := consumerSecret this;
       token := t; tokenSecret := s |}.
Proof. intros Ht Hs. destruct t, s; try contradiction; reflexivity. Qed.

(** C6: a response that is not [ok] throws "Failed to get request
    token"; an [ok] response whose body has no [oauth_callback_confirmed]
    throws "Unconfirmed callback"; whenever the call throws, the client
    is left as it was; and the call returns only for an [ok] response
    with a confirmed callback, having set the token and the token secret
    from [oauth_token] and [oauth_token_secret] of the body. *)
Theorem C6_getRequestTokenParamsFrom (response : Response) (this : OAuth) :
  let params := URLSearchParams (text response) in
  let confirmed := URLSearchParams_get params (lit "oauth_callback_confirmed") in
  (ok response = false ->
     getRequestTokenParamsFrom response this
     = (Throw (OAuthError "Failed to get request token"), this))
  /\ (ok response = true ->
      (forall v, ~ In (lit "oauth_callback_confirmed", v) params) ->
      getRequestTokenParamsFrom response this
      = (Throw (OAuthError "Unconfirmed callback"), this))
  /\ (forall e this',
        getRequestTokenParamsFrom response this = (Throw e, this') ->
        this' = this
        /\ (e = OAuthError "Failed to get request token"
            \/ e = OAuthError "Unconfirmed callback"))
  /\ (forall r this',
        getRequestTokenParamsFrom response this = (Ok r, this') ->
        ok response = true /\ truthy confirmed = true /\ r = params
        /\ this' = {| consumerKey := consumerKey this;
                      consumerSecret := consumerSecret this;
                      token := URLSearchParams_get params (lit "oauth_token");
                      tokenSecret :=
                        URLSearchParams_get params (lit "oauth_token_secret") |})
  /\ (ok response = true -> truthy confirmed = true ->
      exists this', getRequestTokenParamsFrom response this = (Ok params, this')).
Proof.
  intros params confirmed.
  assert (E : getRequestTokenParamsFrom response this =
              if negb (ok response) then
                (Throw (OAuthError "Failed to get request token"), this)
              else if negb (truthy confirmed) then
                (Throw (OAuthError "Unconfirmed callback"), this)
              else
                (Ok params,
                 {| consumerKey := consumerKey this;
                    consumerSecret := consumerSecret this;
                    token := URLSearchParams_get params (lit "oauth_token");
                    tokenSecret :=
                      URLSearchParams_get params (lit "oauth_token_secret") |})).
  { unfold getRequestTokenParamsFrom. fold params. fold confirmed.
    rewrite setToken_defined by apply URLSearchParams_get_defined.
    reflexivity. }
  rewrite E. clear E.
  assert (A : (forall v, ~ In (lit "oauth_callback_confirmed", v) params) ->
              truthy confirmed = false).
  { intros Habs. unfold confirmed.
    rewrite (URLSearchParams_get_absent _ _ Habs). reflexivity. }
  destruct (ok response), (truthy confirmed); cbn [negb].
  - split; [discriminate|]. split; [intros _ Habs; discriminate (A Habs)|].
    split; [discriminate|]. split.
    + intros r this' [= <- <-]. repeat split.
    + intros _ _. eexists. reflexivity.
  - split; [discriminate|]. split; [reflexivity|]. split.
    + intros e this' [= <- <-]. split; [reflexivity|right; reflexivity].
    + split; [discriminate|discriminate].
  - split; [reflexivity|]. split; [discriminate|]. split.
    + intros e this' [= <- <-]. split; [reflexivity|left; reflexivity].
    + split; [discriminate|discriminate].
  - split; [reflexivity|]. split; [discriminate|]. split.
    + intros e this' [= <- <-]. split; [reflexivity|left; reflexivity].
    + split; [discriminate|discriminate].
Qed.

Lemma C6_witness :
  getRequestTokenParamsFrom
    {| ok := true; text := lit "oauth_token=T&oauth_token_secret=S" |}
    sample_client
  = (Throw (OAuthError "Unconfirmed callback"), sample_client)
  /\ getRequestTokenParamsFrom
       {| ok := false; text := lit "oauth_callback_confirmed=true" |}
       sample_client
     = (Throw (OAuthError "Failed to get request token"), sample_client)
  /\ exists this',
       getRequestTokenParamsFrom
         {| ok := true;
            text := lit "oauth_token=T&oauth_token_secret=S&oauth_callback_confirmed=true" |}
         sample_client
       = (Ok [(lit "oauth_token", lit "T"); (lit "oauth_token_secret", lit "S");
              (lit "oauth_callback_confirmed", lit "true")], this').
Proof.
  split; [|split].
  - apply (C6_getRequestTokenParamsFrom
             {| ok := true; text := lit "oauth_token=T&oauth_token_secret=S" |});
      [reflexivity|].
    intros v [H|[H|[]]]; discriminate H.
  - apply (C6_getRequestTokenParamsFrom
             {| ok := false; text := lit "oauth_callback_confirmed=true" |}).
    reflexivity.
  - apply (C6_getRequestTokenParamsFrom
             {| ok := true;
                text := lit "oauth_token=T&oauth_token_secret=S&oauth_callback_confirmed=true" |});
      reflexivity.
Defined.

(** C9: on an [ok] response [getAccessTokenParamsFrom] returns and
    overwrites both token fields with what the body gives for
    [oauth_token] and [oauth_token_secret]: the value of the first pair
    of that name, or [null] when there is none.  [setToken] puts the
    empty string in place of [undefined] only. *)
Theorem C9_getAccessTokenParamsFrom (response : Response) (this : OAuth) :
  ok response = true ->
  let params := URLSearchParams (text response) in
  let this' :=
    {| consumerKey := consumerKey this; consumerSecret := consumerSecret this;
       token := URLSearchParams_get params (lit "oauth_token");
       tokenSecret := URLSearchParams_get params (lit "oauth_token_secret") |} in
  getAccessTokenParamsFrom response this = (Ok params, this')
  /\ (forall l1 v l2,
        params = l1 ++ (lit "oauth_token", v) :: l2 ->
        (forall w, ~ In (lit "oauth_token", w) l1) ->
        token this' = VString v)
  /\ (forall l1 v l2,
        params = l1 ++ (lit "oauth_token_secret", v) :: l2 ->
        (forall w, ~ In (lit "oauth_token_secret", w) l1) ->
        tokenSecret this' = VString v)
  /\ ((forall v, ~ In (lit "oauth_token", v) params) -> token this' = VNull)
  /\ ((forall v, ~ In (lit "oauth_token_secret", v) params) ->
      tokenSecret this' = VNull)
  /\ setToken VNull VNull this
     = {| consumerKey := consumerKey this; consumerSecret := consumerSecret this;
          token := VNull; tokenSecret := VNull |}
  /\ setToken VUndefined VUndefined this
     = {| consumerKey := consumerKey this; consumerSecret := consumerSecret this;
          token := VString []; tokenSecret := VString [] |}.
Proof.
  intros Hok params this'. unfold getAccessTokenParamsFrom. rewrite Hok.
  cbn [negb]. fold params. repeat split.
  - f_equal. apply setToken_defined; apply URLSearchParams_get_defined.
  - intros l1 v l2 E H. cbn [token this']. rewrite E.
    apply URLSearchParams_get_first. exact H.
  - intros l1 v l2 E H. cbn [tokenSecret this']. rewrite E.
    apply URLSearchParams_get_first. exact H.
  - intros H. apply URLSearchParams_get_absent. exact H.
  - intros H. apply URLSearchParams_get_absent. exact H.
Qed.

Lemma C9_witness :
  getAccessTokenParamsFrom {| ok := true; text := lit "oauth_token=T%20x&a=b" |}
    sample_client
  = (Ok [(lit "oauth_token", lit "T x"); (lit "a", lit "b")],
     {| consumerKey := VString (lit "key");
        consumerSecret := VString (lit "SECRET");
        token := VString (lit "T x"); tokenSecret := VNull |}).
Proof.
  apply (C9_getAccessTokenParamsFrom
           {| ok := true; text := lit "oauth_token=T%20x&a=b" |} sample_client).
  reflexivity.
Defined.

(** ** Strings that are always well formed *)

Lemma ascii_only_app a b : ascii_only (a ++ b) = ascii_only a && ascii_only b.
Proof. apply forallb_app. Qed.

Lemma ascii_to_code_points s : ascii_only s = true -> to_code_points s = Ok s.
Proof.
  induction s as [|c s IH]; [reflexivity|]. simpl. intros H.
  apply andb_true_iff in H as [Hc Hs]. rewrite (IH Hs).
  apply N.ltb_lt in Hc.
  replace (is_trailing_surrogate c) with false by (symmetry; cmp_cases).
  replace (is_leading_surrogate c) with false by (symmetry; cmp_cases).
  reflexivity.
Qed.

Lemma ascii_isWellFormed s : ascii_only s = true -> isWellFormed s = true.
Proof. intros H. unfold isWellFormed. rewrite (ascii_to_code_points s H). reflexivity. Qed.

Lemma forallb_impl {A} (p q : A -> bool) l :
  (forall a, p a = true -> q a = true) ->
  forallb p l = true -> forallb q l = true.
Proof.
  intros H. rewrite !forallb_forall. intros Hp a Ha. apply H, Hp, Ha.
Qed.

Lemma unreserved_plain s : forallb unreserved s = true -> forallb plain s = true.
Proof.
  apply forallb_impl. intros c H. unfold plain. rewrite H. reflexivity.
Qed.

Lemma plain_ascii s : forallb plain s = true -> ascii_only s = true.
Proof.
  apply forallb_impl. intros c H. unfold plain in H.
  apply orb_true_iff in H as [H|H].
  - apply unreserved_bound in H. apply N.ltb_lt. lia.
  - apply N.eqb_eq in H as ->. reflexivity.
Qed.

Lemma encodePercent_ascii v r : encodePercent v = Ok r -> ascii_only r = true.
Proof. intros H. apply plain_ascii. eapply encodePercent_plain. exact H. Qed.

(** An unreserved string is its own encoding. *)
Lemma encodePercent_unreserved s :
  forallb unreserved s = true -> encodePercent (VString s) = Ok s.
Proof.
  intros H. rewrite encodePercent_spec. unfold spec_encode, ToString.
  rewrite ascii_to_code_points by (apply plain_ascii, unreserved_plain, H).
  cbn [bind]. f_equal.
  induction s as [|c s IH]; [reflexivity|]. simpl in H.
  apply andb_true_iff in H as [Hc Hs]. cbn [flat_map]. rewrite (IH Hs).
  unfold spec_escape. rewrite Hc. reflexivity.
Qed.

Lemma join_ascii sep l :
  ascii_only sep = true -> Forall (fun s => ascii_only s = true) l ->
  ascii_only (join sep l) = true.
Proof.
  intros Hsep. induction 1 as [|s l Hs Hl IH]; [reflexivity|].
  destruct l as [|s' l]; [exact Hs|].
  change (join sep (s :: s' :: l)) with (s ++ sep ++ join sep (s' :: l)).
  rewrite !ascii_only_app, Hs, Hsep, IH. reflexivity.
Qed.

Lemma hex_digit_lower_unreserved d : d < 16 -> unreserved (hex_digit false d) = true.
Proof. intros H. rewrite unreserved_eq. unfold hex_digit. cmp_cases. Qed.

Lemma to_radix_unreserved radix fuel n :
  0 < radix <= 16 -> forallb unreserved (to_radix radix fuel n) = true.
Proof.
  intros Hr. revert n. induction fuel as [|fuel IH]; intros n; [reflexivity|].
  simpl. destruct (N.ltb_spec n radix).
  - cbn [forallb]. rewrite hex_digit_lower_unreserved by lia. reflexivity.
  - rewrite forallb_app, IH. cbn [forallb].
    assert (Hnz : radix <> 0) by lia.
    pose proof (N.mod_lt n radix Hnz).
    rewrite hex_digit_lower_unreserved by lia. reflexivity.
Qed.

Lemma NumberToString_unreserved radix z :
  0 < radix <= 16 -> forallb unreserved (NumberToString radix z) = true.
Proof.
  intros Hr. unfold NumberToString. rewrite forallb_app, to_radix_unreserved by exact Hr.
  destruct (z <? 0)%Z; reflexivity.
Qed.

(** The UTF-8 decoder is the identity on ASCII octets. *)
Lemma utf8_decode_ascii bs :
  ascii_only bs = true -> utf8_decode_without_BOM bs = bs.
Proof.
  unfold utf8_decode_without_BOM.
  induction bs as [|b bs IH]; [reflexivity|]. intros H. simpl in H.
  apply andb_true_iff in H as [Hb Hbs]. apply N.ltb_lt in Hb.
  cbn [utf8_decode_from]. change (utf8_step utf8_initial b) with (utf8_lead b).
  unfold utf8_lead. destruct (N.leb_spec b 0x7F); [|lia].
  cbn [app flat_map]. rewrite (IH Hbs). unfold UTF16EncodeCodePoint.
  destruct (N.leb_spec b 0xFFFF); [reflexivity|lia].
Qed.

Lemma TextDecoder_decode_ascii bs :
  ascii_only bs = true -> TextDecoder_decode bs = bs.
Proof.
  intros H. unfold TextDecoder_decode.
  destruct bs as [|b bs]; [reflexivity|].
  assert (Hb : b < 128) by (simpl in H; apply andb_true_iff in H as [Hb _];
                            apply N.ltb_lt; exact Hb).
  transitivity (utf8_decode_without_BOM (b :: bs));
    [|apply utf8_decode_ascii; exact H].
  destruct bs as [|b1 [|b2 bs]]; try reflexivity.
  destruct (N.eqb_spec b 0xEF); [lia|reflexivity].
Qed.

Lemma encodeHex_unreserved bs :
  Forall (fun b => b < 256) bs -> forallb unreserved (encodeHex bs) = true.
Proof.
  induction 1 as [|b bs Hb _ IH]; [reflexivity|].
  unfold encodeHex in *. cbn [flat_map app forallb].
  rewrite !hex_digit_lower_unreserved by lia. exact IH.
Qed.

Lemma getNonce_unreserved e : forallb unreserved (getNonce e) = true.
Proof.
  unfold getNonce, stringifyHex, stringifyUint8Array.
  assert (H : forallb unreserved (encodeHex (map Byte.to_N (random_values e)))
              = true).
  { apply encodeHex_unreserved. apply Forall_forall. intros b Hb.
    apply in_map_iff in Hb as (x & <- & _).
    pose proof (Byte.to_N_bounded x). lia. }
  rewrite TextDecoder_decode_ascii by (apply plain_ascii, unreserved_plain, H).
  exact H.
Qed.

Lemma base64_char_bound n : base64_char n < 128.
Proof. unfold base64_char. repeat (cmp_step; cbv iota); lia. Qed.

Lemma encodeBase64_ascii data : ascii_only (encodeBase64 data) = true.
Proof.
  assert (B : forall n, (base64_char n <? 128) = true)
    by (intros n; apply N.ltb_lt, base64_char_bound).
  assert (H : ascii_only (encodeBase64 data) = true
              /\ (forall a, ascii_only (encodeBase64 (a :: data)) = true)
              /\ (forall a b, ascii_only (encodeBase64 (a :: b :: data)) = true)).
  { induction data as [|c data (IH0 & IH1 & IH2)].
    - repeat split; intros; simpl; rewrite ?B; reflexivity.
    - split; [apply IH1|]. split; [intros a; apply IH2|].
      intros a b.
      change (encodeBase64 (a :: b :: c :: data))
        with ([base64_char (a / 4); base64_char ((a mod 4) * 16 + b / 16);
               base64_char ((b mod 16) * 4 + c / 64); base64_char (c mod 64)]
              ++ encodeBase64 data).
      rewrite ascii_only_app, IH0. simpl. rewrite !B. reflexivity. }
  exact (proj1 H).
Qed.

(** ** When signing returns *)

Lemma encode_pair_total p :
  (let '(k, v) := p in value_wf k && value_wf v) = true ->
  exists r, encode_pair p = Ok r.
Proof.
  destruct p as [k v]. intros H. apply andb_true_iff in H as [Hk Hv].
  unfold encode_pair. destruct (encodePercent_total k Hk) as [k' ->].
  destruct (encodePercent_total v Hv) as [v' ->]. eexists. reflexivity.
Qed.

Lemma encode_pair_Ok_wf p r :
  encode_pair p = Ok r -> (let '(k, v) := p in value_wf k && value_wf v) = true.
Proof.
  destruct p as [k v]. unfold encode_pair. intros H.
  apply bind_Ok_inv in H as (k' & Hk & H).
  apply bind_Ok_inv in H as (v' & Hv & _).
  rewrite (encodePercent_Ok_wf _ _ Hk), (encodePercent_Ok_wf _ _ Hv). reflexivity.
Qed.

Lemma encode_pair_ascii p k v :
  encode_pair p = Ok (k, v) -> ascii_only k = true /\ ascii_only v = true.
Proof.
  destruct p as [key value]. unfold encode_pair. intros H.
  apply bind_Ok_inv in H as (k' & Hk & H).
  apply bind_Ok_inv in H as (v' & Hv & [= <- <-]).
  split; eapply encodePercent_ascii; eassumption.
Qed.

Lemma mapM_encode_pair_total l :
  params_wf l = true -> exists r, mapM encode_pair l = Ok r.
Proof.
  intros H. apply mapM_total. intros p Hp. apply encode_pair_total.
  unfold params_wf in H. rewrite forallb_forall in H. exact (H p Hp).
Qed.

Lemma mapM_encode_pair_Ok_wf l r :
  mapM encode_pair l = Ok r -> params_wf l = true.
Proof.
  intros H. unfold params_wf. apply forallb_forall. intros p Hp.
  destruct (mapM_Ok_all _ _ _ H p Hp) as [b Hb].
  exact (encode_pair_Ok_wf p b Hb).
Qed.

Lemma mapM_encode_pair_Throw l e :
  mapM encode_pair l = Throw e -> e = URIError /\ params_wf l = false.
Proof.
  intros H. split.
  - apply mapM_Throw in H as (a & _ & Ha). eapply encode_pair_Throw, Ha.
  - destruct (params_wf l) eqn:W; [|reflexivity].
    destruct (mapM_encode_pair_total l W) as [r Hr]. congruence.
Qed.

Lemma params_wf_app l1 l2 : params_wf (l1 ++ l2) = params_wf l1 && params_wf l2.
Proof. apply forallb_app. Qed.

Lemma paramsString_total params oAuthParams bodyParams :
  params_wf params = true -> params_wf oAuthParams = true ->
  params_wf bodyParams = true ->
  exists ps, paramsString params oAuthParams bodyParams = Ok ps.
Proof.
  intros H1 H2 H3. rewrite paramsString_eq.
  destruct (mapM_encode_pair_total (params ++ oAuthParams ++ bodyParams))
    as [r ->]; [rewrite !params_wf_app, H1, H2, H3; reflexivity|].
  eexists. reflexivity.
Qed.

Lemma paramsString_ascii params oAuthParams bodyParams ps :
  paramsString params oAuthParams bodyParams = Ok ps -> ascii_only ps = true.
Proof.
  rewrite paramsString_eq. intros H.
  apply bind_Ok_inv in H as (encoded & He & [= <-]).
  apply join_ascii; [reflexivity|].
  apply Forall_forall. intros s Hs.
  apply in_map_iff in Hs as ([k v] & <- & Hin).
  apply (Permutation_in _ (sort_perm compare_params encoded)) in Hin.
  destruct (mapM_Ok_In _ _ _ He _ Hin) as (p & _ & Hp).
  destruct (encode_pair_ascii _ _ _ Hp) as [Hk Hv].
  rewrite ascii_only_app, Hk. simpl. exact Hv.
Qed.

Lemma paramsString_Throw params oAuthParams bodyParams e :
  paramsString params oAuthParams bodyParams = Throw e ->
  e = URIError
  /\ params_wf params && params_wf oAuthParams && params_wf bodyParams = false.
Proof.
  rewrite paramsString_eq. intros H.
  apply bind_Throw_inv in H as [H|(r & _ & H)]; [|discriminate].
  apply mapM_encode_pair_Throw in H as [-> H]. split; [reflexivity|].
  rewrite !params_wf_app in H. rewrite <- andb_assoc. exact H.
Qed.

Lemma getSignature_total toUpperCase hmacSHA1 this method requestURL
    params oAuthParams bodyParams bp :
  spread bodyParams = Ok bp ->
  params_wf params = true -> params_wf oAuthParams = true ->
  params_wf bp = true -> isWellFormed requestURL = true ->
  value_wf (consumerSecret this) = true -> value_wf (tokenSecret this) = true ->
  exists signature,
    getSignature toUpperCase hmacSHA1 this method requestURL params oAuthParams
      bodyParams = Ok signature.
Proof.
  intros Hbp W1 W2 W3 Wu Wc Wt. unfold getSignature. rewrite Hbp. cbn [bind].
  destruct (paramsString_total _ _ _ W1 W2 W3) as [ps Hps]. rewrite Hps.
  cbn [bind]. unfold baseString.
  destruct (encodePercent_total (VString requestURL) Wu) as [u ->].
  destruct (encodePercent_total (VString ps)) as [p ->].
  { apply ascii_isWellFormed. eapply paramsString_ascii. exact Hps. }
  cbn [bind]. unfold keyString.
  destruct (encodePercent_total _ Wc) as [c ->].
  destruct (encodePercent_total _ Wt) as [t ->].
  eexists. reflexivity.
Qed.

Lemma getSignature_ascii toUpperCase hmacSHA1 this method requestURL
    params oAuthParams bodyParams signature :
  getSignature toUpperCase hmacSHA1 this method requestURL params oAuthParams
    bodyParams = Ok signature ->
  ascii_only signature = true.
Proof.
  intros H. apply getSignature_Ok_inv in H as (? & ? & ? & ? & _ & _ & _ & _ & ->).
  apply encodeBase64_ascii.
Qed.

Lemma getSignature_Throw toUpperCase hmacSHA1 this method requestURL
    params oAuthParams bodyParams e :
  getSignature toUpperCase hmacSHA1 this method requestURL params oAuthParams
    bodyParams = Throw e ->
  spread bodyParams = Throw e \/ e = URIError.
Proof.
  unfold getSignature. intros H.
  apply bind_Throw_inv in H as [H|(bp & _ & H)]; [left; exact H|right].
  apply bind_Throw_inv in H as [H|(ps & _ & H)].
  { apply paramsString_Throw in H. tauto. }
  apply bind_Throw_inv in H as [H|(bs & _ & H)].
  { unfold baseString in H.
    apply bind_Throw_inv in H as [H|(u & _ & H)];
      [apply encodePercent_Throw in H; tauto|].
    apply bind_Throw_inv in H as [H|(p & _ & H)];
      [apply encodePercent_Throw in H; tauto|discriminate]. }
  apply bind_Throw_inv in H as [H|(ks & _ & H)]; [|discriminate].
  unfold keyString in H.
  apply bind_Throw_inv in H as [H|(c & _ & H)];
    [apply encodePercent_Throw in H; tauto|].
  apply bind_Throw_inv in H as [H|(t & _ & H)];
    [apply encodePercent_Throw in H; tauto|discriminate].
Qed.

(** ** The [Authorization] header *)

Lemma getAuthHeaderValue_eq toUpperCase hmacSHA1 this method requestURL
    params oAuthParams bodyParams :
  getAuthHeaderValue toUpperCase hmacSHA1 this method requestURL params
    oAuthParams bodyParams
  = (signature <- getSignature toUpperCase hmacSHA1 this method requestURL
                    params oAuthParams bodyParams ;;
     pairs <- mapM encode_pair (oAuthParams ++ [signature_pair signature]) ;;
     Ok (header_of_pairs pairs)).
Proof.
  unfold getAuthHeaderValue, getCredentials.
  destruct (getSignature _ _ _ _ _ _ _ _) as [signature|e]; [|reflexivity].
  cbn [bind].
  rewrite (mapM_ext _
             (fun a => b <- encode_pair a ;;
                       Ok ((fun '(k, v) => k ++ lit "=" ++ [dquote] ++ v ++ [dquote]) b))).
  - rewrite mapM_post. unfold signature_pair.
    destruct (mapM encode_pair _); reflexivity.
  - intros [k v]. unfold encode_pair.
    destruct (encodePercent k); [|reflexivity].
    destruct (encodePercent v); reflexivity.
Qed.

Lemma getAuthHeaderValue_total toUpperCase hmacSHA1 this method requestURL
    params oAuthParams bodyParams bp :
  spread bodyParams = Ok bp ->
  params_wf params = true -> params_wf oAuthParams = true ->
  params_wf bp = true -> isWellFormed requestURL = true ->
  value_wf (consumerSecret this) = true -> value_wf (tokenSecret this) = true ->
  exists authorization,
    getAuthHeaderValue toUpperCase hmacSHA1 this method requestURL params
      oAuthParams bodyParams = Ok authorization.
Proof.
  intros Hbp W1 W2 W3 Wu Wc Wt. rewrite getAuthHeaderValue_eq.
  destruct (getSignature_total toUpperCase hmacSHA1 this method requestURL
              params oAuthParams bodyParams bp Hbp W1 W2 W3 Wu Wc Wt)
    as [signature Hs].
  rewrite Hs. cbn [bind].
  destruct (mapM_encode_pair_total (oAuthParams ++ [signature_pair signature]))
    as [pairs ->].
  { rewrite params_wf_app, W2. cbn [andb params_wf forallb signature_pair].
    unfold value_wf at 2. cbn [ToString].
    rewrite (ascii_isWellFormed signature)
      by (eapply getSignature_ascii; exact Hs).
    reflexivity. }
  eexists. reflexivity.
Qed.

Lemma getAuthHeaderValue_Throw toUpperCase hmacSHA1 this method requestURL
    params oAuthParams bodyParams e :
  getAuthHeaderValue toUpperCase hmacSHA1 this method requestURL params
    oAuthParams bodyParams = Throw e ->
  spread bodyParams = Throw e \/ e = URIError.
Proof.
  rewrite getAuthHeaderValue_eq. intros H.
  apply bind_Throw_inv in H as [H|(signature & _ & H)].
  { eapply getSignature_Throw. exact H. }
  apply bind_Throw_inv in H as [H|(pairs & _ & H)]; [|discriminate].
  apply mapM_encode_pair_Throw in H. tauto.
Qed.

(** ** Building the request *)

Lemma buildQuery_eq params :
  buildQuery params =
  (pairs <- mapM encode_pair params ;;
   Ok (join (lit "&") (map (fun '(k, v) => k ++ lit "=" ++ v) pairs))).
Proof.
  unfold buildQuery.
  rewrite (mapM_ext _
             (fun a => b <- encode_pair a ;;
                       Ok ((fun '(k, v) => k ++ lit "=" ++ v) b))).
  - rewrite mapM_post. destruct (mapM encode_pair params); reflexivity.
  - intros [k v]. unfold encode_pair.
    destruct (encodePercent k); [|reflexivity].
    destruct (encodePercent v); reflexivity.
Qed.

Lemma buildQuery_total params :
  params_wf params = true -> exists q, buildQuery params = Ok q.
Proof.
  intros W. rewrite buildQuery_eq.
  destruct (mapM_encode_pair_total params W) as [pairs ->].
  eexists. reflexivity.
Qed.

Lemma buildQuery_Throw params e :
  buildQuery params = Throw e -> e = URIError /\ params_wf params = false.
Proof.
  rewrite buildQuery_eq. intros H.
  apply bind_Throw_inv in H as [H|(pairs & _ & H)]; [|discriminate].
  apply mapM_encode_pair_Throw in H. exact H.
Qed.

(** The request of a call that gives no body. *)
Lemma makeRequest_no_body toUpperCase hmacSHA1 JSON_stringify this requestURL
    m ps oa ct :
  makeRequest toUpperCase hmacSHA1 JSON_stringify this requestURL
    {| method := Some m; params := ps; oAuthParams := Some oa;
       contentType := ct; bodyValue := BodyUndefined; callbackURL := None |}
  = (u <- buildURL requestURL (default [] ps) false ;;
     authorization <- getAuthHeaderValue toUpperCase hmacSHA1 this m requestURL
                        (default [] ps) oa (BodyParams []) ;;
     Ok {| url := u; request_method := m;
           headers := [("Authorization"%string, authorization)];
           body := BodyUndefined |}).
Proof.
  unfold makeRequest.
  cbn [method params oAuthParams contentType bodyValue default body_truthy].
  rewrite andb_false_r. cbn [andb].
  destruct (buildURL requestURL (default [] ps) false); [|reflexivity].
  cbn [bind].
  destruct (getAuthHeaderValue _ _ _ _ _ _ _ _); reflexivity.
Qed.

Lemma value_wf_literal s : ascii_only s = true -> value_wf (VString s) = true.
Proof. apply ascii_isWellFormed. Qed.



Lemma encodePercent_number z :
  encodePercent (VNumber z) = Ok (NumberToString 10 z).
Proof.
  change (encodePercent (VNumber z))
    with (encodePercent (VString (NumberToString 10 z))).
  apply encodePercent_unreserved, NumberToString_unreserved. lia.
Qed.



Lemma encode_pair_key k v :
  forallb unreserved k = true ->
  encode_pair (VString k, v) = (v' <- encodePercent v ;; Ok (k, v')).
Proof.
  intros H. unfold encode_pair. rewrite (encodePercent_unreserved k H).
  reflexivity.
Qed.



(** ** The URL of a request *)





(** ** The second definition of the class agrees with the first *)

Lemma Revised_makeRequest_agrees toUpperCase hmacSHA1 JSON_stringify this
    requestURL o :
  str_eqb (lit "application/json") (default form_urlencoded (contentType o))
  = false
  \/ str_eqb (lit "POST") (default (lit "GET") (method o))
     && body_truthy (bodyValue o) = false ->
  Revised.makeRequest toUpperCase hmacSHA1 this requestURL o
  = makeRequest toUpperCase hmacSHA1 JSON_stringify this requestURL o.
Proof.
  intros H. unfold Revised.makeRequest, makeRequest.
  destruct (str_eqb (lit "POST") (default (lit "GET") (method o))
            && body_truthy (bodyValue o)) eqn:P.
  - destruct H as [H|H]; [|discriminate].
    unfold buildBody, Revised.buildBody. rewrite H. reflexivity.
  - reflexivity.
Qed.

Lemma Revised_makeRequestForAccessToken_agrees toUpperCase hmacSHA1
    JSON_stringify accessTokenURL verifier o e this :
  Revised.makeRequestForAccessToken toUpperCase hmacSHA1 accessTokenURL
    verifier o e this
  = makeRequestForAccessToken toUpperCase hmacSHA1 JSON_stringify
      accessTokenURL verifier o e this.
Proof.
  unfold Revised.makeRequestForAccessToken, makeRequestForAccessToken.
  f_equal; apply Revised_makeRequest_agrees; right;
    cbn [bodyValue body_truthy]; apply andb_false_r.
Qed.

Lemma Revised_makeRequestForRequestToken_agrees toUpperCase hmacSHA1
    JSON_stringify requestTokenURL o e this :
  bodyValue o = BodyUndefined ->
  Revised.makeRequestForRequestToken toUpperCase hmacSHA1 requestTokenURL
    o e this
  = makeRequestForRequestToken toUpperCase hmacSHA1 JSON_stringify
      requestTokenURL o e this.
Proof.
  intros Hb.
  unfold Revised.makeRequestForRequestToken, makeRequestForRequestToken.
  rewrite Hb. f_equal.
  rewrite (Revised_makeRequest_agrees toUpperCase hmacSHA1 JSON_stringify)
    by (right; cbn [bodyValue body_truthy]; apply andb_false_r).
  rewrite !makeRequest_no_body. reflexivity.
Qed.

(** The URL of a request of the second definition, as for the first. *)
Lemma Revised_makeRequest_url toUpperCase hmacSHA1 this requestURL o req :
  let ps := default [] (params o) in
  let isPost := str_eqb (lit "POST") (default (lit "GET") (method o))
                && body_truthy (bodyValue o) in
  Revised.makeRequest toUpperCase hmacSHA1 this requestURL o = Ok req ->
  buildURL requestURL ps isPost = Ok (url req)
  /\ (isPost = true \/ ps = [] -> url req = requestURL)
  /\ (isPost = false -> ps <> [] ->
      exists q, buildQuery ps = Ok q /\ url req = requestURL ++ lit "?" ++ q).
Proof.
  intros ps isPost H. unfold Revised.makeRequest in H. fold ps isPost in H.
  apply bind_Ok_inv in H as (u & Hu & H).
  apply bind_Ok_inv in H as (authorization & _ & H).
  apply bind_Ok_inv in H as (b & _ & [= <-]). cbn [url].
  split; [exact Hu|]. unfold buildURL in Hu. split.
  - intros [Hp|Hn].
    + rewrite Hp in Hu. injection Hu as <-. reflexivity.
    + rewrite Hn, orb_true_r in Hu. injection Hu as <-. reflexivity.
  - intros Hp Hn. rewrite Hp in Hu. cbn [orb] in Hu.
    destruct ps as [|p ps']; [contradiction|]. cbn [List.length Nat.eqb] in Hu.
    apply bind_Ok_inv in Hu as (q & Hq & [= <-]). exists q.
    split; [exact Hq|reflexivity].
Qed.

(** The header of a request for a request token of the second definition:
    the same seven pairs, also when a body is given. *)
Lemma Revised_makeRequestForRequestToken_header toUpperCase hmacSHA1
    requestTokenURL o e this req :
  fst (Revised.makeRequestForRequestToken toUpperCase hmacSHA1 requestTokenURL
         o e this) = Ok req ->
  exists cb ck sg,
    encodePercent (VString (default (lit "oob") (callbackURL o))) = Ok cb
    /\ encodePercent (consumerKey this) = Ok ck
    /\ (callbackURL o = None -> cb = lit "oob")
    /\ lookup_header "Authorization" (headers req)
       = Some (header_of_pairs
                 [ (lit "oauth_callback", cb);
                   (lit "oauth_consumer_key", ck);
                   (lit "oauth_nonce", getNonce e);
                   (lit "oauth_signature_method", lit "HMAC-SHA1");
                   (lit "oauth_timestamp", NumberToString 10 (getTimestamp e));
                   (lit "oauth_version", lit "1.0");
                   (lit "oauth_signature", sg) ]).
Proof.
  unfold Revised.makeRequestForRequestToken, Revised.makeRequest.
  cbn [fst method params oAuthParams contentType bodyValue default].
  change (consumerKey (setToken VUndefined VUndefined this))
    with (consumerKey this).
  change signatureMethod with (lit "HMAC-SHA1"). change version with (lit "1.0").
  intros H. apply bind_Ok_inv in H as (u & _ & H).
  apply bind_Ok_inv in H as (authorization & Ha & H).
  apply bind_Ok_inv in H as (b & _ & [= <-]).
  rewrite getAuthHeaderValue_eq in Ha.
  apply bind_Ok_inv in Ha as (signature & Hs & Ha).
  apply bind_Ok_inv in Ha as (pairs & Hp & [= <-]).
  unfold signature_pair in Hp. cbn [app mapM] in Hp.
  rewrite !encode_pair_key in Hp by reflexivity.
  rewrite (encodePercent_unreserved (getNonce e)) in Hp
    by apply getNonce_unreserved.
  rewrite (encodePercent_unreserved (lit "HMAC-SHA1")) in Hp by reflexivity.
  rewrite (encodePercent_unreserved (lit "1.0")) in Hp by reflexivity.
  rewrite encodePercent_number in Hp.
  destruct (encodePercent (VString (default (lit "oob") (callbackURL o))))
    as [cb|] eqn:Ecb; [|discriminate].
  destruct (encodePercent (consumerKey this)) as [ck|] eqn:Eck; [|discriminate].
  destruct (encodePercent (VString signature)) as [sg|] eqn:Esg; [|discriminate].
  cbn [bind] in Hp. injection Hp as <-.
  exists cb, ck, sg. repeat split.
  intros Hnone. rewrite Hnone in Ecb. cbn [default] in Ecb.
  rewrite encodePercent_unreserved in Ecb by reflexivity.
  injection Ecb as <-. reflexivity.
Qed.

(* ================================================================== *)
(** * Further properties of the code *)

(** ** The UTF-8 decoder undoes the UTF-8 encoder *)

Lemma scalar_arith cp : scalar cp -> cp < 0x110000 /\ (cp < 0xD800 \/ 0xDFFF < cp).
Proof. intros [H1 H2]. split; [exact H1|]. cmp_cases. Qed.

Lemma utf8_decode_1 b rest :
  b < 0x80 ->
  utf8_decode_from utf8_initial (b :: rest)
  = b :: utf8_decode_from utf8_initial rest.
Proof.
  intros H. cbn [utf8_decode_from].
  change (utf8_step utf8_initial b) with (utf8_lead b). unfold utf8_lead.
  destruct (N.leb_spec b 0x7F); [reflexivity|lia].
Qed.

Lemma utf8_decode_2 b0 b1 rest :
  0xC2 <= b0 <= 0xDF -> 0x80 <= b1 <= 0xBF ->
  utf8_decode_from utf8_initial (b0 :: b1 :: rest)
  = (b0 mod 32 * 64 + b1 mod 64) :: utf8_decode_from utf8_initial rest.
Proof.
  intros H0 H1. cbn [utf8_decode_from].
  change (utf8_step utf8_initial b0) with (utf8_lead b0). unfold utf8_lead.
  destruct (N.leb_spec b0 0x7F); [lia|].
  replace (in_range 0xC2 0xDF b0) with true by (symmetry; cmp_cases).
  cbn [app]. unfold utf8_step.
  cbn [bytes_needed lower_boundary upper_boundary code_point].
  replace (in_range 0x80 0xBF b1) with true by (symmetry; cmp_cases).
  reflexivity.
Qed.

Lemma utf8_decode_3 b0 b1 b2 rest :
  0xE0 <= b0 <= 0xEF ->
  (if b0 =? 0xE0 then 0xA0 else 0x80) <= b1 ->
  b1 <= (if b0 =? 0xED then 0x9F else 0xBF) ->
  0x80 <= b2 <= 0xBF ->
  utf8_decode_from utf8_initial (b0 :: b1 :: b2 :: rest)
  = ((b0 mod 16 * 64 + b1 mod 64) * 64 + b2 mod 64)
      :: utf8_decode_from utf8_initial rest.
Proof.
  intros H0 Hlo Hhi H2. cbn [utf8_decode_from].
  change (utf8_step utf8_initial b0) with (utf8_lead b0). unfold utf8_lead.
  destruct (N.leb_spec b0 0x7F); [lia|].
  replace (in_range 0xC2 0xDF b0) with false by (symmetry; cmp_cases).
  replace (in_range 0xE0 0xEF b0) with true by (symmetry; cmp_cases).
  cbn [app]. unfold utf8_step at 1.
  cbn [bytes_needed lower_boundary upper_boundary code_point].
  replace (in_range (if b0 =? 0xE0 then 0xA0 else 0x80)
             (if b0 =? 0xED then 0x9F else 0xBF) b1) with true
    by (symmetry; unfold in_range; apply andb_true_iff;
        split; apply N.leb_le; assumption).
  cbn [negb app]. unfold utf8_step.
  cbn [bytes_needed lower_boundary upper_boundary code_point].
  replace (in_range 0x80 0xBF b2) with true by (symmetry; cmp_cases).
  reflexivity.
Qed.

Lemma utf8_decode_4 b0 b1 b2 b3 rest :
  0xF0 <= b0 <= 0xF4 ->
  (if b0 =? 0xF0 then 0x90 else 0x80) <= b1 ->
  b1 <= (if b0 =? 0xF4 then 0x8F else 0xBF) ->
  0x80 <= b2 <= 0xBF -> 0x80 <= b3 <= 0xBF ->
  utf8_decode_from utf8_initial (b0 :: b1 :: b2 :: b3 :: rest)
  = (((b0 mod 8 * 64 + b1 mod 64) * 64 + b2 mod 64) * 64 + b3 mod 64)
      :: utf8_decode_from utf8_initial rest.
Proof.
  intros H0 Hlo Hhi H2 H3. cbn [utf8_decode_from].
  change (utf8_step utf8_initial b0) with (utf8_lead b0). unfold utf8_lead.
  destruct (N.leb_spec b0 0x7F); [lia|].
  replace (in_range 0xC2 0xDF b0) with false by (symmetry; cmp_cases).
  replace (in_range 0xE0 0xEF b0) with false by (symmetry; cmp_cases).
  replace (in_range 0xF0 0xF4 b0) with true by (symmetry; cmp_cases).
  cbn [app]. unfold utf8_step at 1.
  cbn [bytes_needed lower_boundary upper_boundary code_point].
  replace (in_range (if b0 =? 0xF0 then 0x90 else 0x80)
             (if b0 =? 0xF4 then 0x8F else 0xBF) b1) with true
    by (symmetry; unfold in_range; apply andb_true_iff;
        split; apply N.leb_le; assumption).
  cbn [negb app]. unfold utf8_step at 1.
  cbn [bytes_needed lower_boundary upper_boundary code_point].
  replace (in_range 0x80 0xBF b2) with true by (symmetry; cmp_cases).
  cbn [negb app]. unfold utf8_step.
  cbn [bytes_needed lower_boundary upper_boundary code_point].
  replace (in_range 0x80 0xBF b3) with true by (symmetry; cmp_cases).
  reflexivity.
Qed.

Lemma utf8_decode_octets cp rest :
  scalar cp ->
  utf8_decode_from utf8_initial (utf8_octets cp ++ rest)
  = cp :: utf8_decode_from utf8_initial rest.
Proof.
  intros Hs. apply scalar_arith in Hs as [Hmax Hsur]. unfold utf8_octets.
  destruct (N.ltb_spec cp 0x80);
    [|destruct (N.ltb_spec cp 0x800); [|destruct (N.ltb_spec cp 0x10000)]];
    cbn [app].
  - apply utf8_decode_1. assumption.
  - rewrite utf8_decode_2 by lia. f_equal. lia.
  - rewrite utf8_decode_3.
    + f_equal. lia.
    + lia.
    + destruct (N.eqb_spec (0xE0 + cp / 4096) 0xE0); lia.
    + destruct (N.eqb_spec (0xE0 + cp / 4096) 0xED); lia.
    + lia.
  - rewrite utf8_decode_4.
    + f_equal. lia.
    + lia.
    + destruct (N.eqb_spec (0xF0 + (cp / 262144) mod 8) 0xF0); lia.
    + destruct (N.eqb_spec (0xF0 + (cp / 262144) mod 8) 0xF4); lia.
    + lia.
    + lia.
Qed.

Lemma utf8_decode_flat_map cps :
  Forall scalar cps ->
  utf8_decode_from utf8_initial (flat_map utf8_octets cps) = cps.
Proof.
  induction 1 as [|cp cps Hcp _ IH]; [reflexivity|].
  cbn [flat_map]. rewrite utf8_decode_octets by exact Hcp. rewrite IH.
  reflexivity.
Qed.

Lemma utf8_encode_code_points s cps :
  to_code_points s = Ok cps -> utf8_encode s = flat_map utf8_octets cps.
Proof.
  revert cps. induction s as [|c s IH1 IH2] using list_ind_pairs; intros cps.
  - intros [= <-]. reflexivity.
  - simpl. destruct (is_trailing_surrogate c) eqn:T; [discriminate|].
    destruct (is_leading_surrogate c) eqn:L.
    + destruct s as [|d s']; [discriminate|].
      destruct (is_trailing_surrogate d) eqn:T'; [|discriminate].
      intros H. apply bind_Ok_inv in H as (r & Hr & [= <-]).
      cbn [flat_map]. rewrite (IH2 d s' eq_refl r Hr). reflexivity.
    + intros H. apply bind_Ok_inv in H as (r & Hr & [= <-]).
      cbn [flat_map]. rewrite (IH1 r Hr). reflexivity.
Qed.

Lemma utf8_round_trip s :
  code_units s = true -> isWellFormed s = true ->
  utf8_decode_without_BOM (utf8_encode s) = s.
Proof.
  intros R W. unfold isWellFormed in W.
  destruct (to_code_points s) as [cps|] eqn:E; [|discriminate].
  destruct (to_code_points_scalar s cps R E) as [F Hs].
  unfold utf8_decode_without_BOM.
  rewrite (utf8_encode_code_points s cps E), utf8_decode_flat_map by exact F.
  exact Hs.
Qed.

(** ** src/encoding/uint8array.js: [stringify] after [parse] *)

Lemma TextDecoder_decode_octets cp rest :
  scalar cp -> cp <> 0xFEFF ->
  TextDecoder_decode (utf8_octets cp ++ rest)
  = utf8_decode_without_BOM (utf8_octets cp ++ rest).
Proof.
  intros Hs Hne. apply scalar_arith in Hs as [Hmax Hsur].
  unfold utf8_octets, TextDecoder_decode.
  destruct (N.ltb_spec cp 0x80);
    [|destruct (N.ltb_spec cp 0x800); [|destruct (N.ltb_spec cp 0x10000)]];
    cbn [app].
  - destruct rest as [|b1 [|b2 rest]]; try reflexivity.
    destruct (N.eqb_spec cp 0xEF); [lia|reflexivity].
  - destruct rest as [|b2 rest]; try reflexivity.
    destruct (N.eqb_spec (0xC0 + cp / 64) 0xEF); [lia|reflexivity].
  - destruct (N.eqb_spec (0xE0 + cp / 4096) 0xEF); [|reflexivity].
    destruct (N.eqb_spec (0x80 + (cp / 64) mod 64) 0xBB); [|reflexivity].
    destruct (N.eqb_spec (0x80 + cp mod 64) 0xBF); [|reflexivity].
    exfalso. apply Hne. lia.
  - destruct (N.eqb_spec (0xF0 + (cp / 262144) mod 8) 0xEF); [lia|reflexivity].
Qed.

Lemma to_code_points_head c s cps :
  to_code_points (c :: s) = Ok cps -> c <> 0xFEFF ->
  exists cp cps', cps = cp :: cps' /\ cp <> 0xFEFF.
Proof.
  simpl. intros H Hne.
  destruct (is_trailing_surrogate c); [discriminate|].
  destruct (is_leading_surrogate c) eqn:L.
  - destruct s as [|d s']; [discriminate|].
    destruct (is_trailing_surrogate d) eqn:T; [|discriminate].
    apply bind_Ok_inv in H as (r & _ & [= <-]).
    eexists _, _. split; [reflexivity|].
    pose proof (surrogate_pair_bound c d L T). lia.
  - apply bind_Ok_inv in H as (r & _ & [= <-]).
    eexists _, _. split; [reflexivity|exact Hne].
Qed.

Lemma stringify_parse s :
  code_units s = true -> isWellFormed s = true ->
  stringifyUint8Array (parseUint8Array s)
  = match s with
    | c :: s' => if c =? 0xFEFF then s' else s
    | [] => s
    end.
Proof.
  intros R W. unfold stringifyUint8Array, parseUint8Array.
  destruct s as [|c s']; [reflexivity|].
  destruct (N.eqb_spec c 0xFEFF) as [->|Hne].
  - change (utf8_encode (0xFEFF :: s')) with ([0xEF; 0xBB; 0xBF] ++ utf8_encode s').
    change (TextDecoder_decode ([0xEF; 0xBB; 0xBF] ++ utf8_encode s'))
      with (utf8_decode_without_BOM (utf8_encode s')).
    apply utf8_round_trip.
    + simpl in R. exact R.
    + unfold isWellFormed in *. simpl in W.
      destruct (to_code_points s'); [reflexivity|discriminate].
  - transitivity (utf8_decode_without_BOM (utf8_encode (c :: s')));
      [|apply utf8_round_trip; assumption].
    unfold isWellFormed in W.
    destruct (to_code_points (c :: s')) as [cps|] eqn:E; [|discriminate].
    destruct (to_code_points_head c s' cps E Hne) as (cp & cps' & -> & Hcp).
    destruct (to_code_points_scalar _ _ R E) as [F _].
    rewrite (utf8_encode_code_points _ _ E). cbn [flat_map].
    apply TextDecoder_decode_octets; [|exact Hcp].
    inversion F; assumption.
Qed.

(** ** [URLSearchParams] reads back what [buildQuery] writes *)

Lemma percent_decode_plain c rest :
  c <> 37 -> percent_decode (c :: rest) = c :: percent_decode rest.
Proof.
  intros H. cbn [percent_decode]. destruct (N.eqb_spec c 37); [contradiction|].
  reflexivity.
Qed.

Lemma percent_decode_escape b rest :
  b < 256 -> percent_decode (escape_octet b ++ rest) = b :: percent_decode rest.
Proof.
  intros H. unfold escape_octet. cbn [app percent_decode N.eqb Pos.eqb].
  rewrite !hex_value_digit by lia. f_equal. lia.
Qed.

Lemma percent_decode_escapes bs rest :
  Forall (fun b => b < 256) bs ->
  percent_decode (escape_octets bs ++ rest) = bs ++ percent_decode rest.
Proof.
  induction 1 as [|b bs Hb _ IH]; [reflexivity|].
  change (escape_octets (b :: bs)) with (escape_octet b ++ escape_octets bs).
  rewrite <- app_assoc, percent_decode_escape by exact Hb. rewrite IH.
  reflexivity.
Qed.

Lemma percent_decode_spec_escape cp rest :
  percent_decode (spec_escape cp ++ rest) = utf8_octets cp ++ percent_decode rest.
Proof.
  unfold spec_escape. destruct (unreserved cp) eqn:U.
  - apply unreserved_bound in U. cbn [app].
    rewrite percent_decode_plain by lia. unfold utf8_octets.
    destruct (N.ltb_spec cp 0x80); [reflexivity|lia].
  - destruct (sub_delims cp) eqn:S.
    + destruct (sub_delims_cases cp S) as [->|[->|[->|[->| ->]]]]; reflexivity.
    + apply percent_decode_escapes, utf8_octets_bound.
Qed.

Lemma percent_decode_flat_map cps :
  percent_decode (flat_map spec_escape cps) = flat_map utf8_octets cps.
Proof.
  induction cps as [|cp cps IH]; [reflexivity|].
  cbn [flat_map]. rewrite percent_decode_spec_escape, IH. reflexivity.
Qed.

Lemma plus_to_space_plain e : forallb plain e = true -> plus_to_space e = e.
Proof.
  induction e as [|c e IH]; [reflexivity|]. simpl. intros H.
  apply andb_true_iff in H as [Hc He]. rewrite (IH He).
  destruct (N.eqb_spec c 43) as [->|]; [discriminate|reflexivity].
Qed.

(** What the parser makes of one encoded name or value. *)
Lemma decode_component s e :
  code_units s = true -> spec_encode s = Ok e ->
  utf8_decode_without_BOM (percent_decode (plus_to_space e)) = s.
Proof.
  intros R H. rewrite plus_to_space_plain by (eapply spec_encode_plain; exact H).
  unfold spec_encode in H. apply bind_Ok_inv in H as (cps & E & [= <-]).
  destruct (to_code_points_scalar s cps R E) as [F Hs].
  rewrite percent_decode_flat_map. unfold utf8_decode_without_BOM.
  rewrite utf8_decode_flat_map by exact F. exact Hs.
Qed.

Lemma split_on_none sep s : ~ In sep s -> split_on sep s = [s].
Proof.
  induction s as [|b s IH]; intros H; [reflexivity|]. simpl.
  destruct (N.eqb_spec b sep) as [->|]; [exfalso; apply H; left; reflexivity|].
  rewrite IH by (intros Hin; apply H; right; exact Hin). reflexivity.
Qed.

Lemma split_on_app sep s rest :
  ~ In sep s -> split_on sep (s ++ sep :: rest) = s :: split_on sep rest.
Proof.
  induction s as [|b s IH]; intros H; simpl.
  - rewrite N.eqb_refl. reflexivity.
  - destruct (N.eqb_spec b sep) as [->|]; [exfalso; apply H; left; reflexivity|].
    rewrite IH by (intros Hin; apply H; right; exact Hin). reflexivity.
Qed.

Lemma split_on_join sep segs :
  segs <> [] -> Forall (fun s => ~ In sep s) segs ->
  split_on sep (join [sep] segs) = segs.
Proof.
  intros Hne F. induction F as [|s segs Hs F IH]; [contradiction|].
  destruct segs as [|s' segs].
  - apply split_on_none. exact Hs.
  - change (join [sep] (s :: s' :: segs)) with (s ++ sep :: join [sep] (s' :: segs)).
    rewrite split_on_app by exact Hs. rewrite IH by discriminate. reflexivity.
Qed.

Lemma split_name_value_app k v :
  ~ In 61 k -> split_name_value (k ++ 61 :: v) = (k, v).
Proof.
  induction k as [|b k IH]; intros H; [reflexivity|]. simpl.
  destruct (N.eqb_spec b 61) as [->|]; [exfalso; apply H; left; reflexivity|].
  rewrite IH by (intros Hin; apply H; right; exact Hin). reflexivity.
Qed.

Lemma utf8_encode_ascii s : ascii_only s = true -> utf8_encode s = s.
Proof.
  intros H. rewrite (utf8_encode_code_points s s (ascii_to_code_points s H)).
  induction s as [|c s IH]; [reflexivity|]. simpl in H.
  apply andb_true_iff in H as [Hc Hs]. cbn [flat_map]. rewrite (IH Hs).
  unfold utf8_octets. rewrite Hc. reflexivity.
Qed.

Lemma strip_question_mark c s :
  c <> 63 -> match c :: s with 63 :: rest => rest | _ => c :: s end = c :: s.
Proof.
  intros H. destruct c as [|p]; [reflexivity|].
  do 6 (destruct p as [p|p|]; try reflexivity). contradiction.
Qed.

Lemma query_unit_cases c :
  query_unit c = true -> plain c = true \/ c = 61 \/ c = 38.
Proof.
  unfold query_unit, mem_lit. simpl. intros H.
  destruct (plain c); [left; reflexivity|right]. simpl in H.
  destruct (N.eqb_spec c 61); [left; assumption|].
  destruct (N.eqb_spec c 38); [right; assumption|discriminate].
Qed.

(** ** [URLSearchParams] after [buildQuery] *)

Lemma mapM_encode_pair_decode params pairs :
  params_code_units params = true -> mapM encode_pair params = Ok pairs ->
  Forall plain_pair pairs /\ map decode_pair pairs = map pair_strings params.
Proof.
  revert pairs. induction params as [|[k v] params IH]; intros pairs R H.
  - injection H as <-. split; [constructor|reflexivity].
  - simpl in R. apply andb_true_iff in R as [Rkv R].
    apply andb_true_iff in Rkv as [Rk Rv].
    cbn [mapM] in H. apply bind_Ok_inv in H as ([ek ev] & Hp & H).
    apply bind_Ok_inv in H as (pairs' & Hps & [= <-]).
    destruct (IH pairs' R Hps) as [F E].
    unfold encode_pair in Hp. apply bind_Ok_inv in Hp as (ek' & Hk & Hp).
    apply bind_Ok_inv in Hp as (ev' & Hv & [= <- <-]).
    split.
    + constructor; [|exact F].
      split; eapply encodePercent_plain; eassumption.
    + cbn [map decode_pair pair_strings]. rewrite E. f_equal.
      rewrite encodePercent_spec in Hk, Hv.
      rewrite (decode_component _ _ Rk Hk), (decode_component _ _ Rv Hv).
      reflexivity.
Qed.

Lemma plain_pair_render p :
  plain_pair p ->
  forallb query_unit (render_pair p) = true /\ ~ In 38 (render_pair p)
  /\ render_pair p <> [].
Proof.
  destruct p as [k v]. intros [Hk Hv]. cbn [fst snd] in *. unfold render_pair.
  assert (Q : forall s, forallb plain s = true -> forallb query_unit s = true).
  { intros s. apply forallb_impl. intros c Hc. unfold query_unit.
    rewrite Hc. reflexivity. }
  change (k ++ lit "=" ++ v) with (k ++ 61 :: v).
  split; [|split].
  - rewrite forallb_app, (Q k Hk). cbn [forallb]. rewrite (Q v Hv).
    reflexivity.
  - intros Hin. apply in_app_or in Hin as [Hin|[Hin|Hin]].
    + exact (plain_not_In 38 k eq_refl Hk Hin).
    + discriminate Hin.
    + exact (plain_not_In 38 v eq_refl Hv Hin).
  - destruct k; discriminate.
Qed.

Lemma urlencoded_parse_segment p :
  plain_pair p ->
  (fun bytes : list N =>
     match bytes with
     | [] => []
     | _ =>
         let '(name, v) := split_name_value bytes in
         [(utf8_decode_without_BOM (percent_decode (plus_to_space name)),
           utf8_decode_without_BOM (percent_decode (plus_to_space v)))]
     end) (render_pair p) = [decode_pair p].
Proof.
  destruct p as [k v]. intros [Hk _]. cbn [fst] in Hk. cbv beta.
  unfold render_pair.
  change (k ++ lit "=" ++ v) with (k ++ 61 :: v).
  pose proof (split_name_value_app k v (plain_not_In 61 k eq_refl Hk)) as E.
  destruct (k ++ 61 :: v) eqn:K; [destruct k; discriminate|].
  rewrite E. reflexivity.
Qed.

Lemma urlencoded_parse_join pairs :
  Forall plain_pair pairs ->
  urlencoded_parse (join (lit "&") (map render_pair pairs))
  = map decode_pair pairs.
Proof.
  intros F. unfold urlencoded_parse.
  destruct pairs as [|p pairs]; [reflexivity|].
  change (lit "&") with [38].
  rewrite split_on_join.
  - induction F as [|q qs Hq _ IH]; [reflexivity|].
    cbn [map flat_map]. rewrite urlencoded_parse_segment by exact Hq.
    rewrite IH. reflexivity.
  - discriminate.
  - apply Forall_forall. intros s Hs. apply in_map_iff in Hs as (q & <- & Hq).
    rewrite Forall_forall in F. exact (proj1 (proj2 (plain_pair_render q (F q Hq)))).
Qed.

Lemma join_query_units pairs :
  Forall plain_pair pairs ->
  forallb query_unit (join (lit "&") (map render_pair pairs)) = true.
Proof.
  induction 1 as [|p pairs Hp F IH]; [reflexivity|].
  destruct pairs as [|p' pairs].
  - exact (proj1 (plain_pair_render p Hp)).
  - change (join (lit "&") (map render_pair (p :: p' :: pairs)))
      with (render_pair p ++ lit "&" ++ join (lit "&") (map render_pair (p' :: pairs))).
    rewrite !forallb_app, (proj1 (plain_pair_render p Hp)), IH. reflexivity.
Qed.

Lemma query_units_ascii s : forallb query_unit s = true -> ascii_only s = true.
Proof.
  apply forallb_impl. intros c H. apply query_unit_cases in H as [H|[->| ->]];
    [|reflexivity|reflexivity].
  assert (P : forallb plain [c] = true) by (simpl; rewrite H; reflexivity).
  apply plain_ascii in P. simpl in P. rewrite andb_true_r in P. exact P.
Qed.

Lemma URLSearchParams_query_units q :
  forallb query_unit q = true -> URLSearchParams q = urlencoded_parse q.
Proof.
  intros H. unfold URLSearchParams.
  rewrite <- (utf8_encode_ascii q (query_units_ascii q H)) at 2.
  destruct q as [|c s]; [reflexivity|].
  rewrite strip_question_mark; [reflexivity|].
  simpl in H. apply andb_true_iff in H as [Hc _]. intros ->. discriminate Hc.
Qed.

Lemma buildQuery_pairs params q :
  buildQuery params = Ok q ->
  exists pairs, mapM encode_pair params = Ok pairs
                /\ q = join (lit "&") (map render_pair pairs).
Proof.
  rewrite buildQuery_eq. intros H. apply bind_Ok_inv in H as (pairs & Hp & [= <-]).
  exists pairs. split; [exact Hp|reflexivity].
Qed.

Lemma URLSearchParams_buildQuery_eq params q :
  params_code_units params = true -> buildQuery params = Ok q ->
  URLSearchParams q = map pair_strings params
  /\ forallb query_unit q = true.
Proof.
  intros R H. apply buildQuery_pairs in H as (pairs & Hp & ->).
  destruct (mapM_encode_pair_decode params pairs R Hp) as [F E].
  pose proof (join_query_units pairs F) as Q. split; [|exact Q].
  rewrite URLSearchParams_query_units by exact Q.
  rewrite urlencoded_parse_join by exact F. exact E.
Qed.

(** X1: [stringify(parse(s))] of src/encoding/uint8array.js gives back
    every string without an unpaired surrogate, except that a leading
    U+FEFF is dropped, the decoder taking it for a byte order mark. *)
Theorem stringify_parse_round_trip (s : jsstring) :
  code_units s = true -> isWellFormed s = true ->
  stringifyUint8Array (parseUint8Array s)
  = match s with
    | c :: s' => if c =? 0xFEFF then s' else s
    | [] => s
    end.
Proof. apply stringify_parse. Qed.

Lemma stringify_parse_round_trip_witness :
  stringifyUint8Array (parseUint8Array [0xFEFF; 0x61; 0xD83D; 0xDE00])
  = [0x61; 0xD83D; 0xDE00]
  /\ stringifyUint8Array (parseUint8Array [0x61; 0xFEFF; 0x20AC])
     = [0x61; 0xFEFF; 0x20AC].
Proof.
  split.
  - apply (stringify_parse_round_trip [0xFEFF; 0x61; 0xD83D; 0xDE00]);
      reflexivity.
  - apply (stringify_parse_round_trip [0x61; 0xFEFF; 0x20AC]); reflexivity.
Defined.

(** X2: the query string that [buildQuery] writes is read back by
    [URLSearchParams] as the very pairs it was built from, in order and
    with repetitions, whatever characters they hold; and it is made of
    unreserved characters, [%], [=] and [&] only. *)
Theorem URLSearchParams_buildQuery (params : list param) (q : jsstring) :
  params_code_units params = true -> buildQuery params = Ok q ->
  URLSearchParams q = map pair_strings params
  /\ forallb query_unit q = true.
Proof. apply URLSearchParams_buildQuery_eq. Qed.

Lemma URLSearchParams_buildQuery_witness :
  exists q,
    buildQuery [(VString (lit "a b&c"), VString [0x3D; 0xD83D; 0xDE00; 0x2B]);
                (VString [], VNumber (-7));
                (VString (lit "a b&c"), VNull)] = Ok q
    /\ URLSearchParams q
       = [(lit "a b&c", [0x3D; 0xD83D; 0xDE00; 0x2B]); ([], lit "-7");
          (lit "a b&c", lit "null")].
Proof.
  eexists. split; [reflexivity|].
  apply (URLSearchParams_buildQuery
           [(VString (lit "a b&c"), VString [0x3D; 0xD83D; 0xDE00; 0x2B]);
            (VString [], VNumber (-7));
            (VString (lit "a b&c"), VNull)]); reflexivity.
Defined.

(** ** [generateAuthURL] *)

Lemma generateAuthURL_eq authURL o this :
  generateAuthURL authURL o this
  = (q <- buildQuery ((VString (lit "oauth_token"), token this)
                        :: default [] (params o)) ;;
     Ok (authURL ++ lit "?" ++ q)).
Proof.
  unfold generateAuthURL, buildQuery.
  destruct (mapM _ _); reflexivity.
Qed.

Lemma buildQuery_cons k v ps q :
  buildQuery ((VString k, v) :: ps) = Ok q ->
  forallb unreserved k = true ->
  exists t rest,
    encodePercent v = Ok t /\ q = k ++ lit "=" ++ t ++ rest
    /\ (ps = [] -> rest = [])
    /\ (ps <> [] -> exists q', buildQuery ps = Ok q' /\ rest = lit "&" ++ q').
Proof.
  intros H Hk. apply buildQuery_pairs in H as (pairs & Hp & ->).
  cbn [mapM] in Hp. rewrite encode_pair_key in Hp by exact Hk.
  apply bind_Ok_inv in Hp as (p & Hv & Hp).
  apply bind_Ok_inv in Hv as (t & Ht & [= <-]).
  apply bind_Ok_inv in Hp as (pairs' & Hps & [= <-]).
  exists t. destruct ps as [|p ps].
  - injection Hps as <-. exists []. repeat split; try assumption.
    + cbn [map join render_pair]. rewrite app_nil_r. reflexivity.
    + intros C. contradiction.
  - destruct pairs' as [|p' pairs'].
    { cbn [mapM] in Hps. apply bind_Ok_inv in Hps as (? & _ & Hps).
      apply bind_Ok_inv in Hps as (? & _ & Hps). discriminate. }
    exists (lit "&" ++ join (lit "&") (map render_pair (p' :: pairs'))).
    repeat split; try assumption.
    + change (join (lit "&") (map render_pair ((k, t) :: p' :: pairs')))
        with ((k ++ lit "=" ++ t) ++ lit "&"
              ++ join (lit "&") (map render_pair (p' :: pairs'))).
      rewrite <- !app_assoc. reflexivity.
    + discriminate.
    + intros _. eexists. split; [|reflexivity].
      rewrite buildQuery_eq, Hps. reflexivity.
Qed.

Lemma skipn_app_cons {A} (a : list A) (x : A) (b : list A) :
  skipn (List.length a + 1) (a ++ x :: b) = b.
Proof.
  induction a as [|y a IH]; [reflexivity|]. exact IH.
Qed.

(** X3: [generateAuthURL] returns the authorization URL, [?oauth_token=],
    the percent-encoded token and, when parameters are given, [&] and
    their query string; what follows the [?] parses back to the token and
    the parameters.  Before any token is set the token value is empty,
    and after a response that had no [oauth_token] it is the text
    [null].  It throws only [URIError], and only on ill-formed text. *)
Theorem generateAuthURL_shape (authURL : jsstring) (o : options) (this : OAuth) :
  let ps := default [] (params o) in
  (forall u, generateAuthURL authURL o this = Ok u ->
     exists t rest,
       encodePercent (token this) = Ok t
       /\ u = authURL ++ lit "?oauth_token=" ++ t ++ rest
       /\ (ps = [] -> rest = [])
       /\ (ps <> [] -> exists q, buildQuery ps = Ok q /\ rest = lit "&" ++ q)
       /\ (code_units (ToString (token this)) = true ->
           params_code_units ps = true ->
           URLSearchParams (skipn (List.length authURL + 1) u)
           = (lit "oauth_token", ToString (token this)) :: map pair_strings ps))
  /\ (value_wf (token this) = true -> params_wf ps = true ->
      exists u, generateAuthURL authURL o this = Ok u)
  /\ (forall e, generateAuthURL authURL o this = Throw e -> e = URIError)
  /\ (token this = VString [] -> ps = [] ->
      generateAuthURL authURL o this = Ok (authURL ++ lit "?oauth_token="))
  /\ (token this = VNull -> ps = [] ->
      generateAuthURL authURL o this = Ok (authURL ++ lit "?oauth_token=null")).
Proof.
  intros ps. rewrite generateAuthURL_eq. fold ps.
  split; [|split; [|split; [|split]]].
  - intros u H. apply bind_Ok_inv in H as (q & Hq & [= <-]).
    destruct (buildQuery_cons _ _ _ _ Hq eq_refl) as (t & rest & Ht & -> & H1 & H2).
    exists t, rest. split; [exact Ht|]. split.
    { change (lit "?oauth_token=") with (lit "?" ++ lit "oauth_token=").
      rewrite <- !app_assoc. reflexivity. }
    split; [exact H1|]. split; [exact H2|].
    intros Rt Rps. change (lit "?") with [63]. cbn [app].
    rewrite skipn_app_cons.
    apply (URLSearchParams_buildQuery_eq
             ((VString (lit "oauth_token"), token this) :: ps)); [|exact Hq].
    cbn [params_code_units forallb]. cbn [ToString]. rewrite Rt.
    exact Rps.
  - intros Wt Wps.
    destruct (buildQuery_total ((VString (lit "oauth_token"), token this) :: ps))
      as [q ->]; [|eexists; reflexivity].
    cbn [params_wf forallb]. rewrite Wt. exact Wps.
  - intros e H. apply bind_Throw_inv in H as [H|(q & _ & H)]; [|discriminate].
    apply buildQuery_Throw in H. tauto.
  - intros -> ->. reflexivity.
  - intros -> ->. reflexivity.
Qed.

Lemma generateAuthURL_shape_witness :
  generateAuthURL (lit "https://example.com/authorize") no_options sample_client
  = Ok (lit "https://example.com/authorize?oauth_token=")
  /\ exists u,
       generateAuthURL (lit "https://example.com/authorize")
         {| method := None;
            params := Some [(VString (lit "lang"), VString (lit "en us"))];
            oAuthParams := None; contentType := None;
            bodyValue := BodyUndefined; callbackURL := None |}
         (setToken (VString (lit "T/1")) (VString (lit "S")) sample_client)
       = Ok u
       /\ URLSearchParams
            (skipn (List.length (lit "https://example.com/authorize") + 1) u)
          = [(lit "oauth_token", lit "T/1"); (lit "lang", lit "en us")].
Proof.
  split.
  - apply (generateAuthURL_shape (lit "https://example.com/authorize")
             no_options sample_client); reflexivity.
  - destruct (generateAuthURL_shape (lit "https://example.com/authorize")
                {| method := None;
                   params := Some [(VString (lit "lang"), VString (lit "en us"))];
                   oAuthParams := None; contentType := None;
                   bodyValue := BodyUndefined; callbackURL := None |}
                (setToken (VString (lit "T/1")) (VString (lit "S")) sample_client))
      as (Hinv & Htotal & _).
    destruct Htotal as [u Hu]; try reflexivity.
    exists u. split; [exact Hu|].
    destruct (Hinv u Hu) as (t & rest & _ & _ & _ & _ & Hparse).
    apply Hparse; reflexivity.
Defined.

(** ** The nonce *)

Lemma getNonce_eq e : getNonce e = encodeHex (map Byte.to_N (random_values e)).
Proof.
  unfold getNonce, stringifyHex, stringifyUint8Array.
  apply TextDecoder_decode_ascii, plain_ascii, unreserved_plain.
  apply encodeHex_unreserved. apply Forall_forall. intros b Hb.
  apply in_map_iff in Hb as (x & <- & _).
  pose proof (Byte.to_N_bounded x). lia.
Qed.

Lemma encodeHex_length bs : List.length (encodeHex bs) = (2 * List.length bs)%nat.
Proof.
  induction bs as [|b bs IH]; [reflexivity|].
  unfold encodeHex in *. cbn [flat_map app List.length]. rewrite IH. lia.
Qed.

Lemma encodeHex_lower_hex bs :
  Forall (fun b => b < 256) bs -> forallb is_lower_hex (encodeHex bs) = true.
Proof.
  induction 1 as [|b bs Hb _ IH]; [reflexivity|].
  unfold encodeHex in *. cbn [flat_map app forallb]. rewrite IH.
  assert (D : forall d, d < 16 -> is_lower_hex (hex_digit false d) = true).
  { intros d Hd. unfold is_lower_hex, hex_digit. cmp_cases. }
  rewrite !D by lia. reflexivity.
Qed.

Lemma hex_digit_inj up d d' :
  d < 16 -> d' < 16 -> hex_digit up d = hex_digit up d' -> d = d'.
Proof.
  intros H H' E. pose proof (hex_value_digit up d H) as V.
  rewrite E, (hex_value_digit up d' H') in V. congruence.
Qed.

Lemma encodeHex_inj bs bs' :
  Forall (fun b => b < 256) bs -> Forall (fun b => b < 256) bs' ->
  encodeHex bs = encodeHex bs' -> bs = bs'.
Proof.
  intros F. revert bs'. induction F as [|b bs Hb _ IH]; intros bs' F' E.
  - destruct bs'; [reflexivity|discriminate].
  - destruct F' as [|b' bs' Hb' F']; [discriminate|].
    unfold encodeHex in E. cbn [flat_map app] in E.
    injection E as E1 E2 E3.
    apply hex_digit_inj in E1; [|lia|lia].
    apply hex_digit_inj in E2; [|lia|lia].
    f_equal; [lia|]. apply IH; assumption.
Qed.

Lemma bytes_bounded l : Forall (fun b => b < 256) (map Byte.to_N l).
Proof.
  apply Forall_forall. intros b Hb. apply in_map_iff in Hb as (x & <- & _).
  pose proof (Byte.to_N_bounded x). lia.
Qed.

Lemma map_to_N_inj l l' : map Byte.to_N l = map Byte.to_N l' -> l = l'.
Proof.
  revert l'. induction l as [|x l IH]; intros [|x' l']; try discriminate;
    [reflexivity|].
  intros [= E1 E2]. f_equal; [|apply IH; exact E2].
  pose proof (Byte.of_to_N x) as P. rewrite E1, Byte.of_to_N in P. congruence.
Qed.

(** X4: the nonce has two characters per random octet, 32 for the 16
    octets the platform supplies, all of them digits or [a]-[f]; and two
    calls give the same nonce only when the random octets are the same. *)
Theorem getNonce_hex (e : env) :
  List.length (getNonce e) = (2 * List.length (random_values e))%nat
  /\ forallb is_lower_hex (getNonce e) = true
  /\ (forall e', getNonce e = getNonce e' -> random_values e = random_values e')
  /\ encodePercent (VString (getNonce e)) = Ok (getNonce e).
Proof.
  rewrite getNonce_eq. split; [|split; [|split]].
  - rewrite encodeHex_length, length_map. reflexivity.
  - apply encodeHex_lower_hex, bytes_bounded.
  - intros e'. rewrite getNonce_eq. intros E.
    apply map_to_N_inj, encodeHex_inj; [apply bytes_bounded..|exact E].
  - rewrite <- getNonce_eq. apply encodePercent_unreserved, getNonce_unreserved.
Qed.

(** ** The state of the client *)

Lemma setToken_consumer t s this :
  consumerKey (setToken t s this) = consumerKey this
  /\ consumerSecret (setToken t s this) = consumerSecret this
  /\ token (setToken t s this) <> VUndefined
  /\ tokenSecret (setToken t s this) <> VUndefined.
Proof. destruct t, s; repeat split; discriminate. Qed.

Lemma after_cases toUpperCase hmacSHA1 JSON_stringify c this :
  after toUpperCase hmacSHA1 JSON_stringify c this = this
  \/ exists t s, after toUpperCase hmacSHA1 JSON_stringify c this
                 = setToken t s this.
Proof.
  destruct c as [t s|u o e|r|u o|u v o e|r|u o e]; cbn [after].
  - right. eauto.
  - right. exists VUndefined, VUndefined. reflexivity.
  - unfold getRequestTokenParamsFrom. destruct (negb (ok r)); [left; reflexivity|].
    destruct (negb (truthy _)); [left; reflexivity|right]. cbn [snd]. eauto.
  - left. reflexivity.
  - left. reflexivity.
  - unfold getAccessTokenParamsFrom. destruct (negb (ok r)); [left; reflexivity|].
    right. cbn [snd]. eauto.
  - left. reflexivity.
Qed.

(** X5: whatever public methods are called on a client, in whatever
    order and whether they return or throw, its consumer key and consumer
    secret stay those given to the constructor, and its token and token
    secret are never [undefined].  A call changes the token or the token
    secret only if it is [setToken], [makeRequestForRequestToken], a
    [getRequestTokenParamsFrom] on an [ok] response with a confirmed
    callback, or a [getAccessTokenParamsFrom] on an [ok] response. *)
Theorem client_invariant
    (toUpperCase : jsstring -> jsstring)
    (hmacSHA1 : list N -> list N -> list N)
    (JSON_stringify : body_value -> jsstring)
    (consumerKey0 consumerSecret0 : value) (calls : list call) :
  let this := after_all toUpperCase hmacSHA1 JSON_stringify calls
                (new_OAuth consumerKey0 consumerSecret0) in
  (consumerKey this = consumerKey0 /\ consumerSecret this = consumerSecret0
   /\ token this <> VUndefined /\ tokenSecret this <> VUndefined)
  /\ (forall c,
        after toUpperCase hmacSHA1 JSON_stringify c this <> this ->
        match c with
        | SetToken _ _ | MakeRequestForRequestToken _ _ _ => True
        | GetRequestTokenParamsFrom r =>
            ok r = true
            /\ truthy (URLSearchParams_get (URLSearchParams (text r))
                         (lit "oauth_callback_confirmed")) = true
        | GetAccessTokenParamsFrom r => ok r = true
        | GenerateAuthURL _ _ | MakeRequestForAccessToken _ _ _ _
        | MakeRequestForResource _ _ _ => False
        end).
Proof.
  intros this. split.
  - subst this. unfold after_all.
    assert (G : forall st,
               consumerKey st = consumerKey0 /\ consumerSecret st = consumerSecret0
               /\ token st <> VUndefined /\ tokenSecret st <> VUndefined ->
               let st' := fold_left
                            (fun st c => after toUpperCase hmacSHA1 JSON_stringify c st)
                            calls st in
               consumerKey st' = consumerKey0 /\ consumerSecret st' = consumerSecret0
               /\ token st' <> VUndefined /\ tokenSecret st' <> VUndefined).
    { induction calls as [|c calls IH]; intros st I; [exact I|].
      cbn [fold_left]. apply IH.
      destruct (after_cases toUpperCase hmacSHA1 JSON_stringify c st)
        as [->|(t & s & ->)]; [exact I|].
      destruct I as (I1 & I2 & _ & _).
      destruct (setToken_consumer t s st) as (S1 & S2 & S3 & S4).
      rewrite S1, S2. auto. }
    apply G. cbn. repeat split; discriminate.
  - intros c H. destruct c as [t s|u o e|r|u o|u v o e|r|u o e];
      cbn [after] in H; try exact I; try (apply H; reflexivity).
    + unfold getRequestTokenParamsFrom in H.
      destruct (ok r); cbn [negb] in H; [|exfalso; apply H; reflexivity].
      destruct (truthy _); cbn [negb] in H; [|exfalso; apply H; reflexivity].
      split; reflexivity.
    + unfold getAccessTokenParamsFrom in H.
      destruct (ok r); cbn [negb] in H; [reflexivity|].
      exfalso. apply H. reflexivity.
Qed.

(** X6: once the response is [ok], what decides is the first
    [oauth_callback_confirmed] of the body: with an empty value the call
    throws "Unconfirmed callback" and leaves the client as it was, and
    with any other value, [false] included, it returns and sets the
    token. *)
Theorem callback_confirmation (response : Response) (this : OAuth)
    (l1 l2 : list (jsstring * jsstring)) (v : jsstring) :
  ok response = true ->
  URLSearchParams (text response)
  = l1 ++ (lit "oauth_callback_confirmed", v) :: l2 ->
  (forall w, ~ In (lit "oauth_callback_confirmed", w) l1) ->
  (v = [] ->
   getRequestTokenParamsFrom response this
   = (Throw (OAuthError "Unconfirmed callback"), this))
  /\ (v <> [] ->
      getRequestTokenParamsFrom response this
      = (Ok (URLSearchParams (text response)),
         setToken
           (URLSearchParams_get (URLSearchParams (text response))
              (lit "oauth_token"))
           (URLSearchParams_get (URLSearchParams (text response))
              (lit "oauth_token_secret"))
           this)).
Proof.
  intros Hok E Habs.
  assert (G : URLSearchParams_get (URLSearchParams (text response))
                (lit "oauth_callback_confirmed") = VString v).
  { rewrite E. apply URLSearchParams_get_first. exact Habs. }
  unfold getRequestTokenParamsFrom. rewrite Hok, G. cbn [negb].
  split.
  - intros ->. reflexivity.
  - intros Hv. destruct v as [|c v]; [contradiction|]. reflexivity.
Qed.

Lemma callback_confirmation_witness :
  getRequestTokenParamsFrom
    {| ok := true;
       text := lit "oauth_token=T&oauth_callback_confirmed=&oauth_token_secret=S" |}
    sample_client
  = (Throw (OAuthError "Unconfirmed callback"), sample_client)
  /\ fst (getRequestTokenParamsFrom
            {| ok := true;
               text := lit "oauth_callback_confirmed=false&oauth_token=T" |}
            sample_client)
     = Ok [(lit "oauth_callback_confirmed", lit "false"); (lit "oauth_token", lit "T")].
Proof.
  split.
  - apply (callback_confirmation
             {| ok := true;
                text := lit "oauth_token=T&oauth_callback_confirmed=&oauth_token_secret=S" |}
             sample_client [(lit "oauth_token", lit "T")]
             [(lit "oauth_token_secret", lit "S")] []);
      [reflexivity|reflexivity| |reflexivity].
    intros w [H|[]]. discriminate H.
  - rewrite (proj2 (callback_confirmation
             {| ok := true;
                text := lit "oauth_callback_confirmed=false&oauth_token=T" |}
             sample_client [] [(lit "oauth_token", lit "T")] (lit "false")
             eq_refl eq_refl (fun w H => H))); [reflexivity|discriminate].
Defined.

(** ** What the encodings determine *)

(** X7: two strings with the same percent-encoding are the same string. *)
Theorem encodeURIComponentRFC3986_injective (s1 s2 e : jsstring) :
  code_units s1 = true -> code_units s2 = true ->
  encodeURIComponentRFC3986 (VString s1) = Ok e ->
  encodeURIComponentRFC3986 (VString s2) = Ok e ->
  s1 = s2.
Proof.
  intros R1 R2 E1 E2.
  destruct (decode_encode_wf s1 R1 (encodePercent_Ok_wf _ _ E1)) as (e1 & H1 & D1).
  destruct (decode_encode_wf s2 R2 (encodePercent_Ok_wf _ _ E2)) as (e2 & H2 & D2).
  rewrite E1 in H1. rewrite E2 in H2. injection H1 as <-. injection H2 as <-.
  congruence.
Qed.

Lemma encodeURIComponentRFC3986_injective_witness :
  [0x61; 0x2F; 0xD83D; 0xDE00] = [0x61; 0x2F; 0xD83D; 0xDE00].
Proof.
  apply (encodeURIComponentRFC3986_injective
           [0x61; 0x2F; 0xD83D; 0xDE00] [0x61; 0x2F; 0xD83D; 0xDE00]
           (lit "a%2F%F0%9F%98%80")); reflexivity.
Defined.

Lemma encode_pair_strings p : encode_pair p = encode_pair (as_strings p).
Proof. destruct p as [k v]. reflexivity. Qed.

Lemma mapM_map {A B C} (f : B -> result C) (g : A -> B) l :
  mapM f (map g l) = mapM (fun a => f (g a)) l.
Proof.
  induction l as [|a l IH]; [reflexivity|]. simpl. rewrite IH. reflexivity.
Qed.

Lemma mapM_encode_pair_strings l :
  mapM encode_pair l = mapM encode_pair (map as_strings l).
Proof. rewrite mapM_map. apply mapM_ext. exact encode_pair_strings. Qed.

Lemma as_strings_Permutation l l' :
  Permutation (map pair_strings l) (map pair_strings l') ->
  Permutation (map as_strings l) (map as_strings l').
Proof.
  intros P.
  apply (Permutation_map (fun p : jsstring * jsstring =>
                            (VString (fst p), VString (snd p)))) in P.
  rewrite !map_map in P.
  assert (E : forall x : param,
             (VString (fst (pair_strings x)), VString (snd (pair_strings x)))
             = as_strings x) by (intros [k v]; reflexivity).
  rewrite (map_ext _ _ E l), (map_ext _ _ E l') in P. exact P.
Qed.

(** Lists with the same strings, in any order, have the same canonical
    parameter string, or both have none. *)
Lemma paramsString_strings l1 l2 l3 l1' l2' l3' :
  Permutation (map pair_strings (l1 ++ l2 ++ l3))
              (map pair_strings (l1' ++ l2' ++ l3')) ->
  paramsString l1 l2 l3 = paramsString l1' l2' l3'.
Proof.
  intros P. apply as_strings_Permutation in P.
  rewrite !paramsString_eq.
  rewrite (mapM_encode_pair_strings (l1 ++ l2 ++ l3)),
          (mapM_encode_pair_strings (l1' ++ l2' ++ l3')).
  pose proof (mapM_encode_pair_Permutation _ _ P) as H.
  destruct (mapM encode_pair (map as_strings (l1 ++ l2 ++ l3))) as [r|e],
           (mapM encode_pair (map as_strings (l1' ++ l2' ++ l3'))) as [r'|e'];
    try contradiction.
  - simpl. do 3 f_equal.
    apply (sort_Permutation compare_params params_le_total params_le_antisym
             params_le_trans). exact H.
  - simpl. f_equal. exact H.
Qed.

Lemma mapM_length {A B} (f : A -> result B) l r :
  mapM f l = Ok r -> List.length r = List.length l.
Proof.
  revert r. induction l as [|a l IH]; intros r H.
  - injection H as <-. reflexivity.
  - cbn [mapM] in H. apply bind_Ok_inv in H as (b & _ & H).
    apply bind_Ok_inv in H as (bs & Hbs & [= <-]).
    cbn [List.length]. rewrite (IH bs Hbs). reflexivity.
Qed.

Lemma mapM_encode_pair_plain l pairs :
  mapM encode_pair l = Ok pairs -> Forall plain_pair pairs.
Proof.
  intros H. apply Forall_forall. intros [ek ev] Hin.
  destruct (mapM_Ok_In _ _ _ H _ Hin) as ([k v] & _ & Hp).
  unfold encode_pair in Hp. apply bind_Ok_inv in Hp as (ek' & Hk & Hp).
  apply bind_Ok_inv in Hp as (ev' & Hv & [= <- <-]).
  split; eapply encodePercent_plain; eassumption.
Qed.

Lemma paramsString_parse l1 l2 l3 ps :
  params_code_units (l1 ++ l2 ++ l3) = true ->
  paramsString l1 l2 l3 = Ok ps ->
  Permutation (urlencoded_parse ps) (map pair_strings (l1 ++ l2 ++ l3))
  /\ forallb query_unit ps = true.
Proof.
  intros R H. rewrite paramsString_eq in H.
  apply bind_Ok_inv in H as (encoded & He & [= <-]).
  destruct (mapM_encode_pair_decode _ _ R He) as [F E].
  assert (Fs : Forall plain_pair (sort compare_params encoded)).
  { apply Forall_forall. intros p Hp.
    apply (Permutation_in _ (sort_perm compare_params encoded)) in Hp.
    rewrite Forall_forall in F. exact (F p Hp). }
  split.
  - change (join (lit "&")
              (map (fun '(key, value) => key ++ lit "=" ++ value)
                 (sort compare_params encoded)))
      with (join (lit "&") (map render_pair (sort compare_params encoded))).
    rewrite urlencoded_parse_join by exact Fs. rewrite <- E.
    apply Permutation_map, sort_perm.
  - exact (join_query_units _ Fs).
Qed.

(** X8: two requests have the same canonical parameter string exactly
    when their pairs, taken as strings, are the same up to order; the
    string is made of unreserved characters, [%], [=] and [&] only. *)
Theorem paramsString_same_iff
    (l1 l2 l3 l1' l2' l3' : list param) (ps ps' : jsstring) :
  params_code_units (l1 ++ l2 ++ l3) = true ->
  params_code_units (l1' ++ l2' ++ l3') = true ->
  paramsString l1 l2 l3 = Ok ps -> paramsString l1' l2' l3' = Ok ps' ->
  (ps = ps' <->
   Permutation (map pair_strings (l1 ++ l2 ++ l3))
               (map pair_strings (l1' ++ l2' ++ l3')))
  /\ forallb query_unit ps = true.
Proof.
  intros R R' H H'.
  destruct (paramsString_parse _ _ _ _ R H) as [P Q].
  destruct (paramsString_parse _ _ _ _ R' H') as [P' _].
  split; [|exact Q]. split.
  - intros <-. rewrite <- P. exact P'.
  - intros Perm. pose proof (paramsString_strings _ _ _ _ _ _ Perm) as E.
    congruence.
Qed.

Lemma paramsString_same_iff_witness :
  Permutation
    (map pair_strings ([(VString (lit "b"), VNumber 2)]
                       ++ [(VString (lit "a"), VString (lit "x y"))] ++ []))
    (map pair_strings ([] ++ [(VString (lit "a"), VString (lit "x y"))]
                       ++ [(VString (lit "b"), VString (lit "2"))])).
Proof.
  apply (paramsString_same_iff
           [(VString (lit "b"), VNumber 2)]
           [(VString (lit "a"), VString (lit "x y"))] []
           [] [(VString (lit "a"), VString (lit "x y"))]
           [(VString (lit "b"), VString (lit "2"))]
           (lit "a=x%20y&b=2") (lit "a=x%20y&b=2")); reflexivity.
Defined.

(** X9: the signature is the same for two calls whose pairs, taken from
    the query parameters, the OAuth parameters and the body together, are
    the same strings up to order; so is the exception when there is no
    signature. *)
Theorem getSignature_order_independent
    (toUpperCase : jsstring -> jsstring)
    (hmacSHA1 : list N -> list N -> list N)
    (this : OAuth) (method requestURL : jsstring)
    (params oAuthParams params' oAuthParams' : list param)
    (bodyParams bodyParams' : body_value) (bp bp' : list param) :
  spread bodyParams = Ok bp -> spread bodyParams' = Ok bp' ->
  Permutation (map pair_strings (params ++ oAuthParams ++ bp))
              (map pair_strings (params' ++ oAuthParams' ++ bp')) ->
  getSignature toUpperCase hmacSHA1 this method requestURL params oAuthParams
    bodyParams
  = getSignature toUpperCase hmacSHA1 this method requestURL params'
      oAuthParams' bodyParams'.
Proof.
  intros S S' P. unfold getSignature. rewrite S, S'. cbn [bind].
  rewrite (paramsString_strings _ _ _ _ _ _ P). reflexivity.
Qed.

Lemma getSignature_order_independent_witness :
  getSignature ascii_toUpperCase sample_hmac sample_client (lit "post")
    (lit "https://example.com/r")
    [(VString (lit "z"), VNumber 1)]
    [(VString (lit "oauth_version"), VString (lit "1.0"))]
    (BodyParams [(VString (lit "a"), VString (lit "1"))])
  = getSignature ascii_toUpperCase sample_hmac sample_client (lit "post")
      (lit "https://example.com/r")
      [] [(VString (lit "oauth_version"), VString (lit "1.0"))]
      (BodyParams [(VString (lit "a"), VNumber 1);
                   (VString (lit "z"), VString (lit "1"))]).
Proof.
  eapply getSignature_order_independent; [reflexivity|reflexivity|].
  apply Permutation_cons_app with (l1 := [_; _]) (l2 := []). reflexivity.
Defined.

(** ** The characters of the [Authorization] header *)

Lemma header_unit_plain s :
  forallb plain s = true ->
  forallb header_unit s = true /\ count_occ N.eq_dec s dquote = 0%nat.
Proof.
  intros H. split.
  - revert H. apply forallb_impl. intros c Hc. unfold header_unit.
    rewrite Hc. reflexivity.
  - apply count_occ_not_In. apply (plain_not_In dquote s eq_refl H).
Qed.

Lemma render_credential_units p :
  plain_pair p ->
  forallb header_unit (render_credential p) = true
  /\ count_occ N.eq_dec (render_credential p) dquote = 2%nat.
Proof.
  destruct p as [k v]. intros [Hk Hv]. cbn [fst snd] in *.
  destruct (header_unit_plain k Hk) as [Uk Ck].
  destruct (header_unit_plain v Hv) as [Uv Cv].
  unfold render_credential.
  change (k ++ lit "=" ++ [dquote] ++ v ++ [dquote])
    with (k ++ [61; dquote] ++ v ++ [dquote]).
  split.
  - rewrite !forallb_app, Uk, Uv. reflexivity.
  - rewrite !count_occ_app, Ck, Cv. reflexivity.
Qed.

Lemma credentials_units pairs :
  Forall plain_pair pairs ->
  forallb header_unit (join (lit ", ") (map render_credential pairs)) = true
  /\ count_occ N.eq_dec (join (lit ", ") (map render_credential pairs)) dquote
     = (2 * List.length pairs)%nat.
Proof.
  induction 1 as [|p pairs Hp F [IH1 IH2]]; [split; reflexivity|].
  destruct (render_credential_units p Hp) as [U C].
  destruct pairs as [|p' pairs].
  - cbn [map join List.length]. split; [exact U|rewrite C; reflexivity].
  - change (join (lit ", ") (map render_credential (p :: p' :: pairs)))
      with (render_credential p ++ lit ", "
            ++ join (lit ", ") (map render_credential (p' :: pairs))).
    split.
    + rewrite !forallb_app, U, IH1. reflexivity.
    + rewrite !count_occ_app, C, IH2. cbn [List.length].
      change (count_occ N.eq_dec (lit ", ") dquote) with 0%nat. lia.
Qed.

Lemma header_unit_bound c : header_unit c = true -> 32 <= c <= 126.
Proof.
  unfold header_unit, plain, mem_lit, dquote. simpl. intros H.
  destruct (unreserved c) eqn:U; [apply unreserved_bound in U; lia|].
  simpl in H. revert H. cmp_cases.
Qed.

(** X10: whatever the OAuth parameters hold, an [Authorization] header
    value is made of unreserved characters, [%], [=], the double quote,
    the comma and the space, all of them printable ASCII, and it has two
    double quotes for each OAuth parameter and two for the signature: no
    value can end its own quotation or start a new header line. *)
Theorem authorization_header_units
    (toUpperCase : jsstring -> jsstring)
    (hmacSHA1 : list N -> list N -> list N)
    (this : OAuth) (method requestURL : jsstring)
    (params oAuthParams : list param) (bodyParams : body_value)
    (authorization : jsstring) :
  getAuthHeaderValue toUpperCase hmacSHA1 this method requestURL params
    oAuthParams bodyParams = Ok authorization ->
  forallb header_unit authorization = true
  /\ (forall c, In c authorization -> 32 <= c <= 126)
  /\ count_occ N.eq_dec authorization dquote
     = (2 * (List.length oAuthParams + 1))%nat.
Proof.
  rewrite getAuthHeaderValue_eq. intros H.
  apply bind_Ok_inv in H as (signature & _ & H).
  apply bind_Ok_inv in H as (pairs & Hp & [= <-]).
  pose proof (mapM_encode_pair_plain _ _ Hp) as F.
  destruct (credentials_units pairs F) as [U C].
  assert (L : List.length pairs = (List.length oAuthParams + 1)%nat).
  { rewrite (mapM_length _ _ _ Hp), length_app. reflexivity. }
  assert (E : header_of_pairs pairs
              = lit "OAuth " ++ join (lit ", ") (map render_credential pairs)).
  { reflexivity. }
  rewrite E. assert (A : forallb header_unit
                           (lit "OAuth " ++ join (lit ", ") (map render_credential pairs))
                         = true).
  { rewrite forallb_app, U. reflexivity. }
  split; [exact A|]. split.
  - intros c Hc. apply header_unit_bound.
    rewrite forallb_forall in A. exact (A c Hc).
  - rewrite count_occ_app, C.
    change (count_occ N.eq_dec (lit "OAuth ") dquote) with 0%nat. lia.
Qed.

Lemma authorization_header_units_witness :
  exists authorization,
    getAuthHeaderValue ascii_toUpperCase sample_hmac sample_client (lit "GET")
      (lit "http://photos.example.net/photos") photos_params photos_oAuthParams
      (BodyParams []) = Ok authorization
    /\ count_occ N.eq_dec authorization dquote = 14%nat.
Proof.
  destruct (getAuthHeaderValue ascii_toUpperCase sample_hmac sample_client
              (lit "GET") (lit "http://photos.example.net/photos")
              photos_params photos_oAuthParams (BodyParams []))
    as [authorization|] eqn:E; [|vm_compute in E; discriminate E].
  exists authorization. split; [reflexivity|].
  exact (proj2 (proj2 (authorization_header_units _ _ _ _ _ _ _ _ _ E))).
Defined.

(** ** The token exchange, step after step *)




(** ** Requests with a body *)

Lemma makeRequest_post toUpperCase hmacSHA1 JSON_stringify this requestURL o :
  str_eqb (lit "POST") (default (lit "GET") (method o))
  && body_truthy (bodyValue o) = true ->
  makeRequest toUpperCase hmacSHA1 JSON_stringify this requestURL o
  = (let contentType := default form_urlencoded (contentType o) in
     authorization <-
       getAuthHeaderValue toUpperCase hmacSHA1 this
         (default (lit "GET") (method o)) requestURL (default [] (params o))
         (default [] (oAuthParams o))
         (if str_eqb form_urlencoded contentType then bodyValue o
          else BodyParams []) ;;
     body <- buildBody JSON_stringify (bodyValue o) contentType ;;
     Ok {| url := requestURL;
           request_method := default (lit "GET") (method o);
           headers := [("Authorization"%string, authorization);
                       ("Content-Type"%string, contentType)];
           body := body |}).
Proof.
  intros H. unfold makeRequest. rewrite H. reflexivity.
Qed.

(** X12: for a POST whose body value is a list of pairs and whose content
    type is the form one, [makeRequestForResource] sends the base URL
    with no query string, the body that [buildQuery] writes for those
    pairs, which parses back to them, and the two headers
    [Authorization] and [Content-Type]; the signature covers the query
    parameters, the six OAuth parameters and the pairs of the body. *)
Theorem resource_request_form_body
    (toUpperCase : jsstring -> jsstring)
    (hmacSHA1 : list N -> list N -> list N)
    (JSON_stringify : body_value -> jsstring)
    (resourceURL : jsstring) (o : options) (e : env) (this : OAuth)
    (l : list param) (req : Request) :
  method o = Some (lit "POST") -> bodyValue o = BodyParams l ->
  default form_urlencoded (contentType o) = form_urlencoded ->
  fst (makeRequestForResource toUpperCase hmacSHA1 JSON_stringify resourceURL
         o e this) = Ok req ->
  url req = resourceURL
  /\ request_method req = lit "POST"
  /\ exists q authorization signature,
       buildQuery l = Ok q
       /\ body req = BodyString q
       /\ (params_code_units l = true -> URLSearchParams q = map pair_strings l)
       /\ headers req = [("Authorization"%string, authorization);
                         ("Content-Type"%string, form_urlencoded)]
       /\ getSignature toUpperCase hmacSHA1 this (lit "POST") resourceURL
            (default [] (params o))
            [ (VString (lit "oauth_consumer_key"), consumerKey this);
              (VString (lit "oauth_nonce"), VString (getNonce e));
              (VString (lit "oauth_signature_method"), VString (lit "HMAC-SHA1"));
              (VString (lit "oauth_timestamp"), VNumber (getTimestamp e));
              (VString (lit "oauth_token"), token this);
              (VString (lit "oauth_version"), VString (lit "1.0")) ]
            (BodyParams l) = Ok signature
       /\ exists ck tk sg,
            encodePercent (consumerKey this) = Ok ck
            /\ encodePercent (token this) = Ok tk
            /\ encodePercent (VString signature) = Ok sg
            /\ authorization
               = header_of_pairs
                   [ (lit "oauth_consumer_key", ck);
                     (lit "oauth_nonce", getNonce e);
                     (lit "oauth_signature_method", lit "HMAC-SHA1");
                     (lit "oauth_timestamp",
                      NumberToString 10 (getTimestamp e));
                     (lit "oauth_token", tk);
                     (lit "oauth_version", lit "1.0");
                     (lit "oauth_signature", sg) ].
Proof.
  intros Hm Hb Hct H. unfold makeRequestForResource in H. cbn [fst] in H.
  rewrite makeRequest_post in H
    by (cbn [method bodyValue default]; rewrite Hm, Hb; reflexivity).
  cbn [method params oAuthParams contentType bodyValue default] in H.
  rewrite Hm, Hb, Hct in H. cbn [default] in H.
  change (str_eqb form_urlencoded form_urlencoded) with true in H. cbv iota in H.
  change signatureMethod with (lit "HMAC-SHA1") in H.
  change version with (lit "1.0") in H.
  apply bind_Ok_inv in H as (authorization & Ha & H).
  apply bind_Ok_inv in H as (b & Hbody & [= <-]).
  unfold buildBody in Hbody.
  change (str_eqb (lit "application/json") form_urlencoded) with false in Hbody.
  change (str_eqb form_urlencoded form_urlencoded) with true in Hbody.
  cbv iota in Hbody. apply bind_Ok_inv in Hbody as (q & Hq & [= <-]).
  cbn [url request_method headers body].
  split; [reflexivity|]. split; [reflexivity|].
  rewrite getAuthHeaderValue_eq in Ha.
  apply bind_Ok_inv in Ha as (signature & Hs & Ha).
  apply bind_Ok_inv in Ha as (pairs & Hp & [= <-]).
  exists q, (header_of_pairs pairs), signature.
  split; [exact Hq|]. split; [reflexivity|]. split.
  { intros R. exact (proj1 (URLSearchParams_buildQuery_eq l q R Hq)). }
  split; [reflexivity|]. split; [exact Hs|].
  unfold signature_pair in Hp. cbn [app mapM] in Hp.
  rewrite !encode_pair_key in Hp by reflexivity.
  rewrite (encodePercent_unreserved (getNonce e)) in Hp
    by apply getNonce_unreserved.
  rewrite (encodePercent_unreserved (lit "HMAC-SHA1")) in Hp by reflexivity.
  rewrite (encodePercent_unreserved (lit "1.0")) in Hp by reflexivity.
  rewrite encodePercent_number in Hp.
  destruct (encodePercent (consumerKey this)) as [ck|] eqn:Eck; [|discriminate].
  destruct (encodePercent (token this)) as [tk|] eqn:Etk; [|discriminate].
  destruct (encodePercent (VString signature)) as [sg|] eqn:Esg; [|discriminate].
  cbn [bind] in Hp. injection Hp as <-.
  exists ck, tk, sg. repeat split.
Qed.

Lemma resource_request_form_body_witness :
  exists req,
    fst (makeRequestForResource ascii_toUpperCase sample_hmac
           sample_JSON_stringify (lit "https://example.com/r") form_post
           sample_env sample_client) = Ok req
    /\ url req = lit "https://example.com/r"
    /\ body req = BodyString (lit "key%20foo=a%26b").
Proof.
  destruct (fst (makeRequestForResource ascii_toUpperCase sample_hmac
           sample_JSON_stringify (lit "https://example.com/r") form_post
           sample_env sample_client)) as [req|] eqn:E;
    [|vm_compute in E; discriminate E].
  exists req. split; [reflexivity|].
  destruct (resource_request_form_body ascii_toUpperCase sample_hmac
              sample_JSON_stringify (lit "https://example.com/r") form_post
              sample_env sample_client
              [(VString (lit "key foo"), VString (lit "a&b"))] req
              eq_refl eq_refl eq_refl E)
    as (Hu & _ & q & a & s & Hq & Hb & _).
  split; [exact Hu|]. rewrite Hb. f_equal.
  vm_compute in Hq. injection Hq as <-. reflexivity.
Defined.



(** ** A string body under the form content type *)

Lemma code_point_strings_wf s :
  isWellFormed s = true ->
  forallb isWellFormed (code_point_strings s) = true.
Proof.
  unfold isWellFormed at 1.
  induction s as [|c s IH1 IH2] using list_ind_pairs; [reflexivity|].
  simpl. destruct (is_trailing_surrogate c) eqn:T; [discriminate|].
  destruct (is_leading_surrogate c) eqn:L.
  - destruct s as [|d s']; [discriminate|].
    destruct (is_trailing_surrogate d) eqn:T'; [|discriminate].
    intros H. cbn [forallb]. rewrite IH2 with (d := d) (s' := s');
      [|reflexivity|destruct (to_code_points s'); [reflexivity|discriminate]].
    unfold isWellFormed. simpl. rewrite T, L, T'. reflexivity.
  - intros H. cbn [forallb].
    rewrite IH1 by (destruct (to_code_points s); [reflexivity|discriminate]).
    unfold isWellFormed. simpl. rewrite T, L. reflexivity.
Qed.

Lemma spread_string_wf s bp :
  isWellFormed s = true -> spread (BodyString s) = Ok bp -> params_wf bp = true.
Proof.
  intros W [= <-]. pose proof (code_point_strings_wf s W) as F.
  unfold params_wf. rewrite forallb_forall in *. intros [k v] Hin.
  apply in_map_iff in Hin as (cp & [= <- <-] & Hcp).
  unfold value_wf. cbn [ToString]. rewrite (F cp Hcp). reflexivity.
Qed.

(** X14: a POST whose body value is a non-empty string, under the form
    content type (the default), never yields a request: the signature is
    computed over the characters of the string, and then [buildBody]
    throws [TypeError], the string having no [map].  The exception is
    [TypeError] whenever the URL, the parameters, the body and the
    secrets are well formed, and [URIError] otherwise. *)
Theorem string_body_as_form_throws
    (toUpperCase : jsstring -> jsstring)
    (hmacSHA1 : list N -> list N -> list N)
    (JSON_stringify : body_value -> jsstring)
    (this : OAuth) (requestURL : jsstring) (o : options) (c : N) (s : jsstring) :
  method o = Some (lit "POST") -> bodyValue o = BodyString (c :: s) ->
  default form_urlencoded (contentType o) = form_urlencoded ->
  (exists e,
     makeRequest toUpperCase hmacSHA1 JSON_stringify this requestURL o = Throw e
     /\ (e = TypeError \/ e = URIError))
  /\ (isWellFormed requestURL = true ->
      params_wf (default [] (params o)) = true ->
      params_wf (default [] (oAuthParams o)) = true ->
      isWellFormed (c :: s) = true ->
      value_wf (consumerSecret this) = true ->
      value_wf (tokenSecret this) = true ->
      makeRequest toUpperCase hmacSHA1 JSON_stringify this requestURL o
      = Throw TypeError).
Proof.
  intros Hm Hb Hct.
  rewrite makeRequest_post by (rewrite Hm, Hb; reflexivity).
  cbv zeta. rewrite Hm, Hb, Hct. cbn [default].
  change (str_eqb form_urlencoded form_urlencoded) with true. cbv iota.
  unfold buildBody.
  change (str_eqb (lit "application/json") form_urlencoded) with false.
  change (str_eqb form_urlencoded form_urlencoded) with true. cbv iota.
  split.
  - destruct (getAuthHeaderValue _ _ _ _ _ _ _ _) as [a|ex] eqn:E.
    + exists TypeError. split; [reflexivity|left; reflexivity].
    + exists ex. split; [reflexivity|right].
      apply getAuthHeaderValue_Throw in E as [E|E]; [discriminate|exact E].
  - intros Wu Wp Wo Ws Wc Wt.
    edestruct (getAuthHeaderValue_total toUpperCase hmacSHA1 this (lit "POST")
                 requestURL (default [] (params o)) (default [] (oAuthParams o))
                 (BodyString (c :: s)))
      as [a ->];
      [reflexivity|exact Wp|exact Wo| |exact Wu|exact Wc|exact Wt|reflexivity].
    eapply spread_string_wf; [exact Ws|reflexivity].
Qed.

Lemma string_body_as_form_throws_witness :
  makeRequest ascii_toUpperCase sample_hmac sample_JSON_stringify sample_client
    (lit "https://example.com/r") (with_body form_post (BodyString (lit "a=1")))
  = Throw TypeError.
Proof.
  apply (string_body_as_form_throws ascii_toUpperCase sample_hmac
           sample_JSON_stringify sample_client (lit "https://example.com/r")
           (with_body form_post (BodyString (lit "a=1"))) 97 (lit "=1"));
    reflexivity.
Defined.

(** ** What is signed *)

Lemma utf8_encode_cons c rest :
  utf8_encode (c :: rest)
  = if is_leading_surrogate c then
      match rest with
      | [] => [0xEF; 0xBF; 0xBD]
      | d :: rest' =>
          if is_trailing_surrogate d then
            utf8_octets (UTF16SurrogatePairToCodePoint c d) ++ utf8_encode rest'
          else [0xEF; 0xBF; 0xBD] ++ utf8_encode rest
      end
    else if is_trailing_surrogate c then [0xEF; 0xBF; 0xBD] ++ utf8_encode rest
    else utf8_octets c ++ utf8_encode rest.
Proof. reflexivity. Qed.

Lemma utf8_encode_app a c b :
  is_trailing_surrogate c = false ->
  utf8_encode (a ++ c :: b) = utf8_encode a ++ utf8_encode (c :: b).
Proof.
  intros Hc. induction a as [|x a IH1 IH2] using list_ind_pairs; [reflexivity|].
  rewrite <- app_comm_cons, (utf8_encode_cons x (a ++ c :: b)),
    (utf8_encode_cons x a).
  destruct (is_leading_surrogate x).
  - destruct a as [|d a'].
    + rewrite app_nil_l, Hc. reflexivity.
    + rewrite <- app_comm_cons. destruct (is_trailing_surrogate d).
      * rewrite <- app_assoc. f_equal. exact (IH2 d a' eq_refl).
      * rewrite app_comm_cons, IH1, <- app_assoc. reflexivity.
  - destruct (is_trailing_surrogate x); rewrite IH1, <- ?app_assoc; reflexivity.
Qed.

(** X15: the signature is the base64 text of the HMAC-SHA1 whose message
    is the UTF-8 octets of the upper-cased method followed by the ASCII
    characters [&], the encoded URL, [&] and the encoded canonical
    parameter string, and whose key is the ASCII characters of the encoded
    consumer secret, [&] and the encoded token secret. *)
Theorem signature_formula
    (toUpperCase : jsstring -> jsstring)
    (hmacSHA1 : list N -> list N -> list N)
    (this : OAuth) (method requestURL : jsstring)
    (params oAuthParams : list param) (bodyParams : body_value)
    (signature : jsstring) :
  getSignature toUpperCase hmacSHA1 this method requestURL params oAuthParams
    bodyParams = Ok signature ->
  exists bp canonical eurl ecanonical ec et,
    spread bodyParams = Ok bp
    /\ paramsString params oAuthParams bp = Ok canonical
    /\ encodePercent (VString requestURL) = Ok eurl
    /\ encodePercent (VString canonical) = Ok ecanonical
    /\ encodePercent (consumerSecret this) = Ok ec
    /\ encodePercent (tokenSecret this) = Ok et
    /\ signature
       = encodeBase64
           (hmacSHA1
              (parseUint8Array (toUpperCase method)
               ++ [ampersand] ++ eurl ++ [ampersand] ++ ecanonical)
              (ec ++ [ampersand] ++ et))
    /\ ascii_only signature = true.
Proof.
  intros H. pose proof (getSignature_ascii _ _ _ _ _ _ _ _ _ H) as A.
  apply getSignature_Ok_inv in H as (bp & canonical & bs & ks & Hbp & Hc & Hb & Hk & ->).
  unfold baseString in Hb. apply bind_Ok_inv in Hb as (eurl & Hu & Hb).
  apply bind_Ok_inv in Hb as (ecanonical & Hp & [= <-]).
  unfold keyString in Hk. apply bind_Ok_inv in Hk as (ec & Hec & Hk).
  apply bind_Ok_inv in Hk as (et & Het & [= <-]).
  exists bp, canonical, eurl, ecanonical, ec, et.
  repeat split; try assumption. f_equal. f_equal.
  - unfold parseUint8Array. change (lit "&") with [ampersand]. cbn [app].
    rewrite utf8_encode_app by reflexivity. f_equal.
    apply utf8_encode_ascii.
    change (ampersand :: eurl ++ ampersand :: ecanonical)
      with ([ampersand] ++ eurl ++ [ampersand] ++ ecanonical).
    rewrite !ascii_only_app, (encodePercent_ascii _ _ Hu),
      (encodePercent_ascii _ _ Hp). reflexivity.
  - unfold parseUint8Array. apply utf8_encode_ascii.
    change (lit "&") with [ampersand].
    rewrite !ascii_only_app, (encodePercent_ascii _ _ Hec),
      (encodePercent_ascii _ _ Het). reflexivity.
Qed.

Lemma signature_formula_witness :
  exists signature,
    getSignature ascii_toUpperCase sample_hmac sample_client (lit "get")
      (lit "http://photos.example.net/photos") photos_params
      photos_oAuthParams (BodyParams []) = Ok signature
    /\ ascii_only signature = true.
Proof.
  destruct (getSignature ascii_toUpperCase sample_hmac sample_client (lit "get")
              (lit "http://photos.example.net/photos") photos_params
              photos_oAuthParams (BodyParams [])) as [signature|] eqn:E;
    [|vm_compute in E; discriminate E].
  exists signature. split; [reflexivity|].
  destruct (signature_formula _ _ _ _ _ _ _ _ _ E)
    as (? & ? & ? & ? & ? & ? & _ & _ & _ & _ & _ & _ & _ & A).
  exact A.
Defined.

(** X16: the second definition of the class in src/oauth.js builds the
    same request as the first for every call that is not a POST with a
    truthy body under [application/json]; [makeRequestForAccessToken]
    is the same function in both, and so is [makeRequestForRequestToken]
    when no body value is given. *)
Theorem Revised_agrees
    (toUpperCase : jsstring -> jsstring)
    (hmacSHA1 : list N -> list N -> list N)
    (JSON_stringify : body_value -> jsstring) :
  (forall this requestURL o,
     str_eqb (lit "application/json") (default form_urlencoded (contentType o))
     && (str_eqb (lit "POST") (default (lit "GET") (method o))
         && body_truthy (bodyValue o)) = false ->
     Revised.makeRequest toUpperCase hmacSHA1 this requestURL o
     = makeRequest toUpperCase hmacSHA1 JSON_stringify this requestURL o)
  /\ (forall accessTokenURL verifier o e this,
        Revised.makeRequestForAccessToken toUpperCase hmacSHA1 accessTokenURL
          verifier o e this
        = makeRequestForAccessToken toUpperCase hmacSHA1 JSON_stringify
            accessTokenURL verifier o e this)
  /\ (forall requestTokenURL o e this,
        bodyValue o = BodyUndefined ->
        Revised.makeRequestForRequestToken toUpperCase hmacSHA1 requestTokenURL
          o e this
        = makeRequestForRequestToken toUpperCase hmacSHA1 JSON_stringify
            requestTokenURL o e this).
Proof.
  split; [|split].
  - intros this requestURL o H. apply Revised_makeRequest_agrees.
    apply andb_false_iff in H. exact H.
  - intros. apply Revised_makeRequestForAccessToken_agrees.
  - intros. apply Revised_makeRequestForRequestToken_agrees. assumption.
Qed.

Lemma Revised_agrees_witness :
  Revised.makeRequest ascii_toUpperCase sample_hmac sample_client
    (lit "https://example.com/r") form_post
  = makeRequest ascii_toUpperCase sample_hmac sample_JSON_stringify
      sample_client (lit "https://example.com/r") form_post
  /\ Revised.makeRequestForRequestToken ascii_toUpperCase sample_hmac
       (lit "https://example.com/request_token") no_options sample_env
       sample_client
     = makeRequestForRequestToken ascii_toUpperCase sample_hmac
         sample_JSON_stringify (lit "https://example.com/request_token")
         no_options sample_env sample_client.
Proof.
  destruct (Revised_agrees ascii_toUpperCase sample_hmac sample_JSON_stringify)
    as (H1 & _ & H3).
  split; [apply H1; reflexivity|apply H3; reflexivity].
Defined.
